(** * ShapeTracker: views over a flat buffer and their index expressions

    A shallow embedding of [tinygrad/shape/__init__.py].  Python integers are
    [Z], tuples and lists are [list], a raised exception is the [Raise] branch
    of [result].  The methods of the source mutate the tracker and return it;
    here every method takes the tracker and returns the new one, and a
    method that raises returns no tracker. *)

From Stdlib Require Import ZArith List String Bool Lia DecimalString DecimalNat
  Permutation.
Import ListNotations.
Open Scope Z_scope.

(** ** Exceptions and the error monad *)

Inductive exn : Type :=
| AssertionError
| ZeroDivisionError
| IndexError
| NotImplementedError.

Inductive result (A : Type) : Type :=
| Ok (a : A)
| Raise (e : exn).
Arguments Ok {A} a.
Arguments Raise {A} e.

Definition bind {A B : Type} (r : result A) (f : A -> result B) : result B :=
  match r with
  | Ok a => f a
  | Raise e => Raise e
  end.

Notation "x <- c ;; k" := (bind c (fun x => k))
  (at level 61, c at next level, right associativity).

Definition assert (b : bool) : result unit :=
  if b then Ok tt else Raise AssertionError.

Definition is_ok {A : Type} (r : result A) : bool :=
  match r with Ok _ => true | Raise _ => false end.

(** ** Python helpers *)

(** Python's [sum] over a list of integers. *)
Definition Zsum (l : list Z) : Z := fold_right Z.add 0 l.

(** Modelled from the spec: [prod] of [tinygrad.helpers], which is not among
    the sources; the spec uses it as the product of a shape ("bounds
    [0, prod(shape)-1]"). *)
Definition prod (l : list Z) : Z := fold_right Z.mul 1 l.

(** [l[i]] for a non-negative position. *)
Definition index (l : list Z) (i : nat) : result Z :=
  match nth_error l i with
  | Some x => Ok x
  | None => Raise IndexError
  end.

(** [zip] of three sequences. *)
Definition zip3 {A B C : Type} (a : list A) (b : list B) (c : list C)
  : list (A * B * C) := combine (combine a b) c.

(** [l[-1]] and [l[:-1]] together. *)
Definition unsnoc {A : Type} (l : list A) : option (list A * A) :=
  match rev l with
  | [] => None
  | x :: r => Some (rev r, x)
  end.

(** ** Symbolic expressions *)

Module Symbolic.

(** Modelled from the spec: the expression algebra of
    [tinygrad.shape.symbolic], which is not among the sources.  The node
    variants are those of the spec's data model (section 3); [VarNode] is the
    source's [Variable]. *)
#[local] Unset Elimination Schemes.
Inductive Node : Type :=
| NumNode (b : Z)
| VarNode (expr : string) (lo hi : Z)
| MulNode (a : Node) (b : Z)
| DivNode (a : Node) (b : Z)
| ModNode (a : Node) (b : Z)
| SumNode (nodes : list Node)
| AndNode (nodes : list Node)
| LtNode (a : Node) (b : Z)
| GeNode (a : Node) (b : Z).
#[local] Set Elimination Schemes.

(** Modelled from the spec: the derived interval of a node, "recomputed from
    children at construction": [div: [min//k, max//k]], [mod: [0, k-1]],
    predicates are 0/1-valued. *)
Fixpoint bounds (e : Node) : Z * Z :=
  match e with
  | NumNode b => (b, b)
  | VarNode _ lo hi => (lo, hi)
  | MulNode a b =>
      let '(l, h) := bounds a in
      if 0 <=? b then (l * b, h * b) else (h * b, l * b)
  | DivNode a b => let '(l, h) := bounds a in (l / b, h / b)
  | ModNode _ b => (0, b - 1)
  | SumNode xs =>
      (Zsum (map (fun x => fst (bounds x)) xs),
       Zsum (map (fun x => snd (bounds x)) xs))
  | AndNode _ => (0, 1)
  | LtNode _ _ => (0, 1)
  | GeNode _ _ => (0, 1)
  end.

(** Modelled from the spec: the [min] and [max] that every node carries. *)
Definition min (e : Node) : Z := fst (bounds e).
Definition max (e : Node) : Z := snd (bounds e).

(** Modelled from the spec: "evaluating [e] on a concrete assignment of its
    free variables"; [//] and [%] are Python's (floor), a predicate is 0 or
    1. *)
Fixpoint eval (env : string -> Z) (e : Node) : Z :=
  match e with
  | NumNode b => b
  | VarNode x _ _ => env x
  | MulNode a b => eval env a * b
  | DivNode a b => eval env a / b
  | ModNode a b => eval env a mod b
  | SumNode xs => Zsum (map (eval env) xs)
  | AndNode xs => if forallb (fun x => negb (eval env x =? 0)) xs then 1 else 0
  | LtNode a b => if eval env a <? b then 1 else 0
  | GeNode a b => if b <=? eval env a then 1 else 0
  end.

(** Modelled from the spec: structural equality of nodes, by which [sum]
    "groups like variables". *)
Fixpoint eqb (x y : Node) : bool :=
  let fix eqbs (xs ys : list Node) : bool :=
    match xs, ys with
    | [], [] => true
    | a :: xs', b :: ys' => eqb a b && eqbs xs' ys'
    | _, _ => false
    end in
  match x, y with
  | NumNode b, NumNode b' => b =? b'
  | VarNode n l h, VarNode n' l' h' => String.eqb n n' && (l =? l') && (h =? h')
  | MulNode a b, MulNode a' b' => eqb a a' && (b =? b')
  | DivNode a b, DivNode a' b' => eqb a a' && (b =? b')
  | ModNode a b, ModNode a' b' => eqb a a' && (b =? b')
  | SumNode xs, SumNode ys => eqbs xs ys
  | AndNode xs, AndNode ys => eqbs xs ys
  | LtNode a b, LtNode a' b' => eqb a a' && (b =? b')
  | GeNode a b, GeNode a' b' => eqb a a' && (b =? b')
  | _, _ => false
  end.

(** Modelled from the spec: [num(c) -> Num(c)]. *)
Definition num (c : Z) : Node := NumNode c.

(** Modelled from the spec: [var(name, lo, hi) -> Var if lo < hi, else
    Num(lo)]. *)
Definition var (name : string) (lo hi : Z) : Node :=
  if lo <? hi then VarNode name lo hi else NumNode lo.

(** Modelled from the spec: the summands of an expression, with "nested
    Sums" flattened. *)
Fixpoint flatten (e : Node) : list Node :=
  match e with
  | SumNode xs => flat_map flatten xs
  | _ => [e]
  end.

(** Modelled from the spec: a summand as (expression, coefficient), and the
    list of them with a summand added to its like. *)
Definition term_of (x : Node) : Node * Z :=
  match x with
  | MulNode a b => (a, b)
  | _ => (x, 1)
  end.

Fixpoint add_term (a : Node) (c : Z) (acc : list (Node * Z)) : list (Node * Z) :=
  match acc with
  | [] => [(a, c)]
  | (a', c') :: r =>
      if eqb a a' then (a', c' + c) :: r else (a', c') :: add_term a c r
  end.

(** Modelled from the spec: constants are folded into the first component,
    the other summands are grouped by expression with their coefficients
    added. *)
Fixpoint group (xs : list Node) (const : Z) (acc : list (Node * Z))
  : Z * list (Node * Z) :=
  match xs with
  | [] => (const, acc)
  | NumNode c :: r => group r (const + c) acc
  | x :: r => let '(a, c) := term_of x in group r const (add_term a c acc)
  end.

(** Modelled from the spec: a grouped summand back as a node; [Mul(x, 1)] is
    [x]. *)
Definition scaled (t : Node * Z) : Node :=
  let '(a, c) := t in if c =? 1 then a else MulNode a c.

(** Modelled from the spec: [sum(xs)] "flattens nested Sums, groups like
    variables by coefficient, folds constants, drops zeros, returns Num(0) on
    empty, the sole child if singleton". *)
Definition sum (xs : list Node) : Node :=
  let '(const, terms) := group (flat_map flatten xs) 0 [] in
  let kept := map scaled (filter (fun t => negb (snd t =? 0)) terms) in
  match kept ++ (if const =? 0 then [] else [NumNode const]) with
  | [] => NumNode 0
  | [x] => x
  | children => SumNode children
  end.

(** Modelled from the spec: [mul(e, k)] "if k == 0 -> Num(0); if k == 1 -> e;
    distributes over Sum (each summand scaled); composes Mul(Mul(x,a),b) ->
    Mul(x, a*b)".  A scaled constant stays a constant, which keeps the "at
    most one Num summand" form of a distributed sum. *)
Fixpoint mul (e : Node) (k : Z) : Node :=
  if k =? 0 then NumNode 0
  else if k =? 1 then e
  else match e with
       | NumNode c => NumNode (c * k)
       | SumNode xs => sum (map (fun x => mul x k) xs)
       | MulNode a b => MulNode a (b * k)
       | _ => MulNode e k
       end.

(** Modelled from the spec: a summand that is a multiple of [k], "constant
    or coefficient divisible", and the summand with [k] factored out. *)
Definition multiple_of (k : Z) (x : Node) : bool :=
  match x with
  | NumNode c => c mod k =? 0
  | MulNode _ b => b mod k =? 0
  | _ => false
  end.

Definition reduce_by (k : Z) (x : Node) : Node :=
  match x with
  | NumNode c => NumNode (c / k)
  | MulNode a b => mul a (b / k)
  | _ => x
  end.

(** Modelled from the spec: [div(e, k)] with [k > 0]; [k <= 0] is "a
    programming error (fatal)".  In the order of the spec: bounds prove the
    quotient 0; every summand of a Sum is a multiple of [k]; otherwise the
    unsimplified node. *)
Definition floordiv (e : Node) (k : Z) : result Node :=
  if k <=? 0 then Raise AssertionError
  else if (max e <? k) && (0 <=? min e) then Ok (NumNode 0)
  else match e with
       | SumNode xs =>
           if forallb (multiple_of k) xs then Ok (sum (map (reduce_by k) xs))
           else Ok (DivNode e k)
       | _ => Ok (DivNode e k)
       end.

(** Modelled from the spec: [mod(e, k)] with [k > 0], the same order of
    rules, and [mod(mod(e, k2), k1)] with [k1 <= k2] and [k2 % k1 == 0]
    becoming [mod(e, k1)]. *)
Fixpoint mod_ (e : Node) (k : Z) : result Node :=
  if k <=? 0 then Raise AssertionError
  else if (max e <? k) && (0 <=? min e) then Ok e
  else match e with
       | SumNode xs =>
           if forallb (multiple_of k) xs then Ok (NumNode 0)
           else Ok (ModNode e k)
       | ModNode a k2 =>
           if (k <=? k2) && (k2 mod k =? 0) then mod_ a k
           else Ok (ModNode e k)
       | _ => Ok (ModNode e k)
       end.

(** Modelled from the spec: [lt(e, k)] / [ge(e, k)] "if bounds prove the
    comparison, return Num(0) or Num(1)". *)
Definition lt (e : Node) (k : Z) : Node :=
  if max e <? k then NumNode 1
  else if k <=? min e then NumNode 0
  else LtNode e k.

Definition ge (e : Node) (k : Z) : Node :=
  if k <=? min e then NumNode 1
  else if max e <? k then NumNode 0
  else GeNode e k.

(** Modelled from the spec: the conjuncts of a predicate, nested
    conjunctions flattened, and the test for the constant [c]. *)
Fixpoint conjuncts (e : Node) : list Node :=
  match e with
  | AndNode xs => flat_map conjuncts xs
  | _ => [e]
  end.

Definition is_num (c : Z) (e : Node) : bool :=
  match e with
  | NumNode b => b =? c
  | _ => false
  end.

(** Modelled from the spec: [ands(xs)] "flatten, drop Num(1), if any Num(0)
    -> Num(0), singleton unwraps".  Of no conjunct at all the spec says that
    the predicate "is always 1" (section 4.4, the no-padding shrink): the
    empty conjunction is [Num(1)]. *)
Definition ands (xs : list Node) : Node :=
  let cs := flat_map conjuncts xs in
  if existsb (is_num 0) cs then NumNode 0
  else match filter (fun c => negb (is_num 1 c)) cs with
       | [] => NumNode 1
       | [x] => x
       | kept => AndNode kept
       end.

(** Modelled from the spec: [e + c] for an integer [c], the sum of [e] and
    [num(c)]; the source writes it [base = (...) + x]. *)
Definition add (e : Node) (c : Z) : Node := sum [e; num c].

End Symbolic.

Import Symbolic.

(** ** Views *)

(** [to_shape_strides]: the loop over [range(1, len(shape))], with the last
    pair of [ret] kept apart. *)
Fixpoint merge_dims (last : Z * Z) (rest : list (Z * Z)) : list (Z * Z) :=
  match rest with
  | [] => [last]
  | (sh, st) :: r =>
      if (negb (st =? 0) && (snd last =? sh * st))
         || (fst last =? 1)
         || ((st =? 0) && (snd last =? 0))
      then merge_dims (fst last * sh, st) r
      else last :: merge_dims (sh, st) r
  end.

Definition to_shape_strides (shape strides : list Z) : result (list (Z * Z)) :=
  _ <- assert (Nat.eqb (List.length shape) (List.length strides)) ;;
  Ok (match combine shape strides with
      | [] => []
      | p :: r => merge_dims p r
      end).

Definition strides_for_shape (shape : list Z) : list Z :=
  fold_left (fun strides d => d * hd 0 strides :: strides)
            (removelast (rev shape)) [1].

(** The strides a View keeps: [stride if shp != 1 else 0] over
    [zip(strides, shape)]. *)
Definition normalize (strides shape : list Z) : list Z :=
  map (fun '(stride, shp) => if shp =? 1 then 0 else stride) (combine strides shape).

Module View.

Record t : Type := mk {
  shape : list Z;
  strides : list Z;
  offset : Z;
  shape_strides : list (Z * Z);
  contiguous : bool
}.

(** [View.__init__]. *)
Definition init (shape strides : list Z) (offset : Z) : result t :=
  let strides' := normalize strides shape in
  ss <- to_shape_strides shape strides' ;;
  Ok (mk shape strides' offset ss
         ((offset =? 0)
          && forallb (fun '(s, (s1, s2)) => (s1 =? s2) || (s =? 1))
                     (combine shape (combine strides' (strides_for_shape shape))))).

(** The index variable [expr_node] makes when it is given none. *)
Definition default_idx (v : t) : Node := var "idx" 0 (prod (shape v)).

(** The loop of [expr_node] over [shape_strides[::-1]]. *)
Fixpoint expr_node_loop (idx : Node) (dims : list (Z * Z)) (acc : Z)
         (ret : list Node) : result (list Node) :=
  match dims with
  | [] => Ok ret
  | (d, s) :: r =>
      if negb (d =? 1) && negb (s =? 0)
      then q <- floordiv idx acc ;;
           m <- mod_ q d ;;
           expr_node_loop idx r (acc * d) (ret ++ [mul m s])
      else expr_node_loop idx r (acc * d) ret
  end.

Definition expr_node (v : t) (idx : option Node) : result Node :=
  let idx := match idx with None => default_idx v | Some i => i end in
  ret <- expr_node_loop idx (rev (shape_strides v)) 1 [num (offset v)] ;;
  Ok (sum ret).

Definition expr_idxs (v : t) (idxs : list string) (offset0 : Z) : Node :=
  sum (num (offset v + offset0)
       :: map (fun '(idx, sh, st) => mul (var idx 0 (sh - 1)) st)
              (filter (fun '(_, sh, st) => negb (sh =? 1) && negb (st =? 0))
                      (zip3 idxs (shape v) (strides v)))).

End View.

Module ZeroView.

Record t : Type := mk {
  old_shape : list Z;
  arg : list (Z * Z);
  shape : list Z;
  contiguous : bool;
  strides : list Z;
  offset : Z
}.

(** [ZeroView.__init__]; strides, contiguous and offset are the "fake
    properties" of the source. *)
Definition init (old_shape : list Z) (arg : list (Z * Z)) : t :=
  let shape := map (fun '(x, y) => y - x) arg in
  mk old_shape arg shape false (strides_for_shape shape) 0.

Definition default_idx (z : t) : Node :=
  var "idx" 0 (prod (map (fun '(x, y) => y - x) (arg z))).

Fixpoint expr_node_loop (idx : Node) (dims : list (Z * Z * (Z * Z))) (acc : Z)
         (expr : list Node) : result (list Node) :=
  match dims with
  | [] => Ok expr
  | (s, ns, (x, y)) :: r =>
      q <- floordiv idx acc ;;
      m <- mod_ q ns ;;
      let base := add m x in
      expr_node_loop idx r (acc * ns)
        (expr ++ (if x <? 0 then [ge base 0] else [])
              ++ (if s <? y then [lt base s] else []))
  end.

Definition expr_node (z : t) (idx valid : option Node) : result Node :=
  let idx := match idx with None => default_idx z | Some i => i end in
  expr <- expr_node_loop idx (rev (zip3 (old_shape z) (shape z) (arg z))) 1
                         (match valid with Some v => [v] | None => [] end) ;;
  Ok (ands expr).

End ZeroView.

Inductive ViewTypes : Type :=
| IsView (v : View.t)
| IsZeroView (z : ZeroView.t).

Definition view_from_shape (shape : list Z) : result View.t :=
  _ <- assert (negb (Nat.eqb (List.length shape) 0)) ;;
  View.init shape (strides_for_shape shape) 0.

(** ** ShapeTracker *)

Module ShapeTracker.

Record t : Type := mk { views : list ViewTypes }.

(** What the methods read off a view of either class. *)
Definition vt_shape (v : ViewTypes) : list Z :=
  match v with IsView v => View.shape v | IsZeroView z => ZeroView.shape z end.
Definition vt_strides (v : ViewTypes) : list Z :=
  match v with IsView v => View.strides v | IsZeroView z => ZeroView.strides z end.
Definition vt_offset (v : ViewTypes) : Z :=
  match v with IsView v => View.offset v | IsZeroView z => ZeroView.offset z end.
Definition vt_contiguous (v : ViewTypes) : bool :=
  match v with IsView v => View.contiguous v | IsZeroView z => ZeroView.contiguous z end.
Definition is_zeroview (v : ViewTypes) : bool :=
  match v with IsView _ => false | IsZeroView _ => true end.

(** [ShapeTracker(shape)]. *)
Definition new (shape : list Z) : result t :=
  v <- view_from_shape shape ;; Ok (mk [IsView v]).

(** [self.views[-1]]. *)
Definition top (st : t) : result ViewTypes :=
  match unsnoc (views st) with
  | Some (_, v) => Ok v
  | None => Raise IndexError
  end.

(** [self.views[-1] = v]. *)
Definition set_top (st : t) (v : ViewTypes) : result t :=
  match unsnoc (views st) with
  | Some (below, _) => Ok (mk (below ++ [v]))
  | None => Raise IndexError
  end.

Definition shape (st : t) : result (list Z) := v <- top st ;; Ok (vt_shape v).
Definition strides (st : t) : result (list Z) := v <- top st ;; Ok (vt_strides v).
Definition offset (st : t) : result Z := v <- top st ;; Ok (vt_offset v).

Definition contiguous (st : t) : result bool :=
  if Nat.eqb (List.length (views st)) 1
  then v <- top st ;; Ok (vt_contiguous v)
  else Ok false.

Definition needs_valid (st : t) : bool := existsb is_zeroview (views st).

(** The loop of [_expr_idx] over [self.views[0:-1][::-1]]. *)
Fixpoint expr_idx_loop (vs : list ViewTypes) (idx valid : Node)
  : result (Node * Node) :=
  match vs with
  | [] => Ok (idx, valid)
  | IsZeroView z :: r =>
      valid' <- ZeroView.expr_node z (Some idx) (Some valid) ;;
      expr_idx_loop r idx valid'
  | IsView v :: r =>
      idx' <- View.expr_node v (Some idx) ;;
      expr_idx_loop r idx' valid
  end.

Definition _expr_idx (st : t) (idx : Node) : result (Node * Node) :=
  expr_idx_loop (rev (removelast (views st))) idx (num 1).

(** [f"idx{i}"]. *)
Definition idx_name (i : nat) : string :=
  String.append "idx" (NilEmpty.string_of_uint (Nat.to_uint i)).

Definition expr_idxs (st : t) (offset0 : Z) (idxs : option (list string))
  : result (Node * Node) :=
  sh <- shape st ;;
  let idxs := match idxs with
              | None => map idx_name (seq 0 (List.length sh))
              | Some l => l
              end in
  v <- top st ;;
  match v with
  | IsView v => _expr_idx st (View.expr_idxs v idxs offset0)
  | IsZeroView _ => Raise NotImplementedError
  end.

(** The index variable of [ShapeTracker.expr_node]. *)
Definition default_idx (st : t) (idx : string) : result Node :=
  sh <- shape st ;; Ok (var idx 0 (prod sh - 1)).

Definition expr_node (st : t) (idx : string) : result (Node * Node) :=
  v <- top st ;;
  i <- default_idx st idx ;;
  e <- match v with
       | IsView v => View.expr_node v (Some i)
       | IsZeroView z => ZeroView.expr_node z (Some i) None
       end ;;
  _expr_idx st e.

(** The three shapes of [this_dim] that [simplify] turns into a stride. *)
Definition classify (this_dim : Node) : option Z :=
  match this_dim with
  | NumNode b => if b =? 0 then Some 0 else None
  | VarNode _ _ _ => Some 1
  | MulNode (VarNode _ _ _) b => Some b
  | _ => None
  end.

(** The loop of [simplify] over the dimensions of the top view; [break] is
    the early return. *)
Fixpoint probe (below : View.t) (dims : list (Z * Z)) (new_strides : list Z)
  : result (list Z) :=
  match dims with
  | [] => Ok new_strides
  | (s, st) :: r =>
      this_dim <- View.expr_node below (Some (mul (var "idx" 0 (s - 1)) st)) ;;
      match classify this_dim with
      | Some k => probe below r (new_strides ++ [k])
      | None => Ok new_strides
      end
  end.

(** One activation of [simplify]: [Some st'] is the tracker on which it calls
    itself, [None] is a return without a further call. *)
Definition simplify_step (st : t) : result (option t) :=
  match unsnoc (views st) with
  | Some (below, v1) =>
      match unsnoc below with
      | Some (rest, IsView v2) =>
          if vt_offset v1 =? 0 then
            new_strides <- probe v2 (combine (vt_shape v1) (vt_strides v1)) [] ;;
            if Nat.eqb (List.length new_strides) (List.length (vt_strides v1))
            then v <- View.init (vt_shape v1) new_strides 0 ;;
                 Ok (Some (mk (rest ++ [IsView v])))
            else Ok None
          else Ok None
      | _ => Ok None
      end
  | None => Ok None
  end.

(** [simplify] with a bound [depth] on the nesting of its self-calls; [None]
    is "the bound was reached". *)
Fixpoint simplify (depth : nat) (st : t) : option (result t) :=
  match simplify_step st with
  | Raise e => Some (Raise e)
  | Ok None => Some (Ok st)
  | Ok (Some st') =>
      match depth with
      | O => None
      | S depth' => simplify depth' st'
      end
  end.

Fixpoint list_eqb (a b : list Z) : bool :=
  match a, b with
  | [], [] => true
  | x :: a', y :: b' => (x =? y) && list_eqb a' b'
  | _, _ => false
  end.

(** [old_strides.pop(0)] for each entry of [new_shape] that is not 1. *)
Fixpoint reshape_ones (new_shape old_strides : list Z) : result (list Z) :=
  match new_shape with
  | [] => Ok []
  | x :: rest =>
      if x =? 1 then l <- reshape_ones rest old_strides ;; Ok (0 :: l)
      else match old_strides with
           | [] => Raise IndexError
           | y :: old' => l <- reshape_ones rest old' ;; Ok (y :: l)
           end
  end.

(** The factorization loop of [reshape] over [new_shape]; the inner [while]
    gives stride 1 to the entries left over, which must all be 1. *)
Fixpoint reshape_loop (new_shape : list Z) (curr_dim curr_stride : Z)
         (min_shape_strides : list (Z * Z)) (new_strides : list Z)
  : result (list Z) :=
  match new_shape with
  | [] => Ok new_strides
  | s :: rest =>
      if curr_dim mod s =? 0 then
        let curr_dim := curr_dim / s in
        let new_strides := new_strides ++ [curr_stride * curr_dim] in
        if curr_dim =? 1 then
          match min_shape_strides with
          | [] =>
              _ <- assert (forallb (fun x => x =? 1) rest) ;;
              Ok (new_strides ++ map (fun _ => 1) rest)
          | (d, st) :: mss => reshape_loop rest d st mss new_strides
          end
        else reshape_loop rest curr_dim curr_stride min_shape_strides new_strides
      else Ok new_strides
  end.

Definition reshape (st : t) (new_shape : list Z) : result t :=
  sh <- shape st ;;
  if list_eqb sh new_shape then Ok st else
  _ <- assert (forallb (fun x => negb (x =? 0)) new_shape) ;;
  _ <- assert (prod sh =? prod new_shape) ;;
  sts <- strides st ;;
  off <- offset st ;;
  let not_one := fun x : Z => negb (x =? 1) in
  if list_eqb (filter not_one sh) (filter not_one new_shape) then
    let old_strides :=
      map snd (filter (fun '(x, _) => not_one x) (combine sh sts)) in
    new_strides <- reshape_ones new_shape old_strides ;;
    v <- View.init new_shape new_strides off ;;
    set_top st (IsView v)
  else
    min_shape_strides <- to_shape_strides sh sts ;;
    match min_shape_strides with
    | [] => Raise IndexError
    | (curr_dim, curr_stride) :: mss =>
        new_strides <- reshape_loop new_shape curr_dim curr_stride mss [] ;;
        if Nat.eqb (List.length new_shape) (List.length new_strides) then
          v <- View.init new_shape new_strides off ;;
          set_top st (IsView v)
        else
          view <- View.init new_shape (strides_for_shape new_shape) 0 ;;
          c <- contiguous st ;;
          if c then set_top st (IsView view)
          else Ok (mk (views st ++ [IsView view]))
    end.

Fixpoint distinct (l : list Z) : bool :=
  match l with
  | [] => true
  | x :: r => negb (existsb (Z.eqb x) r) && distinct r
  end.

(** [tuple(l[a] for a in axis)]. *)
Fixpoint gather (l : list Z) (axis : list Z) : result (list Z) :=
  match axis with
  | [] => Ok []
  | a :: r => x <- index l (Z.to_nat a) ;; xs <- gather l r ;; Ok (x :: xs)
  end.

Definition permute (st : t) (axis : list Z) : result t :=
  sh <- shape st ;;
  _ <- assert (forallb (fun x => (0 <=? x) && (x <? Z.of_nat (List.length sh))) axis) ;;
  _ <- assert (distinct axis && Nat.eqb (List.length axis) (List.length sh)) ;;
  sts <- strides st ;;
  off <- offset st ;;
  sh' <- gather sh axis ;;
  sts' <- gather sts axis ;;
  v <- View.init sh' sts' off ;;
  set_top st (IsView v).

Definition shrink (st : t) (arg : list (Z * Z)) : result t :=
  sh <- shape st ;;
  _ <- assert (Nat.eqb (List.length arg) (List.length sh)) ;;
  sts <- strides st ;;
  off <- offset st ;;
  terms <- fold_right (fun '(i, (x, _)) acc =>
                         s <- index sts i ;; l <- acc ;; Ok (s * x :: l))
                      (Ok []) (combine (seq 0 (List.length arg)) arg) ;;
  let zeroview := ZeroView.init sh arg in
  v <- View.init (map (fun '(x, y) => y - x) arg) sts (off + Zsum terms) ;;
  st1 <- set_top st (IsView v) ;;
  guard <- ZeroView.expr_node zeroview None None ;;
  if Symbolic.min guard =? 0 then
    sh1 <- shape st1 ;;
    v' <- View.init sh1 (strides_for_shape sh1) 0 ;;
    Ok (mk (views st1 ++ [IsZeroView zeroview; IsView v']))
  else Ok st1.

Definition pad (st : t) (arg : list (Z * Z)) : result t :=
  sh <- shape st ;;
  _ <- assert (forallb (fun '(b, e) => (0 <=? b) && (0 <=? e)) arg
               && Nat.eqb (List.length arg) (List.length sh)) ;;
  shrink st (map (fun '(s, (b, e)) => (- b, s + e)) (combine sh arg)).

Definition expand (st : t) (new_shape : list Z) : result t :=
  sh <- shape st ;;
  _ <- assert (forallb (fun '(x, y) => (x =? y) || (x =? 1)) (combine sh new_shape)) ;;
  sts <- strides st ;;
  off <- offset st ;;
  v <- View.init new_shape
         (map (fun '(s, (x, y)) => if x =? y then s else 0)
              (combine sts (combine sh new_shape)))
         off ;;
  set_top st (IsView v).

Definition stride (st : t) (mul : list Z) : result t :=
  sh <- shape st ;;
  sts <- strides st ;;
  off <- offset st ;;
  let strides' := map (fun '(z, m) => z * m) (combine sts mul) in
  _ <- (if existsb (fun '(_, m) => m =? 0) (combine sh mul)
        then Raise ZeroDivisionError else Ok tt) ;;
  let new_shape :=
    map (fun '(s, m) => (s + (Z.abs m - 1)) / Z.abs m) (combine sh mul) in
  let offset' :=
    Zsum (map (fun '(s, z, _) => (s - 1) * z)
              (filter (fun '(_, _, m) => m <? 0) (zip3 sh sts mul))) in
  v <- View.init new_shape strides' (off + offset') ;;
  set_top st (IsView v).

Definition flip (st : t) (axis : list Z) : result t :=
  sh <- shape st ;;
  stride st (map (fun i => if existsb (Z.eqb (Z.of_nat i)) axis then -1 else 1)
                 (seq 0 (List.length sh))).

(** [strided] takes one (size, stride) pair per dimension; the top view is
    replaced when it is contiguous, and kept under the new one otherwise. *)
Definition strided (st : t) (arg : list (Z * Z)) : result t :=
  view <- View.init (map fst arg) (map snd arg) 0 ;;
  v <- top st ;;
  if vt_contiguous v then set_top st (IsView view)
  else Ok (mk (views st ++ [IsView view])).

End ShapeTracker.

(** ** Assignments, well-formed trackers and the reference walk *)

(** An assignment respects an expression when every variable in it lies
    within its declared inclusive bounds; division and modulo nodes have the
    positive divisor their constructors insist on. *)
Fixpoint respects (env : string -> Z) (e : Node) : bool :=
  match e with
  | NumNode _ => true
  | VarNode x lo hi => (lo <=? env x) && (env x <=? hi)
  | MulNode a _ => respects env a
  | DivNode a b => respects env a && (0 <? b)
  | ModNode a b => respects env a && (0 <? b)
  | SumNode xs => forallb (respects env) xs
  | AndNode xs => forallb (respects env) xs
  | LtNode a _ => respects env a
  | GeNode a _ => respects env a
  end.

(** The data model of the spec: every entry of a shape is at least 1, and a
    view is one that its constructor built. *)
Definition positive_shape (shape : list Z) : Prop := Forall (fun d => 1 <= d) shape.

Definition View_wf (v : View.t) : Prop :=
  positive_shape (View.shape v)
  /\ View.init (View.shape v) (View.strides v) (View.offset v) = Ok v.

Definition ZeroView_wf (z : ZeroView.t) : Prop :=
  positive_shape (ZeroView.shape z)
  /\ ZeroView.init (ZeroView.old_shape z) (ZeroView.arg z) = z.

Definition ViewTypes_wf (v : ViewTypes) : Prop :=
  match v with
  | IsView v => View_wf v
  | IsZeroView z => ZeroView_wf z
  end.

(** The views are non-empty and the last one is a View. *)
Definition ShapeTracker_wf (st : ShapeTracker.t) : Prop :=
  Forall ViewTypes_wf (ShapeTracker.views st)
  /\ exists below v, ShapeTracker.views st = below ++ [IsView v].

(** The map of one view on a concrete linear index: every merged dimension
    contributes, from the fastest-varying one. *)
Fixpoint linear_terms (i : Z) (dims : list (Z * Z)) (acc : Z) : Z :=
  match dims with
  | [] => 0
  | (d, s) :: r => ((i / acc) mod d) * s + linear_terms i r (acc * d)
  end.

Definition View_at (v : View.t) (i : Z) : Z :=
  View.offset v + linear_terms i (rev (View.shape_strides v)) 1.

(** The naive walk over the earlier views, second-to-top first: a View maps
    the index, a ZeroView leaves it as it is. *)
Fixpoint walk (vs : list ViewTypes) (i : Z) : Z :=
  match vs with
  | [] => i
  | IsView v :: r => walk r (View_at v i)
  | IsZeroView _ :: r => walk r i
  end.

(** The buffer offset of the naive multi-view walk at concrete per-dimension
    indices [vals]: the affine map of the top view, then [walk]. *)
Definition naive_offset (st : ShapeTracker.t) (offset0 : Z) (vals : list Z)
  : result Z :=
  v <- ShapeTracker.top st ;;
  Ok (walk (rev (removelast (ShapeTracker.views st)))
           (ShapeTracker.vt_offset v + offset0
            + Zsum (map (fun '(i, _, st) => i * st)
                        (zip3 vals (ShapeTracker.vt_shape v)
                              (ShapeTracker.vt_strides v))))).

(** The names [expr_idxs] gives the index variables. *)
Definition idx_names (idxs : option (list string)) (rank : nat) : list string :=
  match idxs with
  | None => map ShapeTracker.idx_name (seq 0 rank)
  | Some l => l
  end.

(** Every index variable is assigned a value in [0, shape[i]-1]. *)
Definition within_shape (env : string -> Z) (names : list string) (shape : list Z)
  : Prop :=
  Forall (fun '(x, sh) => 0 <= env x <= sh - 1) (combine names shape).

(** The assignment that gives the i-th of [names] the value [vals[i]] and 0
    to every other name. *)
Fixpoint assign (names : list string) (vals : list Z) (x : string) : Z :=
  match names, vals with
  | n :: ns, v :: vs => if String.eqb x n then v else assign ns vs x
  | _, _ => 0
  end.

(** The names that can carry a multi-index: the default ones, or names given
    by the caller that are pairwise distinct, one per dimension. *)
Definition named_dimensions (idxs : option (list string)) (sh : list Z) : Prop :=
  match idxs with
  | None => True
  | Some names => NoDup names /\ List.length names = List.length sh
  end.

(** [ceil(a / b)] as the spec writes it, for [b > 0]. *)
Definition ceil_div (a b : Z) : Z := - ((- a) / b).

(** ** Vocabulary of the statements *)

(** Every merged dimension of a view has a positive size. *)
Definition positive_dims (dims : list (Z * Z)) : Prop :=
  Forall (fun p => 0 < fst p) dims.

(** The value of a list of (expression, coefficient) pairs, as [sum] groups
    its summands, and whether an assignment respects all of them. *)
Definition terms_value (env : string -> Z) (ts : list (Node * Z)) : Z :=
  Zsum (map (fun t => eval env (fst t) * snd t) ts).

Definition terms_respected (env : string -> Z) (ts : list (Node * Z)) : bool :=
  forallb (fun t => respects env (fst t)) ts.

(** *** shrink and pad *)

(** The shape [(hi_i - lo_i, ...)] of the windows [arg], and the sum of
    [strides[i] * lo_i] that [shrink] adds to the offset. *)
Definition window_shape (arg : list (Z * Z)) : list Z :=
  map (fun '(x, y) => y - x) arg.

Definition window_offset (strides : list Z) (arg : list (Z * Z)) : Z :=
  Zsum (map (fun '(s, (x, _)) => s * x) (combine strides arg)).

(** Every window has [lo_i < hi_i]. *)
Definition nonempty_windows (arg : list (Z * Z)) : Prop :=
  Forall (fun p => fst p < snd p) arg.

(** Every window is non-empty and within the old extent:
    [0 <= lo_i < hi_i <= shape[i]]. *)
Definition in_range (shape : list Z) (arg : list (Z * Z)) : Prop :=
  Forall (fun p => 0 <= fst (snd p) /\ fst (snd p) < snd (snd p)
                   /\ snd (snd p) <= fst p)
         (combine shape arg).

(** Some window leaves the old extent: [lo_i < 0] or [hi_i > shape[i]]. *)
Definition out_of_range (shape : list Z) (arg : list (Z * Z)) : Prop :=
  Exists (fun p => fst (snd p) < 0 \/ fst p < snd (snd p)) (combine shape arg).

(** C3 as the spec states it: windows [0 <= lo_i <= hi_i <= shape[i]], the
    strides unchanged. *)
Definition shrink_claim_as_stated (st : ShapeTracker.t) (arg : list (Z * Z)) : Prop :=
  forall sh sts off,
    ShapeTracker.shape st = Ok sh ->
    ShapeTracker.strides st = Ok sts ->
    ShapeTracker.offset st = Ok off ->
    List.length arg = List.length sh ->
    Forall (fun p => 0 <= fst (snd p) <= snd (snd p) /\ snd (snd p) <= fst p)
           (combine sh arg) ->
    exists st',
      ShapeTracker.shrink st arg = Ok st'
      /\ ShapeTracker.shape st' = Ok (window_shape arg)
      /\ ShapeTracker.strides st' = Ok sts
      /\ ShapeTracker.offset st' = Ok (off + window_offset sts arg)
      /\ List.length (ShapeTracker.views st') = List.length (ShapeTracker.views st)
      /\ ShapeTracker.needs_valid st' = ShapeTracker.needs_valid st.

(** C4 as the spec states it: bounds out of range raise a fatal assertion. *)
Definition shrink_rejects_as_stated (st : ShapeTracker.t) (arg : list (Z * Z)) : Prop :=
  forall sh,
    ShapeTracker.shape st = Ok sh ->
    List.length arg = List.length sh ->
    out_of_range sh arg ->
    ShapeTracker.shrink st arg = Raise AssertionError.

(** The checks that a ZeroView adds when the bounds do not prove them: a
    comparison, or the constant 0 when the bounds refute it. *)
Definition is_guard (c : Node) : bool :=
  match c with
  | NumNode b => b =? 0
  | GeNode _ _ => true
  | LtNode _ _ => true
  | _ => false
  end.

(** The triples [(s, ns, (x, y))] that the loop of [ZeroView.expr_node] runs
    over: [ns = y - x] is positive; a triple pads when [x < 0] or [y > s]. *)
Definition window_dims (dims : list (Z * Z * (Z * Z))) : Prop :=
  Forall (fun p => 0 < snd (fst p) /\ snd (fst p) = snd (snd p) - fst (snd p)) dims.

Definition pads (p : Z * Z * (Z * Z)) : Prop :=
  fst (snd p) < 0 \/ fst (fst p) < snd (snd p).

(** The bounds [((-before_i, shape[i] + after_i), ...)] that [pad] hands to
    [shrink], and the padded shape [(before_i + shape[i] + after_i, ...)]. *)
Definition pad_bounds (sh : list Z) (arg : list (Z * Z)) : list (Z * Z) :=
  map (fun '(s, (b, e)) => (- b, s + e)) (combine sh arg).

Definition padded_shape (sh : list Z) (arg : list (Z * Z)) : list Z :=
  map (fun '(s, (b, e)) => b + s + e) (combine sh arg).

Definition nonnegative_pads (arg : list (Z * Z)) : Prop :=
  Forall (fun p => 0 <= fst p /\ 0 <= snd p) arg.

Definition some_positive_pad (arg : list (Z * Z)) : Prop :=
  Exists (fun p => 0 < fst p \/ 0 < snd p) arg.

(** *** stride and flip *)

(** The three arguments that [stride] hands to the constructor of the new
    view, as the source computes them. *)
Definition stride_shape (sh mul : list Z) : list Z :=
  map (fun '(s, m) => (s + (Z.abs m - 1)) / Z.abs m) (combine sh mul).

Definition stride_strides (sts mul : list Z) : list Z :=
  map (fun '(z, m) => z * m) (combine sts mul).

Definition stride_offset (sh sts mul : list Z) : Z :=
  Zsum (map (fun '(s, z, _) => (s - 1) * z)
            (filter (fun '(_, _, m) => m <? 0) (zip3 sh sts mul))).

Definition nonzero (mul : list Z) : Prop := Forall (fun m => m <> 0) mul.

(** C6 as the spec states it: the new strides are the old ones times [mul],
    in every dimension. *)
Definition stride_claim_as_stated (st : ShapeTracker.t) (mul : list Z) : Prop :=
  forall sh sts off,
    ShapeTracker.shape st = Ok sh ->
    ShapeTracker.strides st = Ok sts ->
    ShapeTracker.offset st = Ok off ->
    List.length mul = List.length sh ->
    nonzero mul ->
    exists st',
      ShapeTracker.stride st mul = Ok st'
      /\ ShapeTracker.shape st'
         = Ok (map (fun '(s, m) => ceil_div s (Z.abs m)) (combine sh mul))
      /\ ShapeTracker.strides st' = Ok (stride_strides sts mul)
      /\ ShapeTracker.offset st' = Ok (off + stride_offset sh sts mul).

(** Multipliers that are all 1 or -1, and the ones [flip] builds. *)
Definition units (mul : list Z) : Prop := Forall (fun m => m = 1 \/ m = -1) mul.

Definition flip_mul (axis : list Z) (rank : nat) : list Z :=
  map (fun i => if existsb (Z.eqb (Z.of_nat i)) axis then -1 else 1) (seq 0 rank).

(** *** expand *)

(** Every entry of [new_shape] equals the current dimension it meets, or
    meets a dimension of size 1; the strides [expand] hands to the
    constructor. *)
Definition expandable (sh new_shape : list Z) : Prop :=
  Forall (fun p => fst p = snd p \/ fst p = 1) (combine sh new_shape).

Definition expand_strides (sts sh new_shape : list Z) : list Z :=
  map (fun '(s, (x, y)) => if x =? y then s else 0)
      (combine sts (combine sh new_shape)).

(** ** The trackers of the examples *)

(** [new((2,))], [new((3,))] and [new((2,3,4))]. *)
Definition flat2 : ShapeTracker.t :=
  ShapeTracker.mk [IsView (View.mk [2] [1] 0 [(2, 1)] true)].

Definition flat3 : ShapeTracker.t :=
  ShapeTracker.mk [IsView (View.mk [3] [1] 0 [(3, 1)] true)].

Definition flat234 : ShapeTracker.t :=
  ShapeTracker.mk
    [IsView (View.mk [2; 3; 4] [12; 4; 1] 0 [(24, 1)] true)].

(** [new((2,3)).permute((1,0))]: shape (3,2), strides (1,3). *)
Definition transposed23 : ShapeTracker.t :=
  ShapeTracker.mk [IsView (View.mk [3; 2] [1; 3] 0 [(3, 1); (2, 3)] false)].

(** A transposed 4x4 view under a flat view of 16 elements: the stack that
    [new((4,4)).permute((1,0)).reshape((16,))] leaves. *)
Definition transposed_flat : ShapeTracker.t :=
  ShapeTracker.mk
    [IsView (View.mk [4; 4] [1; 4] 0 [(4, 1); (4, 4)] false);
     IsView (View.mk [16] [1] 0 [(16, 1)] true)].

(** The assignment that gives every variable the value [n]. *)
Definition idx0_is (n : Z) : string -> Z := fun _ => n.

(** A broadcast 4x4 view under a flat view of two elements, and the one view
    of stride 0 that [simplify] folds them into. *)
Definition broadcast_pair : ShapeTracker.t :=
  ShapeTracker.mk
    [IsView (View.mk [4; 4] [1; 0] 0 [(4, 1); (4, 0)] false);
     IsView (View.mk [2] [1] 0 [(2, 1)] true)].

Definition broadcast_folded : ShapeTracker.t :=
  ShapeTracker.mk [IsView (View.mk [2] [0] 0 [(2, 0)] false)].

(** A transposed 4x4 tensor, its rows 1..3, flattened (which pushes a second
    view), its first element, as a scalar: a rank-0 view over a view with
    offset 1.  [scalar_stack] is the tracker these operations leave and
    [scalar_simplified] what [simplify] makes of it. *)
Definition scalar_of_window : result ShapeTracker.t :=
  st <- ShapeTracker.new [4; 4] ;;
  st <- ShapeTracker.permute st [1; 0] ;;
  st <- ShapeTracker.shrink st [(1, 4); (0, 4)] ;;
  st <- ShapeTracker.reshape st [12] ;;
  st <- ShapeTracker.shrink st [(0, 1)] ;;
  ShapeTracker.reshape st [].

Definition scalar_stack : ShapeTracker.t :=
  ShapeTracker.mk
    [IsView (View.mk [3; 4] [1; 4] 1 [(3, 1); (4, 4)] false);
     IsView (View.mk [] [] 0 [] true)].

Definition scalar_simplified : ShapeTracker.t :=
  ShapeTracker.mk [IsView (View.mk [] [] 0 [] true)].

(** A top view whose strides overlap, over a broadcast view: each dimension
    alone stays below the first digit of the view below, both together carry
    into it. *)
Definition overlapping_pair : ShapeTracker.t :=
  ShapeTracker.mk
    [IsView (View.mk [4; 4] [1; 0] 0 [(4, 1); (4, 0)] false);
     IsView (View.mk [2; 2] [2; 3] 0 [(2, 2); (2, 3)] false)].

Definition overlapping_folded : ShapeTracker.t :=
  ShapeTracker.mk [IsView (View.mk [2; 2] [0; 0] 0 [(4, 0)] false)].

(** ** Vocabulary of the further properties *)

(** The number of elements that a list of (size, stride) pairs spans. *)
Definition dims_size (dims : list (Z * Z)) : Z := prod (map fst dims).

(** The buffer offset (without the view's own offset) of a linear index, read
    digit by digit in the mixed radix of a list of (size, stride) pairs, the
    slowest-varying digit first. *)
Fixpoint digits_value (dims : list (Z * Z)) (i : Z) : Z :=
  match dims with
  | [] => 0
  | (d, s) :: r => ((i / dims_size r) mod d) * s + digits_value r i
  end.

(** The row-major linear index of a multi-index. *)
Fixpoint ravel (shape idxs : list Z) : Z :=
  match shape, idxs with
  | d :: ds, x :: xs => x * prod ds + ravel ds xs
  | _, _ => 0
  end.

(** A multi-index with [0 <= idxs[i] < shape[i]] in every dimension. *)
Definition multi_index (shape idxs : list Z) : Prop :=
  List.length idxs = List.length shape
  /\ Forall (fun p => 0 <= fst p < snd p) (combine idxs shape).

(** The affine map of a view on a multi-index: [sum(idxs[i] * strides[i])]. *)
Definition affine (strides idxs : list Z) : Z :=
  Zsum (map (fun p => fst p * snd p) (combine idxs strides)).

(** The view of [new((2,3)).permute((1,0))]: shape (3,2), strides (1,3). *)
Definition transposed23_view : View.t :=
  View.mk [3; 2] [1; 3] 0 [(3, 1); (2, 3)] false.

(** The assignment with [a = 2] and [b = 1]. *)
Definition a2_b1 : string -> Z := fun x => if String.eqb x "a" then 2 else 1.

(** The products of the suffixes of a shape, the whole shape first and the
    empty product last. *)
Fixpoint suffix_products (shape : list Z) : list Z :=
  match shape with
  | [] => [1]
  | d :: ds => prod (d :: ds) :: suffix_products ds
  end.

(** The row-major strides of a shape: for each dimension the product of the
    sizes of the later ones. *)
Definition row_major (shape : list Z) : list Z := tl (suffix_products shape).

(** A node is true under an assignment when its value is not 0. *)
Definition truth (env : string -> Z) (e : Node) : bool := negb (eval env e =? 0).

(** The nodes that the predicate constructors build: the constants 0 and 1,
    comparisons, and conjunctions of such. *)
Fixpoint predicate (e : Node) : bool :=
  match e with
  | NumNode b => (b =? 0) || (b =? 1)
  | LtNode _ _ => true
  | GeNode _ _ => true
  | AndNode xs => forallb predicate xs
  | _ => false
  end.

(** The test that a ZeroView stands for, on a concrete linear index: in every
    dimension the coordinate, moved by the lower bound of the window, falls
    inside the old extent. *)
Fixpoint inside_dims (i : Z) (dims : list (Z * Z * (Z * Z))) (acc : Z) : bool :=
  match dims with
  | [] => true
  | (s, ns, (x, _)) :: r =>
      let base := (i / acc) mod ns + x in
      (0 <=? base) && (base <? s) && inside_dims i r (acc * ns)
  end.

Definition inside (z : ZeroView.t) (i : Z) : bool :=
  inside_dims i (rev (zip3 (ZeroView.old_shape z) (ZeroView.shape z) (ZeroView.arg z))) 1.

(** The value of an optional incoming validity: none is true. *)
Definition truth_of (env : string -> Z) (valid : option Node) : bool :=
  match valid with
  | Some v => truth env v
  | None => true
  end.

Definition good_valid (env : string -> Z) (valid : option Node) : Prop :=
  match valid with
  | Some v => predicate v = true /\ respects env v = true
  | None => True
  end.

(** The ZeroView of [new((3,)).pad(((1,1),))]. *)
Definition padded3_zeroview : ZeroView.t := ZeroView.init [3] [(-1, 4)].

(** The validity of the naive walk over the earlier views: a ZeroView tests
    the index it is handed, a View maps the index on. *)
Fixpoint walk_valid (vs : list ViewTypes) (i : Z) (ok : bool) : bool :=
  match vs with
  | [] => ok
  | IsView v :: r => walk_valid r (View_at v i) ok
  | IsZeroView z :: r => walk_valid r i (ok && inside z i)
  end.

(** The validity of the naive multi-view walk at concrete per-dimension
    indices. *)
Definition naive_valid (st : ShapeTracker.t) (offset0 : Z) (vals : list Z)
  : result bool :=
  v <- ShapeTracker.top st ;;
  Ok (walk_valid (rev (removelast (ShapeTracker.views st)))
                 (ShapeTracker.vt_offset v + offset0
                  + Zsum (map (fun '(i, _, st) => i * st)
                              (zip3 vals (ShapeTracker.vt_shape v)
                                    (ShapeTracker.vt_strides v))))
                 true).

(** [new((2,3)).pad(((0,1),(1,1)))]. *)
Definition padded35 : ShapeTracker.t :=
  ShapeTracker.mk
    [IsView (View.mk [3; 5] [3; 1] (-1) [(3, 3); (5, 1)] false);
     IsZeroView (ZeroView.init [2; 3] [(0, 3); (-1, 4)]);
     IsView (View.mk [3; 5] [5; 1] 0 [(15, 1)] true)].

(** The assignment with [idx = 5], [a = 2] and [b = 1]. *)
Definition idx5_a2_b1 : string -> Z :=
  fun x => if String.eqb x "idx" then 5 else if String.eqb x "a" then 2 else 1.

(** The multi-index of the old view that [stride(mul)] reads at a multi-index
    of the new one: [v * m] from the low end, or from the high end
    [s - 1 + v * m] when [m] is negative. *)
Definition stride_source (sh mul vals : list Z) : list Z :=
  map (fun '(s, m, v) => if m <? 0 then s - 1 + v * m else v * m) (zip3 sh mul vals).

(** The multi-index of the old view that [shrink(arg)] reads at a multi-index
    of the window: moved by the lower bounds. *)
Definition shift (vals : list Z) (arg : list (Z * Z)) : list Z :=
  map (fun '(v, (x, _)) => v + x) (combine vals arg).

(** Whether a multi-index lies within a shape, as a boolean. *)
Definition within (shape idxs : list Z) : bool :=
  forallb (fun '(s, v) => (0 <=? v) && (v <? s)) (combine shape idxs).

(** The number of elements of the windows of a list of ZeroView triples. *)
Definition windows_size (dims : list (Z * Z * (Z * Z))) : Z :=
  prod (map (fun p => snd (fst p)) dims).

(** [inside_dims] read digit by digit, the slowest-varying dimension first. *)
Fixpoint inside_digits (dims : list (Z * Z * (Z * Z))) (i : Z) : bool :=
  match dims with
  | [] => true
  | (s, ns, (x, _)) :: r =>
      let base := (i / windows_size r) mod ns + x in
      (0 <=? base) && (base <? s) && inside_digits r i
  end.

(** The index [vals[i] - before_i] of the source element of a padded index. *)
Definition unpad (vals : list Z) (arg : list (Z * Z)) : list Z :=
  map (fun '(v, (b, _)) => v - b) (combine vals arg).

(** The windows [(before_i, before_i + shape[i])] that cut a pad away. *)
Definition unpad_bounds (sh : list Z) (arg : list (Z * Z)) : list (Z * Z) :=
  map (fun '(s, (b, _)) => (b, b + s)) (combine sh arg).

(** The arguments that ask for no change: the windows [(0, shape[i])], the
    pads [(0, 0)], the multipliers 1 and the axes [0 .. n-1]. *)
Definition full_windows (sh : list Z) : list (Z * Z) := map (fun s => (0, s)) sh.

Definition no_pads (sh : list Z) : list (Z * Z) := map (fun _ => (0, 0)) sh.

Definition ones (sh : list Z) : list Z := map (fun _ => 1) sh.

Definition identity_axes (rank : nat) : list Z := map Z.of_nat (seq 0 rank).

(** The axes [permute] accepts: a rearrangement of [0 .. rank-1]. *)
Definition permutation_axes (rank : nat) (axis : list Z) : Prop :=
  Forall (fun a => 0 <= a < Z.of_nat rank) axis
  /\ NoDup axis
  /\ List.length axis = rank.

(** [tuple(l[a] for a in axis)] for axes known to be in range. *)
Definition pick (l : list Z) (axis : list Z) : list Z :=
  map (fun a => nth (Z.to_nat a) l 0) axis.

(** The index of the source element under [expand]: a broadcast dimension is
    read at 0, the others at the index given. *)
Definition collapse (sh new_shape vals : list Z) : list Z :=
  map (fun '(v, (x, y)) => if x =? y then v else 0)
      (combine vals (combine sh new_shape)).

(** [new((3,1))]. *)
Definition column3 : ShapeTracker.t :=
  ShapeTracker.mk [IsView (View.mk [3; 1] [1; 0] 0 [(3, 1); (1, 0)] true)].

(** The multi-index of the old view that [flip(axis)] reads at a multi-index
    of the new one: counted from the high end on the axes listed. *)
Definition mirror (sh axis vals : list Z) : list Z :=
  map (fun '(i, (s, v)) =>
         if existsb (Z.eqb (Z.of_nat i)) axis then s - 1 - v else v)
      (combine (seq 0 (List.length sh)) (combine sh vals)).

(** * Properties *)

(** ** The expression algebra *)

(** Induction over expressions, with the hypothesis for every child of a sum
    or a conjunction. *)
Lemma Node_ind (P : Node -> Prop) :
  (forall b, P (NumNode b)) ->
  (forall x lo hi, P (VarNode x lo hi)) ->
  (forall a b, P a -> P (MulNode a b)) ->
  (forall a b, P a -> P (DivNode a b)) ->
  (forall a b, P a -> P (ModNode a b)) ->
  (forall xs, Forall P xs -> P (SumNode xs)) ->
  (forall xs, Forall P xs -> P (AndNode xs)) ->
  (forall a b, P a -> P (LtNode a b)) ->
  (forall a b, P a -> P (GeNode a b)) ->
  forall e, P e.
Proof.
  intros HNum HVar HMul HDiv HMod HSum HAnd HLt HGe.
  fix IH 1. intros [b|x lo hi|a b|a b|a b|xs|xs|a b|a b].
  - apply HNum.
  - apply HVar.
  - apply HMul, IH.
  - apply HDiv, IH.
  - apply HMod, IH.
  - apply HSum. induction xs as [|x xs IHxs]; constructor; [apply IH | exact IHxs].
  - apply HAnd. induction xs as [|x xs IHxs]; constructor; [apply IH | exact IHxs].
  - apply HLt, IH.
  - apply HGe, IH.
Qed.

Lemma Zsum_app (l1 l2 : list Z) : Zsum (l1 ++ l2) = Zsum l1 + Zsum l2.
Proof. induction l1 as [|x l1 IH]; simpl; [reflexivity | rewrite IH; lia]. Qed.

Lemma eqb_eq (x y : Node) : Symbolic.eqb x y = true -> x = y.
Proof.
  revert y. induction x using Node_ind; intros y E; destruct y; simpl in E;
    try discriminate.
  - apply Z.eqb_eq in E. congruence.
  - apply andb_prop in E as [E E3]. apply andb_prop in E as [E1 E2].
    apply String.eqb_eq in E1. apply Z.eqb_eq in E2, E3. congruence.
  - apply andb_prop in E as [E1 E2]. apply Z.eqb_eq in E2.
    rewrite (IHx _ E1). congruence.
  - apply andb_prop in E as [E1 E2]. apply Z.eqb_eq in E2.
    rewrite (IHx _ E1). congruence.
  - apply andb_prop in E as [E1 E2]. apply Z.eqb_eq in E2.
    rewrite (IHx _ E1). congruence.
  - f_equal. revert nodes E. induction H as [|a xs Ha Hxs IH]; intros [|b ys] E;
      try discriminate; [reflexivity|].
    apply andb_prop in E as [E1 E2]. rewrite (Ha _ E1), (IH _ E2). reflexivity.
  - f_equal. revert nodes E. induction H as [|a xs Ha Hxs IH]; intros [|b ys] E;
      try discriminate; [reflexivity|].
    apply andb_prop in E as [E1 E2]. rewrite (Ha _ E1), (IH _ E2). reflexivity.
  - apply andb_prop in E as [E1 E2]. apply Z.eqb_eq in E2.
    rewrite (IHx _ E1). congruence.
  - apply andb_prop in E as [E1 E2]. apply Z.eqb_eq in E2.
    rewrite (IHx _ E1). congruence.
Qed.
Lemma bounds_sound (env : string -> Z) (e : Node) :
  respects env e = true ->
  Symbolic.min e <= eval env e <= Symbolic.max e.
Proof.
  unfold Symbolic.min, Symbolic.max.
  induction e using Node_ind; simpl; intros R.
  - lia.
  - apply andb_prop in R as [R1 R2]. lia.
  - specialize (IHe R). destruct (bounds e) as [l h]; simpl in *.
    destruct (0 <=? b) eqn:Hb; simpl; nia.
  - apply andb_prop in R as [R Hb]. apply Z.ltb_lt in Hb.
    specialize (IHe R). destruct (bounds e) as [l h]; simpl in *.
    split; apply Z.div_le_mono; lia.
  - apply andb_prop in R as [R Hb]. apply Z.ltb_lt in Hb.
    pose proof (Z.mod_pos_bound (eval env e) b Hb). lia.
  - induction H as [|x xs Hx Hxs IH]; simpl in *; [lia|].
    apply andb_prop in R as [R1 R2]. specialize (Hx R1). specialize (IH R2).
    lia.
  - destruct (forallb (fun x => negb (eval env x =? 0)) xs); lia.
  - destruct (_ <? _); lia.
  - destruct (_ <=? _); lia.
Qed.

Lemma flatten_sound (env : string -> Z) (e : Node) :
  respects env e = true ->
  forallb (respects env) (flatten e) = true
  /\ Zsum (map (eval env) (flatten e)) = eval env e.
Proof.
  induction e using Node_ind; simpl; intros R;
    try (split; [try rewrite R; reflexivity | lia]).
  induction H as [|x xs Hx Hxs IH]; simpl in *; [split; reflexivity|].
  apply andb_prop in R as [R1 R2].
  destruct (Hx R1) as [A1 A2]. destruct (IH R2) as [B1 B2].
  rewrite forallb_app, map_app, Zsum_app, A1, B1, A2, B2. split; reflexivity.
Qed.

Lemma flat_map_flatten_sound (env : string -> Z) (xs : list Node) :
  forallb (respects env) xs = true ->
  forallb (respects env) (flat_map flatten xs) = true
  /\ Zsum (map (eval env) (flat_map flatten xs)) = Zsum (map (eval env) xs).
Proof.
  induction xs as [|x xs IH]; simpl; intros R; [split; reflexivity|].
  apply andb_prop in R as [R1 R2].
  destruct (flatten_sound env x R1) as [A1 A2]. destruct (IH R2) as [B1 B2].
  rewrite forallb_app, map_app, Zsum_app, A1, B1, A2, B2. split; reflexivity.
Qed.

Lemma add_term_sound (env : string -> Z) (a : Node) (c : Z) (ts : list (Node * Z)) :
  respects env a = true -> terms_respected env ts = true ->
  terms_respected env (add_term a c ts) = true
  /\ terms_value env (add_term a c ts) = terms_value env ts + eval env a * c.
Proof.
  intros Ra. induction ts as [|[a' c'] ts IH]; simpl; intros Rt.
  - rewrite Ra. split; [reflexivity | unfold terms_value; simpl; lia].
  - apply andb_prop in Rt as [R1 R2]. simpl in R1.
    destruct (Symbolic.eqb a a') eqn:E.
    + apply eqb_eq in E. subst a'. simpl. rewrite R1, R2.
      split; [reflexivity | unfold terms_value; simpl; lia].
    + destruct (IH R2) as [B1 B2]. simpl. rewrite R1, B1.
      split; [reflexivity|]. unfold terms_value in *. simpl. rewrite B2. lia.
Qed.

Lemma term_of_sound (env : string -> Z) (x : Node) :
  respects env x = true ->
  respects env (fst (term_of x)) = true
  /\ eval env (fst (term_of x)) * snd (term_of x) = eval env x.
Proof.
  destruct x; simpl; intros R; split; try assumption; lia.
Qed.

Lemma group_sound (env : string -> Z) (xs : list Node) :
  forall (const : Z) (acc : list (Node * Z)),
  forallb (respects env) xs = true -> terms_respected env acc = true ->
  terms_respected env (snd (group xs const acc)) = true
  /\ fst (group xs const acc) + terms_value env (snd (group xs const acc))
     = const + terms_value env acc + Zsum (map (eval env) xs).
Proof.
  induction xs as [|x xs IH]; intros const acc R Ra; simpl.
  - split; [assumption | lia].
  - simpl in R. apply andb_prop in R as [R1 R2].
    assert (G : forall a c, term_of x = (a, c) ->
              terms_respected env (snd (group xs const (add_term a c acc))) = true
              /\ fst (group xs const (add_term a c acc))
                 + terms_value env (snd (group xs const (add_term a c acc)))
                 = const + terms_value env acc + (eval env x + Zsum (map (eval env) xs))).
    { intros a c E. destruct (term_of_sound env x R1) as [T1 T2].
      rewrite E in T1, T2. simpl in T1, T2.
      destruct (add_term_sound env a c acc T1 Ra) as [A1 A2].
      destruct (IH const _ R2 A1) as [B1 B2]. split; [assumption|].
      rewrite B2, A2. lia. }
    destruct x; simpl in *;
      try (apply G; reflexivity).
    destruct (IH (const + b) acc R2 Ra) as [B1 B2]. split; [assumption | lia].
Qed.

Lemma scaled_sound (env : string -> Z) (ts : list (Node * Z)) :
  terms_respected env ts = true ->
  forallb (respects env) (map scaled (filter (fun t => negb (snd t =? 0)) ts)) = true
  /\ Zsum (map (eval env) (map scaled (filter (fun t => negb (snd t =? 0)) ts)))
     = terms_value env ts.
Proof.
  induction ts as [|[a c] ts IH]; simpl; intros R; [split; reflexivity|].
  apply andb_prop in R as [R1 R2]. simpl in R1. destruct (IH R2) as [B1 B2].
  unfold terms_value in *. simpl.
  destruct (c =? 0) eqn:Ec; simpl.
  - apply Z.eqb_eq in Ec. split; [assumption | lia].
  - destruct (c =? 1) eqn:E1; simpl.
    + apply Z.eqb_eq in E1. rewrite R1, B1. split; [reflexivity | lia].
    + rewrite R1, B1. split; [reflexivity | lia].
Qed.

Lemma sum_sound (env : string -> Z) (xs : list Node) :
  forallb (respects env) xs = true ->
  respects env (sum xs) = true
  /\ eval env (sum xs) = Zsum (map (eval env) xs).
Proof.
  intros R. destruct (flat_map_flatten_sound env xs R) as [F1 F2].
  unfold sum.
  pose proof (group_sound env (flat_map flatten xs) 0 [] F1 eq_refl) as [G1 G2].
  destruct (group (flat_map flatten xs) 0 []) as [const terms]. simpl in G1, G2.
  destruct (scaled_sound env terms G1) as [S1 S2].
  set (kept := map scaled (filter (fun t => negb (snd t =? 0)) terms)) in *.
  set (children := kept ++ (if const =? 0 then [] else [NumNode const])).
  assert (C : forallb (respects env) children = true
              /\ Zsum (map (eval env) children) = Zsum (map (eval env) xs)).
  { unfold children. rewrite forallb_app, map_app, Zsum_app, S1, S2.
    change (terms_value env []) with 0 in G2.
    destruct (const =? 0) eqn:Ec; simpl; [apply Z.eqb_eq in Ec|]; split;
      try reflexivity; lia. }
  destruct C as [C1 C2].
  destruct children as [|x [|y r]]; simpl in *.
  - split; [reflexivity | lia].
  - rewrite andb_true_r in C1. split; [assumption | lia].
  - split; [assumption | lia].
Qed.

Lemma var_sound (env : string -> Z) (x : string) (lo hi : Z) :
  lo <= env x <= hi ->
  respects env (var x lo hi) = true /\ eval env (var x lo hi) = env x.
Proof.
  intros B. unfold var. destruct (lo <? hi) eqn:E; simpl.
  - split; [|reflexivity]. apply andb_true_intro. split; apply Z.leb_le; lia.
  - apply Z.ltb_ge in E. split; [reflexivity | lia].
Qed.

Lemma mul_sound (env : string -> Z) (e : Node) (k : Z) :
  respects env e = true ->
  respects env (mul e k) = true /\ eval env (mul e k) = eval env e * k.
Proof.
  induction e using Node_ind; intros R; simpl;
    (destruct (k =? 0) eqn:E0;
     [apply Z.eqb_eq in E0; subst k; simpl; split; [reflexivity | ring] |]);
    (destruct (k =? 1) eqn:E1;
     [apply Z.eqb_eq in E1; subst k; split; [assumption | simpl; ring] |]);
    simpl in *; try (split; [assumption | ring]).
  assert (M : forallb (respects env) (map (fun x => mul x k) xs) = true
                /\ Zsum (map (eval env) (map (fun x => mul x k) xs))
                   = Zsum (map (eval env) xs) * k).
  { clear E0 E1. induction H as [|x xs Hx Hxs IH]; simpl in *; [split; reflexivity|].
    apply andb_prop in R as [R1 R2].
    destruct (Hx R1) as [A1 A2]. destruct (IH R2) as [B1 B2].
    rewrite A1, B1, A2, B2. split; [reflexivity | lia]. }
  destruct M as [M1 M2]. destruct (sum_sound env _ M1) as [S1 S2].
  split; [assumption | lia].
Qed.

Lemma reduce_by_sound (env : string -> Z) (k : Z) (x : Node) :
  0 < k -> respects env x = true -> multiple_of k x = true ->
  respects env (reduce_by k x) = true
  /\ eval env x = k * eval env (reduce_by k x).
Proof.
  intros Hk R M. destruct x; simpl in *; try discriminate.
  - apply Z.eqb_eq in M. split; [reflexivity|].
    apply Z.div_exact; lia.
  - apply Z.eqb_eq in M. destruct (mul_sound env x (b / k) R) as [A1 A2].
    split; [assumption|]. rewrite A2.
    assert (b = k * (b / k)) by (apply Z.div_exact; lia). nia.
Qed.

Lemma reduce_all_sound (env : string -> Z) (k : Z) (xs : list Node) :
  0 < k -> forallb (respects env) xs = true -> forallb (multiple_of k) xs = true ->
  forallb (respects env) (map (reduce_by k) xs) = true
  /\ Zsum (map (eval env) xs) = k * Zsum (map (eval env) (map (reduce_by k) xs)).
Proof.
  intros Hk. induction xs as [|x xs IH]; simpl; intros R M; [split; [reflexivity | lia]|].
  apply andb_prop in R as [R1 R2]. apply andb_prop in M as [M1 M2].
  destruct (reduce_by_sound env k x Hk R1 M1) as [A1 A2].
  destruct (IH R2 M2) as [B1 B2]. rewrite A1, B1. split; [reflexivity | lia].
Qed.

Lemma floordiv_total (e : Node) (k : Z) :
  0 < k -> exists q, floordiv e k = Ok q.
Proof.
  intros Hk. unfold floordiv.
  destruct (k <=? 0) eqn:E; [apply Z.leb_le in E; lia|].
  destruct ((Symbolic.max e <? k) && (0 <=? Symbolic.min e)); [eauto|].
  destruct e; eauto. destruct (forallb (multiple_of k) nodes); eauto.
Qed.

Lemma floordiv_sound (env : string -> Z) (e q : Node) (k : Z) :
  respects env e = true -> floordiv e k = Ok q ->
  respects env q = true /\ eval env q = eval env e / k.
Proof.
  intros R. unfold floordiv.
  destruct (k <=? 0) eqn:Ek; [discriminate|]. apply Z.leb_gt in Ek.
  pose proof (bounds_sound env e R) as B.
  destruct ((Symbolic.max e <? k) && (0 <=? Symbolic.min e)) eqn:Es.
  - apply andb_prop in Es as [E1 E2]. apply Z.ltb_lt in E1. apply Z.leb_le in E2.
    intros Q. injection Q as <-. split; [reflexivity|]. simpl.
    symmetry. apply Z.div_small. lia.
  - assert (D : respects env (DivNode e k) = true
                /\ eval env (DivNode e k) = eval env e / k).
    { simpl. rewrite R. split; [|reflexivity]. apply Z.ltb_lt in Ek.
      rewrite Ek. reflexivity. }
    destruct e; try (intros Q; injection Q as <-; exact D).
    destruct (forallb (multiple_of k) nodes) eqn:M;
      [|intros Q; injection Q as <-; exact D].
    intros Q. injection Q as <-. simpl in R.
    destruct (reduce_all_sound env k nodes Ek R M) as [A1 A2].
    destruct (sum_sound env _ A1) as [S1 S2]. split; [assumption|].
    simpl. rewrite S2, A2, Z.mul_comm, Z.div_mul; lia.
Qed.

Lemma respects_ModNode (env : string -> Z) (e : Node) (k : Z) :
  respects env e = true -> 0 < k -> respects env (ModNode e k) = true.
Proof.
  intros R H. simpl. rewrite R. apply Z.ltb_lt in H. rewrite H. reflexivity.
Qed.

Lemma mod_total (e : Node) (k : Z) :
  0 < k -> exists m, mod_ e k = Ok m.
Proof.
  intros Hk. induction e using Node_ind; simpl;
    (destruct (k <=? 0) eqn:E; [apply Z.leb_le in E; lia|]);
    match goal with
    | |- context [if ?c then Ok ?x else _] => destruct c; eauto
    end.
  - destruct ((k <=? b) && (b mod k =? 0)); eauto.
  - destruct (forallb (multiple_of k) xs); eauto.
Qed.

Lemma multiples_sum (env : string -> Z) (k : Z) (xs : list Node) :
  0 < k -> forallb (respects env) xs = true -> forallb (multiple_of k) xs = true ->
  Zsum (map (eval env) xs) mod k = 0.
Proof.
  intros Hk R M. destruct (reduce_all_sound env k xs Hk R M) as [_ A].
  rewrite A, Z.mul_comm. apply Z.mod_mul. lia.
Qed.

Lemma mod_sound (env : string -> Z) (e : Node) (k : Z) :
  forall m, respects env e = true -> mod_ e k = Ok m ->
  respects env m = true /\ eval env m = eval env e mod k.
Proof.
  induction e using Node_ind; intros m R; simpl;
    (destruct (k <=? 0) eqn:Ek; [discriminate|]); apply Z.leb_gt in Ek;
    match goal with
    | |- context [if ?c then Ok ?x else _] =>
        pose proof (bounds_sound env x R) as B;
        destruct c eqn:Es;
        [ apply andb_prop in Es as [E1 E2]; apply Z.ltb_lt in E1;
          apply Z.leb_le in E2; intros Q; injection Q as <-;
          split; [assumption | symmetry; apply Z.mod_small; lia] | ]
    end;
    try (intros Q; injection Q as <-;
         split; [apply respects_ModNode; assumption | reflexivity]).
  - simpl in R. apply andb_prop in R as [R Hb]. apply Z.ltb_lt in Hb.
    destruct ((k <=? b) && (b mod k =? 0)) eqn:Ed.
    + apply andb_prop in Ed as [D1 D2]. apply Z.eqb_eq in D2.
      intros Q. destruct (IHe m R Q) as [A1 A2]. split; [assumption|].
      rewrite A2. simpl. symmetry. apply Z.mod_mod_divide.
      apply Z.mod_divide; lia.
    + intros Q. injection Q as <-.
      split; [apply respects_ModNode; [apply respects_ModNode|]; assumption|].
      reflexivity.
  - destruct (forallb (multiple_of k) xs) eqn:M; intros Q; injection Q as <-.
    + split; [reflexivity|]. simpl. symmetry.
      apply (multiples_sum env k xs Ek R M).
    + split; [apply respects_ModNode; assumption | reflexivity].
Qed.

(** ** Index expressions of a view *)

Lemma merge_dims_positive (rest : list (Z * Z)) :
  forall last, 0 < fst last -> positive_dims rest ->
  positive_dims (merge_dims last rest).
Proof.
  induction rest as [|[sh st] rest IH]; intros last Hl Hr; simpl.
  - constructor; [assumption | constructor].
  - inversion Hr as [|? ? Hsh Hrest]; subst. simpl in Hsh.
    destruct (_ || _).
    + apply IH; [simpl; nia | assumption].
    + constructor; [assumption|]. apply IH; assumption.
Qed.

Lemma combine_positive (shape strides : list Z) :
  positive_shape shape -> positive_dims (combine shape strides).
Proof.
  intros H. revert strides. induction H as [|d shape Hd Hs IH]; intros [|s strides];
    simpl; try constructor; [simpl; lia | apply IH].
Qed.

Lemma View_wf_positive_dims (v : View.t) :
  View_wf v -> positive_dims (View.shape_strides v).
Proof.
  intros [Hp Hi]. unfold View.init, to_shape_strides in Hi.
  destruct (assert _); simpl in Hi; [|discriminate].
  injection Hi as Hi. rewrite <- Hi at 1. simpl.
  generalize (normalize (View.strides v) (View.shape v)).
  intros strides'. pose proof (combine_positive (View.shape v) strides' Hp) as C.
  destruct (combine (View.shape v) strides') as [|p r]; [constructor|].
  inversion C; subst. apply merge_dims_positive; assumption.
Qed.

Lemma forallb_snoc {A : Type} (f : A -> bool) (l : list A) (x : A) :
  forallb f l = true -> f x = true -> forallb f (l ++ [x]) = true.
Proof.
  intros Hl Hx. rewrite forallb_app, Hl. simpl. rewrite Hx. reflexivity.
Qed.

Lemma View_expr_node_loop_sound (env : string -> Z) (idx : Node) (dims : list (Z * Z)) :
  respects env idx = true ->
  forall acc ret, 0 < acc -> positive_dims dims ->
  forallb (respects env) ret = true ->
  exists ret', View.expr_node_loop idx dims acc ret = Ok ret'
    /\ forallb (respects env) ret' = true
    /\ Zsum (map (eval env) ret')
       = Zsum (map (eval env) ret) + linear_terms (eval env idx) dims acc.
Proof.
  intros Ri. induction dims as [|[d s] dims IH]; intros acc ret Ha Hd Hr; simpl.
  - exists ret. repeat split; [assumption | lia].
  - inversion Hd as [|? ? Hd1 Hd2]; subst. simpl in Hd1.
    assert (Hacc : 0 < acc * d) by nia.
    destruct (negb (d =? 1) && negb (s =? 0)) eqn:E.
    + destruct (floordiv_total idx acc Ha) as [q Eq].
      destruct (floordiv_sound env idx q acc Ri Eq) as [Rq Vq].
      destruct (mod_total q d Hd1) as [m Em].
      destruct (mod_sound env q d m Rq Em) as [Rm Vm].
      destruct (mul_sound env m s Rm) as [Rs Vs].
      rewrite Eq. simpl. rewrite Em. simpl.
      destruct (IH (acc * d) (ret ++ [mul m s]) Hacc Hd2
                   (forallb_snoc _ _ _ Hr Rs)) as (ret' & E1 & E2 & E3).
      exists ret'. repeat split; [assumption | assumption|].
      rewrite E3, map_app, Zsum_app. simpl. rewrite Vs, Vm, Vq. lia.
    + destruct (IH (acc * d) ret Hacc Hd2 Hr) as (ret' & E1 & E2 & E3).
      exists ret'. repeat split; [assumption | assumption|].
      rewrite E3. apply Bool.andb_false_iff in E.
      destruct E as [E|E]; apply Bool.negb_false_iff, Z.eqb_eq in E; subst.
      * rewrite Z.mod_1_r. lia.
      * lia.
Qed.

Lemma View_expr_node_sound (env : string -> Z) (v : View.t) (idx : Node) :
  positive_dims (View.shape_strides v) -> respects env idx = true ->
  exists e, View.expr_node v (Some idx) = Ok e
    /\ respects env e = true
    /\ eval env e = View_at v (eval env idx).
Proof.
  intros Hd Ri. unfold View.expr_node.
  assert (Hrev : positive_dims (rev (View.shape_strides v))).
  { apply Forall_rev. exact Hd. }
  destruct (View_expr_node_loop_sound env idx _ Ri 1 [num (View.offset v)]
              ltac:(lia) Hrev eq_refl) as (ret & E1 & E2 & E3).
  rewrite E1. simpl. destruct (sum_sound env ret E2) as [S1 S2].
  exists (sum ret). repeat split; [assumption|].
  rewrite S2, E3. unfold View_at. simpl. lia.
Qed.

Lemma ZeroView_expr_node_loop_total (idx : Node) (dims : list (Z * Z * (Z * Z))) :
  Forall (fun p => 0 < snd (fst p)) dims ->
  forall acc expr, 0 < acc ->
  exists expr', ZeroView.expr_node_loop idx dims acc expr = Ok expr'.
Proof.
  induction 1 as [|[[s ns] [x y]] dims Hns Hd IH]; intros acc expr Ha; simpl.
  - eauto.
  - simpl in Hns. destruct (floordiv_total idx acc Ha) as [q Eq].
    destruct (mod_total q ns Hns) as [m Em].
    rewrite Eq. simpl. rewrite Em. simpl. apply IH. nia.
Qed.

Lemma zip3_middle {A B C : Type} (P : B -> Prop) (a : list A) (b : list B) (c : list C) :
  Forall P b -> Forall (fun p => P (snd (fst p))) (zip3 a b c).
Proof.
  intros H. revert a c. induction H as [|y b Hy Hb IH]; intros [|x a] [|z c];
    simpl; try constructor; [exact Hy | apply IH].
Qed.

Lemma ZeroView_expr_node_total (z : ZeroView.t) (idx valid : option Node) :
  positive_shape (ZeroView.shape z) ->
  exists e, ZeroView.expr_node z idx valid = Ok e.
Proof.
  intros Hp. unfold ZeroView.expr_node.
  assert (Hd : Forall (fun p : Z * Z * (Z * Z) => 0 < snd (fst p))
                 (rev (zip3 (ZeroView.old_shape z) (ZeroView.shape z) (ZeroView.arg z)))).
  { apply Forall_rev. apply (zip3_middle (fun ns => 0 < ns)).
    eapply Forall_impl; [|exact Hp]. simpl. intros; lia. }
  destruct (ZeroView_expr_node_loop_total
              (match idx with None => ZeroView.default_idx z | Some i => i end)
              _ Hd 1 (match valid with Some v => [v] | None => [] end) ltac:(lia))
    as [expr E].
  rewrite E. simpl. eauto.
Qed.

Lemma expr_idx_loop_sound (env : string -> Z) (vs : list ViewTypes) :
  Forall ViewTypes_wf vs ->
  forall idx valid, respects env idx = true ->
  exists e valid', ShapeTracker.expr_idx_loop vs idx valid = Ok (e, valid')
    /\ respects env e = true
    /\ eval env e = walk vs (eval env idx).
Proof.
  induction 1 as [|[v|z] vs Hv Hvs IH]; intros idx valid Ri; simpl.
  - exists idx, valid. repeat split; assumption.
  - destruct (View_expr_node_sound env v idx (View_wf_positive_dims v Hv) Ri)
      as (e & E1 & E2 & E3).
    rewrite E1. simpl. destruct (IH e valid E2) as (e' & valid' & F1 & F2 & F3).
    exists e', valid'. repeat split; [assumption | assumption|].
    rewrite F3, E3. reflexivity.
  - destruct (ZeroView_expr_node_total z (Some idx) (Some valid) (proj1 Hv))
      as [valid1 E1].
    rewrite E1. simpl. apply IH. assumption.
Qed.

Lemma View_expr_idxs_terms (env : string -> Z)
      (zs : list (string * Z * Z)) :
  Forall (fun p => 0 <= env (fst (fst p)) <= snd (fst p) - 1) zs ->
  let terms :=
    map (fun '(idx, sh, st) => mul (var idx 0 (sh - 1)) st)
        (filter (fun '(_, sh, st) => negb (sh =? 1) && negb (st =? 0)) zs) in
  forallb (respects env) terms = true
  /\ Zsum (map (eval env) terms)
     = Zsum (map (fun '(idx, _, st) => env idx * st) zs).
Proof.
  induction 1 as [|[[x sh] st] zs Hx Hzs IH]; simpl; [split; reflexivity|].
  simpl in Hx. destruct IH as [I1 I2].
  destruct (negb (sh =? 1) && negb (st =? 0)) eqn:E; simpl.
  - destruct (var_sound env x 0 (sh - 1) Hx) as [V1 V2].
    destruct (mul_sound env _ st V1) as [M1 M2].
    rewrite M1, I1, M2, V2, I2. split; reflexivity.
  - split; [assumption|]. rewrite I2.
    apply Bool.andb_false_iff in E.
    destruct E as [E|E]; apply Bool.negb_false_iff, Z.eqb_eq in E; subst.
    + assert (env x = 0) by lia. nia.
    + lia.
Qed.

Lemma View_expr_idxs_sound (env : string -> Z) (v : View.t)
      (names : list string) (offset0 : Z) :
  within_shape env names (View.shape v) ->
  respects env (View.expr_idxs v names offset0) = true
  /\ eval env (View.expr_idxs v names offset0)
     = View.offset v + offset0
       + Zsum (map (fun '(i, _, st) => i * st)
                   (zip3 (map env names) (View.shape v) (View.strides v))).
Proof.
  intros W. unfold View.expr_idxs.
  assert (Hz : Forall (fun p : string * Z * Z =>
                         0 <= env (fst (fst p)) <= snd (fst p) - 1)
                      (zip3 names (View.shape v) (View.strides v))).
  { unfold zip3, within_shape in *.
    revert W. generalize (View.strides v). generalize (combine names (View.shape v)).
    intros ps ss Hps. revert ss.
    induction Hps as [|[x sh] ps Hp Hps IH]; intros [|s ss]; simpl;
      try constructor; [exact Hp | apply IH]. }
  destruct (View_expr_idxs_terms env _ Hz) as [T1 T2].
  match goal with
  | |- context [sum (?c :: ?ts)] =>
      destruct (sum_sound env (c :: ts)) as [S1 S2]
  end.
  { simpl. exact T1. }
  split; [exact S1|]. rewrite S2. simpl. rewrite T2. f_equal.
  unfold zip3. generalize (View.shape v) (View.strides v). clear.
  induction names as [|x names IH]; intros [|sh shs] [|st sts]; simpl;
    try reflexivity.
  rewrite IH. reflexivity.
Qed.

Lemma removelast_snoc {A : Type} (l : list A) (x : A) : removelast (l ++ [x]) = l.
Proof.
  rewrite removelast_app by discriminate. simpl. apply app_nil_r.
Qed.

Lemma unsnoc_snoc {A : Type} (l : list A) (x : A) : unsnoc (l ++ [x]) = Some (l, x).
Proof.
  unfold unsnoc. rewrite rev_app_distr. simpl. rewrite rev_involutive. reflexivity.
Qed.

Lemma unsnoc_nil {A : Type} (l : list A) : unsnoc l = None -> l = [].
Proof.
  unfold unsnoc. destruct (rev l) eqn:E; [|discriminate].
  intros _. rewrite <- (rev_involutive l), E. reflexivity.
Qed.

Lemma unsnoc_some {A : Type} (l r : list A) (x : A) :
  unsnoc l = Some (r, x) -> l = r ++ [x].
Proof.
  unfold unsnoc. destruct (rev l) eqn:E; [discriminate|].
  intros Q. injection Q as <- <-. rewrite <- (rev_involutive l), E. reflexivity.
Qed.

(** ** C1: the offset expression of [expr_idxs] *)

Lemma multi_index_within (env : string -> Z) (names : list string) (shape : list Z) :
  multi_index shape (map env names) -> within_shape env names shape.
Proof.
  intros [_ F]. unfold within_shape. revert shape F.
  induction names as [|x names IH]; intros [|d shape] F; simpl; try constructor.
  - inversion F; subst. simpl in *. lia.
  - inversion F; subst. apply IH. assumption.
Qed.

Lemma multi_index_length (shape idxs : list Z) :
  multi_index shape idxs -> List.length idxs = List.length shape.
Proof. intros [L _]. exact L. Qed.

Lemma idx_name_injective (i j : nat) :
  ShapeTracker.idx_name i = ShapeTracker.idx_name j -> i = j.
Proof.
  unfold ShapeTracker.idx_name. simpl. intros H. injection H as H.
  assert (U : Nat.to_uint i = Nat.to_uint j).
  { pose proof (NilEmpty.usu (Nat.to_uint i)) as Hi.
    pose proof (NilEmpty.usu (Nat.to_uint j)) as Hj.
    rewrite H in Hi. rewrite Hi in Hj. injection Hj as Hj. exact Hj. }
  rewrite <- (Unsigned.of_to i), <- (Unsigned.of_to j), U. reflexivity.
Qed.

Lemma idx_names_distinct (idxs : option (list string)) (sh : list Z) :
  named_dimensions idxs sh ->
  NoDup (idx_names idxs (List.length sh))
  /\ List.length (idx_names idxs (List.length sh)) = List.length sh.
Proof.
  destruct idxs as [names|]; simpl; [intros H; exact H|]. intros _. split.
  - generalize 0%nat. induction (List.length sh) as [|n IH]; intros a; simpl;
      constructor; [|apply IH].
    intros Hin. apply in_map_iff in Hin as (k & Hk & Hin).
    apply idx_name_injective in Hk. apply in_seq in Hin. lia.
  - rewrite length_map, length_seq. reflexivity.
Qed.

Lemma map_assign (names : list string) :
  forall vals,
    NoDup names -> List.length names = List.length vals ->
    map (assign names vals) names = vals.
Proof.
  induction names as [|n names IH]; intros [|v vals] Hd L; try discriminate;
    [reflexivity|].
  inversion Hd as [|? ? Hn Hd']; subst. simpl in L.
  cbn [map assign]. rewrite String.eqb_refl. f_equal.
  transitivity (map (assign names vals) names); [|apply IH; [exact Hd' | lia]].
  apply map_ext_in. intros x Hx.
  destruct (String.eqb_spec x n) as [->|_]; [contradiction | reflexivity].
Qed.

Lemma assign_multi_index (idxs : option (list string)) (sh vals : list Z) :
  named_dimensions idxs sh ->
  multi_index sh vals ->
  map (assign (idx_names idxs (List.length sh)) vals)
      (idx_names idxs (List.length sh)) = vals
  /\ within_shape (assign (idx_names idxs (List.length sh)) vals)
                  (idx_names idxs (List.length sh)) sh.
Proof.
  intros Hn M. destruct (idx_names_distinct idxs sh Hn) as [Hd Hl].
  assert (E : map (assign (idx_names idxs (List.length sh)) vals)
                  (idx_names idxs (List.length sh)) = vals).
  { apply map_assign; [exact Hd|]. rewrite Hl. symmetry.
    exact (multi_index_length _ _ M). }
  split; [exact E|]. apply multi_index_within. rewrite E. exact M.
Qed.

(** C1.  For every well-formed ShapeTracker, [expr_idxs] returns an
    expression pair, and for every assignment that gives each per-dimension
    index variable a value in [0, shape[i]-1], evaluating its offset
    expression yields the integer of the naive multi-view walk at the
    multi-index assigned: the affine map of the top view, then each earlier
    View's map from second-to-top down to [views[0]], with ZeroViews leaving
    the index unchanged.  The default names [idx0, idx1, ...] are pairwise
    distinct, so that every multi-index within the shape is the one of some
    such assignment: with the default names, or with distinct names given by
    the caller, the offset expression evaluates at the assignment of a
    multi-index [vals] to the walk at [vals]. *)
Theorem expr_idxs_is_naive_walk
        (st : ShapeTracker.t) (sh : list Z) (offset0 : Z) :
  ShapeTracker_wf st ->
  ShapeTracker.shape st = Ok sh ->
  (forall (idxs : option (list string)) (env : string -> Z),
      within_shape env (idx_names idxs (List.length sh)) sh ->
      exists e valid,
        ShapeTracker.expr_idxs st offset0 idxs = Ok (e, valid)
        /\ naive_offset st offset0 (map env (idx_names idxs (List.length sh)))
           = Ok (eval env e))
  /\ NoDup (idx_names None (List.length sh))
  /\ (forall (idxs : option (list string)) (vals : list Z),
         named_dimensions idxs sh ->
         multi_index sh vals ->
         within_shape (assign (idx_names idxs (List.length sh)) vals)
                      (idx_names idxs (List.length sh)) sh
         /\ map (assign (idx_names idxs (List.length sh)) vals)
                (idx_names idxs (List.length sh)) = vals
         /\ exists e valid,
              ShapeTracker.expr_idxs st offset0 idxs = Ok (e, valid)
              /\ naive_offset st offset0 vals
                 = Ok (eval (assign (idx_names idxs (List.length sh)) vals) e)).
Proof.
  intros [Hall (below & v & Hviews)] Hsh.
  assert (Main : forall (idxs : option (list string)) (env : string -> Z),
             within_shape env (idx_names idxs (List.length sh)) sh ->
             exists e valid,
               ShapeTracker.expr_idxs st offset0 idxs = Ok (e, valid)
               /\ naive_offset st offset0 (map env (idx_names idxs (List.length sh)))
                  = Ok (eval env e)).
  { intros idxs env W.
    unfold ShapeTracker.shape, ShapeTracker.top in Hsh.
    unfold ShapeTracker.expr_idxs, naive_offset, ShapeTracker.shape,
      ShapeTracker.top, ShapeTracker._expr_idx.
    rewrite Hviews in *. rewrite unsnoc_snoc in *. simpl in Hsh.
    injection Hsh as <-. simpl. rewrite removelast_snoc.
    fold (idx_names idxs (List.length (View.shape v))).
    destruct (View_expr_idxs_sound env v _ offset0 W) as [R V].
    assert (Hbelow : Forall ViewTypes_wf (rev below)).
    { apply Forall_rev. apply Forall_app in Hall. apply Hall. }
    destruct (expr_idx_loop_sound env (rev below) Hbelow _ (num 1) R)
      as (e & valid & E1 & E2 & E3).
    exists e, valid. split; [exact E1|]. rewrite E3, V. reflexivity. }
  split; [exact Main|].
  split; [exact (proj1 (idx_names_distinct None sh I))|].
  intros idxs vals Hn M.
  destruct (assign_multi_index idxs sh vals Hn M) as [E W].
  split; [exact W|]. split; [exact E|].
  destruct (Main idxs _ W) as (e & valid & E1 & E2).
  exists e, valid. split; [exact E1|]. rewrite E in E2. exact E2.
Qed.

(** Well-formedness of a concrete tracker, by evaluation. *)
Ltac concrete_le := try reflexivity; try lia; try (cbv; intro; discriminate).

Ltac concrete_forall :=
  simpl;
  repeat (apply Forall_cons || apply Forall_nil); simpl;
  repeat split; concrete_le;
  repeat (apply Forall_cons || apply Forall_nil); simpl; concrete_le.

Ltac concrete_wf :=
  split;
  [ concrete_forall
  | match goal with
    | |- exists below v, ShapeTracker.views ?st = _ =>
        exists (removelast (ShapeTracker.views st)); eexists; cbv; reflexivity
    end ].

Lemma transposed_flat_wf : ShapeTracker_wf transposed_flat.
Proof. concrete_wf. Defined.

Lemma expr_idxs_is_naive_walk_witness :
  ShapeTracker_wf transposed23
  /\ ShapeTracker.shape transposed23 = Ok [3; 2]
  /\ multi_index [3; 2] [2; 1]
  /\ idx_names None 2 = ["idx0"%string; "idx1"%string]
  /\ (exists e valid,
        ShapeTracker.expr_idxs transposed23 0 None = Ok (e, valid)
        /\ naive_offset transposed23 0 [2; 1]
           = Ok (eval (assign (idx_names None 2) [2; 1]) e)
        /\ naive_offset transposed23 0 [2; 1] = Ok 5)
  /\ ShapeTracker_wf transposed_flat
  /\ multi_index [16] [6]
  /\ (exists e valid,
        ShapeTracker.expr_idxs transposed_flat 0 None = Ok (e, valid)
        /\ naive_offset transposed_flat 0 [6]
           = Ok (eval (assign (idx_names None 1) [6]) e)
        /\ naive_offset transposed_flat 0 [6] = Ok 9).
Proof.
  assert (M : multi_index [3; 2] [2; 1]).
  { split; [reflexivity | concrete_forall]. }
  assert (M' : multi_index [16] [6]).
  { split; [reflexivity | concrete_forall]. }
  assert (W : ShapeTracker_wf transposed23) by concrete_wf.
  split; [exact W|]. split; [reflexivity|]. split; [exact M|].
  split; [reflexivity|]. split.
  { destruct (proj2 (proj2 (expr_idxs_is_naive_walk transposed23 [3; 2] 0
                              W eq_refl)) None [2; 1] I M)
      as (_ & _ & e & valid & E1 & E2).
    exists e, valid. split; [exact E1|]. split; [exact E2 | reflexivity]. }
  split; [exact transposed_flat_wf|]. split; [exact M'|].
  destruct (proj2 (proj2 (expr_idxs_is_naive_walk transposed_flat [16] 0
                            transposed_flat_wf eq_refl)) None [6] I M')
    as (_ & _ & e & valid & E1 & E2).
  exists e, valid. split; [exact E1|]. split; [exact E2 | reflexivity].
Defined.

(** ** C2: the default index variable of [expr_node] *)

(** C2.  The default linear index variable should have the inclusive bounds
    [0, prod(shape)-1].  [ShapeTracker.expr_node] makes it so; on a view of
    shape (3,) [View.expr_node] makes a variable with upper bound 3 =
    prod(shape), and [ZeroView.expr_node] over the padded shape (5,) one with
    upper bound 5: both are one too large. *)
Theorem default_idx_upper_bound_off_by_one :
  let v := View.mk [3] [1] 0 [(3, 1)] true in
  let z := ZeroView.init [3] [(-1, 4)] in
  View.init [3] [1] 0 = Ok v
  /\ prod (View.shape v) - 1 = 2
  /\ View.default_idx v = VarNode "idx" 0 3
  /\ prod (ZeroView.shape z) - 1 = 4
  /\ ZeroView.default_idx z = VarNode "idx" 0 5
  /\ ShapeTracker.default_idx (ShapeTracker.mk [IsView v]) "idx"
     = Ok (VarNode "idx" 0 2).
Proof. repeat split. Qed.

(** ** Facts about the constructors of views *)

Lemma normalize_length (strides shape : list Z) :
  (List.length shape <= List.length strides)%nat ->
  List.length (normalize strides shape) = List.length shape.
Proof.
  intros H. unfold normalize. rewrite length_map, length_combine. lia.
Qed.

Lemma normalize_idempotent (strides shape : list Z) :
  normalize (normalize strides shape) shape = normalize strides shape.
Proof.
  unfold normalize. revert shape.
  induction strides as [|s strides IH]; intros [|d shape]; simpl; try reflexivity.
  rewrite IH. destruct (d =? 1); reflexivity.
Qed.

Lemma View_init_ok (shape strides : list Z) (offset : Z) :
  (List.length shape <= List.length strides)%nat ->
  exists v, View.init shape strides offset = Ok v
    /\ View.shape v = shape
    /\ View.strides v = normalize strides shape
    /\ View.offset v = offset
    /\ View.init (View.shape v) (View.strides v) (View.offset v) = Ok v.
Proof.
  intros H. unfold View.init, to_shape_strides.
  rewrite (normalize_length strides shape H), Nat.eqb_refl. simpl.
  eexists. split; [reflexivity|]. simpl. repeat split.
  rewrite normalize_idempotent.
  rewrite (normalize_length strides shape H), Nat.eqb_refl. reflexivity.
Qed.

Lemma View_wf_lengths (v : View.t) :
  View_wf v -> List.length (View.strides v) = List.length (View.shape v).
Proof.
  intros [_ Hi]. unfold View.init, to_shape_strides in Hi.
  destruct (Nat.eqb _ _) eqn:E; simpl in Hi; [|discriminate].
  apply Nat.eqb_eq in E. injection Hi as Hi.
  rewrite <- Hi at 1. simpl. symmetry. exact E.
Qed.

Lemma View_wf_normalized (v : View.t) :
  View_wf v -> normalize (View.strides v) (View.shape v) = View.strides v.
Proof.
  intros [_ Hi]. unfold View.init, to_shape_strides in Hi.
  destruct (Nat.eqb _ _) eqn:E; simpl in Hi; [|discriminate].
  injection Hi as Hi. apply (f_equal View.strides) in Hi. exact Hi.
Qed.

Lemma strides_for_shape_length (shape : list Z) :
  (List.length shape <= List.length (strides_for_shape shape))%nat.
Proof.
  unfold strides_for_shape.
  assert (G : forall l acc, List.length (fold_left
                (fun strides d => d * hd 0 strides :: strides) l acc)
              = (List.length l + List.length acc)%nat).
  { induction l as [|d l IH]; intros acc; simpl; [reflexivity|].
    rewrite IH. simpl. lia. }
  rewrite G. simpl.
  destruct (rev shape) as [|x r] eqn:E.
  - rewrite <- (rev_involutive shape), E. simpl. lia.
  - assert (L : List.length shape = S (List.length r)).
    { rewrite <- (length_rev shape), E. reflexivity. }
    rewrite L. clear E L. revert x.
    induction r as [|y r IH]; intros x; [simpl; lia|].
    change (removelast (x :: y :: r)) with (x :: removelast (y :: r)).
    specialize (IH y). cbn [List.length] in *. lia.
Qed.

Lemma offset_terms_from (arg : list (Z * Z)) :
  forall pre rest, (List.length arg <= List.length rest)%nat ->
  fold_right (fun '(i, (x, _)) acc =>
                s <- index (pre ++ rest) i ;; l <- acc ;; Ok (s * x :: l))
             (Ok []) (combine (seq (List.length pre) (List.length arg)) arg)
  = Ok (map (fun '(s, (x, _)) => s * x) (combine rest arg)).
Proof.
  induction arg as [|[x y] arg IH]; intros pre rest H; simpl.
  - destruct rest; reflexivity.
  - destruct rest as [|s rest]; simpl in H; [lia|].
    unfold index at 1. rewrite nth_error_app2, Nat.sub_diag by lia. simpl.
    specialize (IH (pre ++ [s]) rest ltac:(lia)).
    rewrite <- app_assoc, length_app in IH. simpl in IH.
    rewrite Nat.add_1_r in IH. rewrite IH. reflexivity.
Qed.

Lemma offset_terms (sts : list Z) (arg : list (Z * Z)) :
  (List.length arg <= List.length sts)%nat ->
  fold_right (fun '(i, (x, _)) acc =>
                s <- index sts i ;; l <- acc ;; Ok (s * x :: l))
             (Ok []) (combine (seq 0 (List.length arg)) arg)
  = Ok (map (fun '(s, (x, _)) => s * x) (combine sts arg)).
Proof.
  intros H. exact (offset_terms_from arg [] sts H).
Qed.

(** ** The movement operation [shrink] *)

Lemma window_shape_positive (arg : list (Z * Z)) :
  nonempty_windows arg -> positive_shape (window_shape arg).
Proof.
  induction 1 as [|[x y] arg H Ha IH]; simpl; constructor;
    [simpl in H; lia | exact IH].
Qed.

Lemma window_shape_length (arg : list (Z * Z)) :
  List.length (window_shape arg) = List.length arg.
Proof. apply length_map. Qed.

(** What [shrink] does once its argument has the rank of the tracker and
    every window is non-empty: the top view is replaced, and the bounds of
    the validity predicate decide whether two views are appended. *)
Lemma shrink_unfold (st : ShapeTracker.t) (below : list ViewTypes) (v : View.t)
      (arg : list (Z * Z)) :
  ShapeTracker.views st = below ++ [IsView v] ->
  View_wf v ->
  List.length arg = List.length (View.shape v) ->
  nonempty_windows arg ->
  exists v1 v2 guard,
    View.init (window_shape arg) (View.strides v)
              (View.offset v + window_offset (View.strides v) arg) = Ok v1
    /\ View.init (window_shape arg) (strides_for_shape (window_shape arg)) 0 = Ok v2
    /\ ZeroView.expr_node (ZeroView.init (View.shape v) arg) None None = Ok guard
    /\ ShapeTracker.shrink st arg
       = Ok (ShapeTracker.mk
               (if Symbolic.min guard =? 0
                then below ++ [IsView v1;
                               IsZeroView (ZeroView.init (View.shape v) arg);
                               IsView v2]
                else below ++ [IsView v1])).
Proof.
  intros Hviews Hv Hlen Hne. destruct st as [vs]. simpl in Hviews. subst vs.
  pose proof (View_wf_lengths v Hv) as Hl.
  destruct (View_init_ok (window_shape arg) (View.strides v)
              (View.offset v + window_offset (View.strides v) arg))
    as (v1 & I1 & S1 & _).
  { rewrite window_shape_length. lia. }
  destruct (View_init_ok (window_shape arg) (strides_for_shape (window_shape arg)) 0)
    as (v2 & I2 & _).
  { apply strides_for_shape_length. }
  destruct (ZeroView_expr_node_total (ZeroView.init (View.shape v) arg) None None)
    as [guard G].
  { simpl. apply window_shape_positive. exact Hne. }
  exists v1, v2, guard. repeat split; try assumption.
  unfold ShapeTracker.shrink, ShapeTracker.shape, ShapeTracker.strides,
    ShapeTracker.offset, ShapeTracker.top, ShapeTracker.set_top.
  simpl. rewrite !unsnoc_snoc. simpl.
  rewrite Hlen, Nat.eqb_refl. simpl.
  rewrite <- Hlen, offset_terms by lia. simpl.
  fold (window_shape arg). fold (window_offset (View.strides v) arg).
  rewrite I1. simpl. rewrite G. simpl.
  destruct (Symbolic.min guard =? 0); [|reflexivity].
  rewrite unsnoc_snoc. simpl. rewrite S1, I2. simpl.
  rewrite <- app_assoc. reflexivity.
Qed.

(** No check is added for a dimension whose window lies within the old
    extent. *)
Lemma ZeroView_loop_in_range (idx : Node) (dims : list (Z * Z * (Z * Z))) :
  Forall (fun p => 0 < snd (fst p)
                   /\ 0 <= fst (snd p) /\ snd (snd p) <= fst (fst p)) dims ->
  forall acc expr, 0 < acc ->
  ZeroView.expr_node_loop idx dims acc expr = Ok expr.
Proof.
  induction 1 as [|[[s ns] [x y]] dims H Hd IH]; intros acc expr Ha; simpl;
    [reflexivity|].
  simpl in H. destruct H as (Hns & Hx & Hy).
  destruct (floordiv_total idx acc Ha) as [q Eq].
  destruct (mod_total q ns Hns) as [m Em].
  rewrite Eq. simpl. rewrite Em. simpl.
  replace (x <? 0) with false by (symmetry; apply Z.ltb_ge; lia).
  replace (s <? y) with false by (symmetry; apply Z.ltb_ge; lia).
  simpl. rewrite app_nil_r. apply IH. nia.
Qed.

Lemma in_range_nonempty (shape : list Z) (arg : list (Z * Z)) :
  List.length arg = List.length shape -> in_range shape arg ->
  nonempty_windows arg.
Proof.
  revert shape. induction arg as [|[x y] arg IH]; intros [|s shape] L H;
    try discriminate; [constructor|].
  inversion H as [|? ? H1 H2]; subst. simpl in H1.
  constructor; [simpl; lia|]. apply (IH shape); [simpl in L; lia | exact H2].
Qed.

Lemma in_range_dims (shape : list Z) (arg : list (Z * Z)) :
  in_range shape arg ->
  Forall (fun p : Z * Z * (Z * Z) =>
            0 < snd (fst p) /\ 0 <= fst (snd p) /\ snd (snd p) <= fst (fst p))
         (zip3 shape (window_shape arg) arg).
Proof.
  unfold zip3. revert arg.
  induction shape as [|s shape IH]; intros [|[x y] arg] H; simpl;
    try constructor.
  - inversion H as [|? ? H1 H2]; subst. simpl in *. lia.
  - inversion H as [|? ? H1 H2]; subst. apply IH. exact H2.
Qed.

Lemma ZeroView_in_range_guard (shape : list Z) (arg : list (Z * Z)) :
  in_range shape arg ->
  ZeroView.expr_node (ZeroView.init shape arg) None None = Ok (NumNode 1).
Proof.
  intros H. unfold ZeroView.expr_node. simpl.
  rewrite ZeroView_loop_in_range; [reflexivity | | lia].
  apply Forall_rev. apply in_range_dims. exact H.
Qed.

Lemma wf_top (st : ShapeTracker.t) :
  ShapeTracker_wf st ->
  exists below v,
    ShapeTracker.views st = below ++ [IsView v]
    /\ View_wf v /\ Forall ViewTypes_wf below
    /\ ShapeTracker.top st = Ok (IsView v)
    /\ ShapeTracker.shape st = Ok (View.shape v)
    /\ ShapeTracker.strides st = Ok (View.strides v)
    /\ ShapeTracker.offset st = Ok (View.offset v).
Proof.
  intros [Hall (below & v & Hviews)]. exists below, v.
  rewrite Hviews in Hall. apply Forall_app in Hall as [Hb Hv].
  inversion Hv as [|? ? Hv' _]; subst.
  unfold ShapeTracker.shape, ShapeTracker.strides, ShapeTracker.offset,
    ShapeTracker.top.
  rewrite Hviews, unsnoc_snoc. simpl.
  split; [reflexivity|]. split; [exact Hv'|]. split; [exact Hb|]. repeat split.
Qed.

Lemma needs_valid_top (below : list ViewTypes) (v v' : View.t) :
  ShapeTracker.needs_valid (ShapeTracker.mk (below ++ [IsView v']))
  = ShapeTracker.needs_valid (ShapeTracker.mk (below ++ [IsView v])).
Proof.
  unfold ShapeTracker.needs_valid. simpl. rewrite !existsb_app. reflexivity.
Qed.

(** ** C3: [shrink] within the old extent *)

Lemma flat3_wf : ShapeTracker_wf flat3.
Proof. concrete_wf. Defined.

(** On [new((3,))], the window (1,2) has size 1 and the constructor of the
    new view sets its stride to 0; the empty window (1,1) makes the validity
    predicate take a modulo by 0, which is fatal. *)
Lemma shrink_claim_counterexample :
  ShapeTracker.new [3] = Ok flat3
  /\ ~ shrink_claim_as_stated flat3 [(1, 2)]
  /\ ~ shrink_claim_as_stated flat3 [(1, 1)].
Proof.
  split; [reflexivity|]. split; intros H.
  - destruct (H [3] [1] 0 eq_refl eq_refl eq_refl eq_refl) as (st' & E & _ & S & _).
    { concrete_forall. }
    vm_compute in E. injection E as <-. vm_compute in S. discriminate.
  - destruct (H [3] [1] 0 eq_refl eq_refl eq_refl eq_refl) as (st' & E & _).
    { concrete_forall. }
    vm_compute in E. discriminate.
Qed.

(** C3, amended.  For every well-formed ShapeTracker and every bounds tuple
    with [0 <= lo_i < hi_i <= shape[i]] in every dimension, [shrink] replaces
    the top view with shape [(hi_i - lo_i, ...)], keeps each stride except
    that a dimension of new size 1 gets stride 0, adds the sum of
    [strides[i] * lo_i] to the offset, and appends no ZeroView: the number of
    views is unchanged and [needs_valid()] keeps its prior value. *)
Theorem shrink_in_range
        (st : ShapeTracker.t) (sh sts : list Z) (off : Z) (arg : list (Z * Z)) :
  ShapeTracker_wf st ->
  ShapeTracker.shape st = Ok sh ->
  ShapeTracker.strides st = Ok sts ->
  ShapeTracker.offset st = Ok off ->
  List.length arg = List.length sh ->
  in_range sh arg ->
  exists st',
    ShapeTracker.shrink st arg = Ok st'
    /\ ShapeTracker.shape st' = Ok (window_shape arg)
    /\ ShapeTracker.strides st' = Ok (normalize sts (window_shape arg))
    /\ ShapeTracker.offset st' = Ok (off + window_offset sts arg)
    /\ List.length (ShapeTracker.views st') = List.length (ShapeTracker.views st)
    /\ ShapeTracker.needs_valid st' = ShapeTracker.needs_valid st.
Proof.
  intros Hwf Hsh Hsts Hoff Hlen Hin.
  destruct (wf_top st Hwf) as (below & v & Hviews & Hv & _ & _ & Es & Et & Eo).
  rewrite Es in Hsh. rewrite Et in Hsts. rewrite Eo in Hoff.
  injection Hsh as <-. injection Hsts as <-. injection Hoff as <-.
  destruct (shrink_unfold st below v arg Hviews Hv Hlen
              (in_range_nonempty _ _ Hlen Hin))
    as (v1 & v2 & guard & I1 & _ & G & E).
  rewrite (ZeroView_in_range_guard _ _ Hin) in G. injection G as <-.
  simpl in E.
  destruct (View_init_ok (window_shape arg) (View.strides v)
              (View.offset v + window_offset (View.strides v) arg))
    as (v1' & I1' & S1 & S2 & S3 & _).
  { rewrite window_shape_length, Hlen, (View_wf_lengths v Hv). lia. }
  rewrite I1 in I1'. injection I1' as <-.
  exists (ShapeTracker.mk (below ++ [IsView v1])).
  split; [exact E|].
  unfold ShapeTracker.shape, ShapeTracker.strides, ShapeTracker.offset,
    ShapeTracker.top. simpl. rewrite unsnoc_snoc. simpl.
  rewrite S1, S2, S3, Hviews, !length_app.
  repeat split. destruct st as [vs]. simpl in Hviews. subst vs.
  apply needs_valid_top.
Qed.

Lemma shrink_in_range_witness :
  ShapeTracker_wf flat3
  /\ in_range [3] [(1, 3)]
  /\ exists st',
       ShapeTracker.shrink flat3 [(1, 3)] = Ok st'
       /\ ShapeTracker.shape st' = Ok [2]
       /\ ShapeTracker.strides st' = Ok [1]
       /\ ShapeTracker.offset st' = Ok 1
       /\ List.length (ShapeTracker.views st') = 1%nat
       /\ ShapeTracker.needs_valid st' = false.
Proof.
  assert (R : in_range [3] [(1, 3)]) by (unfold in_range; concrete_forall).
  split; [exact flat3_wf|]. split; [exact R|].
  exact (shrink_in_range flat3 [3] [1] 0 [(1, 3)] flat3_wf
           eq_refl eq_refl eq_refl eq_refl R).
Defined.

(** ** C4: [shrink] with bounds out of range *)

(** [new((3,)).shrink(((-1,4),))] completes: it is the padding of one element
    on either side. *)
Lemma shrink_rejects_counterexample :
  out_of_range [3] [(-1, 4)]
  /\ is_ok (ShapeTracker.shrink flat3 [(-1, 4)]) = true
  /\ ~ shrink_rejects_as_stated flat3 [(-1, 4)].
Proof.
  assert (O : out_of_range [3] [(-1, 4)]).
  { apply Exists_cons_hd. simpl. lia. }
  split; [exact O|]. split; [reflexivity|].
  intros H. specialize (H [3] eq_refl eq_refl O).
  vm_compute in H. discriminate.
Qed.

(** C4, amended.  [shrink] does not check its bounds against the shape.  On
    a well-formed ShapeTracker a bounds tuple with one non-empty window
    [(lo_i, hi_i)], [lo_i < hi_i], per dimension makes the call complete
    normally, in range or not; the argument check that raises a fatal
    assertion is the one of the length of the tuple against the rank. *)
Theorem shrink_checks_rank_only
        (st : ShapeTracker.t) (sh : list Z) (arg : list (Z * Z)) :
  ShapeTracker_wf st ->
  ShapeTracker.shape st = Ok sh ->
  (List.length arg <> List.length sh ->
   ShapeTracker.shrink st arg = Raise AssertionError)
  /\ (List.length arg = List.length sh -> nonempty_windows arg ->
      exists st', ShapeTracker.shrink st arg = Ok st').
Proof.
  intros Hwf Hsh.
  destruct (wf_top st Hwf) as (below & v & Hviews & Hv & _ & _ & Es & _).
  split.
  - intros Hlen. unfold ShapeTracker.shrink. rewrite Hsh. simpl.
    apply Nat.eqb_neq in Hlen. rewrite Hlen. reflexivity.
  - intros Hlen Hne. rewrite Es in Hsh. injection Hsh as <-.
    destruct (shrink_unfold st below v arg Hviews Hv Hlen Hne)
      as (v1 & v2 & guard & _ & _ & _ & E).
    eexists. exact E.
Qed.

Lemma shrink_checks_rank_only_witness :
  ShapeTracker_wf flat3
  /\ out_of_range [3] [(-1, 4)]
  /\ nonempty_windows [(-1, 4)]
  /\ (exists st', ShapeTracker.shrink flat3 [(-1, 4)] = Ok st')
  /\ ShapeTracker.shrink flat3 [(0, 1); (0, 1)] = Raise AssertionError.
Proof.
  assert (N : nonempty_windows [(-1, 4)]) by (unfold nonempty_windows; concrete_forall).
  split; [exact flat3_wf|].
  split; [apply Exists_cons_hd; simpl; lia|].
  split; [exact N|]. split.
  - exact (proj2 (shrink_checks_rank_only flat3 [3] [(-1, 4)] flat3_wf eq_refl)
             eq_refl N).
  - apply (proj1 (shrink_checks_rank_only flat3 [3] [(0, 1); (0, 1)] flat3_wf eq_refl)).
    discriminate.
Defined.

(** ** C5: [pad] *)

Lemma guards_conjuncts (expr : list Node) :
  forallb is_guard expr = true -> flat_map conjuncts expr = expr.
Proof.
  induction expr as [|c expr IH]; simpl; intros H; [reflexivity|].
  apply andb_prop in H as [H1 H2]. rewrite (IH H2).
  destruct c; simpl in *; try discriminate; reflexivity.
Qed.

Lemma guards_kept (expr : list Node) :
  forallb is_guard expr = true ->
  filter (fun c => negb (is_num 1 c)) expr = expr.
Proof.
  induction expr as [|c expr IH]; simpl; intros H; [reflexivity|].
  apply andb_prop in H as [H1 H2]. rewrite (IH H2).
  destruct c; simpl in *; try discriminate; try reflexivity.
  apply Z.eqb_eq in H1. subst. reflexivity.
Qed.

Lemma guard_min (c : Node) : is_guard c = true -> Symbolic.min c = 0.
Proof.
  destruct c; simpl; try discriminate; try reflexivity.
  intros H. apply Z.eqb_eq in H. exact H.
Qed.

Lemma ands_guards_min (expr : list Node) :
  forallb is_guard expr = true -> expr <> [] -> Symbolic.min (ands expr) = 0.
Proof.
  intros H Hne. unfold ands. rewrite (guards_conjuncts expr H).
  destruct (existsb (is_num 0) expr); [reflexivity|].
  rewrite (guards_kept expr H).
  destruct expr as [|c [|c' expr]]; [congruence | | reflexivity].
  simpl in H. rewrite andb_true_r in H. apply guard_min. exact H.
Qed.

Lemma prod_positive (l : list Z) : positive_shape l -> 1 <= prod l.
Proof.
  induction 1 as [|d l Hd Hl IH]; [simpl; lia|].
  change (prod (d :: l)) with (d * prod l). nia.
Qed.

Lemma prod_app (l1 l2 : list Z) : prod (l1 ++ l2) = prod l1 * prod l2.
Proof.
  induction l1 as [|d l1 IH].
  - change (prod ([] ++ l2)) with (prod l2). change (prod []) with 1. lia.
  - change (prod ((d :: l1) ++ l2)) with (d * prod (l1 ++ l2)).
    change (prod (d :: l1)) with (d * prod l1). rewrite IH. lia.
Qed.

Lemma prod_rev (l : list Z) : prod (rev l) = prod l.
Proof.
  induction l as [|d l IH]; [reflexivity|].
  change (rev (d :: l)) with (rev l ++ [d]).
  change (prod (d :: l)) with (d * prod l).
  rewrite prod_app, IH. change (prod [d]) with (d * 1). lia.
Qed.

Lemma add_mod_node (q : Node) (ns x : Z) :
  add (ModNode q ns) x
  = if x =? 0 then ModNode q ns else SumNode [ModNode q ns; NumNode x].
Proof.
  unfold add, sum. simpl. destruct (x =? 0); reflexivity.
Qed.

Lemma add_mod_node_bounds (q : Node) (ns x : Z) :
  Symbolic.min (add (ModNode q ns) x) = x
  /\ Symbolic.max (add (ModNode q ns) x) = ns - 1 + x.
Proof.
  rewrite add_mod_node. destruct (x =? 0) eqn:E.
  - apply Z.eqb_eq in E. subst. unfold Symbolic.min, Symbolic.max. simpl. lia.
  - unfold Symbolic.min, Symbolic.max. simpl. lia.
Qed.

(** With the index variable bounded by the product [P] of the padded shape,
    every check that the loop of [ZeroView.expr_node] adds is undecided or
    refuted, and a dimension with padding adds one. *)
Lemma ZeroView_loop_guards (P : Z) (dims : list (Z * Z * (Z * Z))) :
  window_dims dims ->
  forall acc expr,
    0 < acc ->
    acc * prod (map (fun p => snd (fst p)) dims) = P ->
    forallb is_guard expr = true ->
    exists expr',
      ZeroView.expr_node_loop (VarNode "idx" 0 P) dims acc expr = Ok expr'
      /\ forallb is_guard expr' = true
      /\ (expr <> [] \/ Exists pads dims -> expr' <> []).
Proof.
  induction 1 as [|[[s ns] [x y]] dims H Hd IH]; intros acc expr Ha HP Hg; simpl.
  - exists expr. repeat split; [assumption|].
    intros [Hne|Hex]; [assumption | inversion Hex].
  - simpl in H, HP. destruct H as [Hns Hw].
    assert (HR : 1 <= prod (map (fun p : Z * Z * (Z * Z) => snd (fst p)) dims)).
    { apply prod_positive. clear -Hd.
      induction Hd as [|p dims [Hp _] _ IH]; simpl; constructor; [lia | exact IH]. }
    set (R := prod (map (fun p : Z * Z * (Z * Z) => snd (fst p)) dims)) in *.
    change (acc * (ns * R) = P) in HP.
    assert (HnsR : 1 <= ns * R) by nia.
    assert (HaP : acc <= P) by (rewrite <- HP; nia).
    assert (Hq : floordiv (VarNode "idx" 0 P) acc = Ok (DivNode (VarNode "idx" 0 P) acc)).
    { unfold floordiv. simpl.
      replace (acc <=? 0) with false by (symmetry; apply Z.leb_gt; lia).
      replace (Symbolic.max (VarNode "idx" 0 P) <? acc) with false; [reflexivity|].
      symmetry. apply Z.ltb_ge. unfold Symbolic.max. simpl. exact HaP. }
    assert (Hdiv : P / acc = ns * R).
    { rewrite <- HP. rewrite Z.mul_comm, Z.div_mul; lia. }
    assert (Hm : mod_ (DivNode (VarNode "idx" 0 P) acc) ns
                 = Ok (ModNode (DivNode (VarNode "idx" 0 P) acc) ns)).
    { simpl.
      replace (ns <=? 0) with false by (symmetry; apply Z.leb_gt; lia).
      replace (Symbolic.max (DivNode (VarNode "idx" 0 P) acc) <? ns) with false;
        [reflexivity|].
      symmetry. apply Z.ltb_ge. unfold Symbolic.max. simpl. rewrite Hdiv. nia. }
    rewrite Hq. cbn [bind]. rewrite Hm. cbn [bind].
    set (base := add (ModNode (DivNode (VarNode "idx" 0 P) acc) ns) x).
    destruct (add_mod_node_bounds (DivNode (VarNode "idx" 0 P) acc) ns x)
      as [Bmin Bmax].
    fold base in Bmin, Bmax.
    set (checks := (if x <? 0 then [ge base 0] else [])
                   ++ (if s <? y then [lt base s] else [])).
    assert (Hc : forallb is_guard checks = true
                 /\ (pads (s, ns, (x, y)) -> checks <> [])).
    { unfold checks, pads. simpl.
      destruct (x <? 0) eqn:Ex; destruct (s <? y) eqn:Ey; simpl;
        try apply Z.ltb_lt in Ex; try apply Z.ltb_lt in Ey;
        try apply Z.ltb_ge in Ex; try apply Z.ltb_ge in Ey;
        unfold ge, lt; rewrite ?Bmin, ?Bmax;
        try replace (0 <=? x) with false by (symmetry; apply Z.leb_gt; lia);
        try replace (ns - 1 + x <? s) with false by (symmetry; apply Z.ltb_ge; lia);
        repeat match goal with
               | |- context [if ?c then _ else _] => destruct c
               end;
        simpl; split; try reflexivity; try discriminate; lia. }
    destruct Hc as [Hc1 Hc2].
    destruct (IH (acc * ns) (expr ++ checks)) as (expr' & E1 & E2 & E3).
    { nia. }
    { fold R. rewrite <- HP. lia. }
    { rewrite forallb_app, Hg, Hc1. reflexivity. }
    exists expr'. split; [exact E1|]. split; [exact E2|].
    intros Hor. apply E3. clearbody checks. clear Bmin Bmax Hc1. clearbody base.
    destruct Hor as [Hne|Hex].
    + left. destruct expr; [congruence | discriminate].
    + inversion Hex as [? ? Hp | ? ? Hp]; subst.
      * left. specialize (Hc2 Hp). destruct expr; [exact Hc2 | discriminate].
      * right. exact Hp.
Qed.

Lemma pad_bounds_facts (sh : list Z) (arg : list (Z * Z)) :
  List.length arg = List.length sh ->
  positive_shape sh -> nonnegative_pads arg ->
  List.length (pad_bounds sh arg) = List.length sh
  /\ nonempty_windows (pad_bounds sh arg)
  /\ window_shape (pad_bounds sh arg) = padded_shape sh arg
  /\ window_dims (zip3 sh (window_shape (pad_bounds sh arg)) (pad_bounds sh arg))
  /\ map (fun p : Z * Z * (Z * Z) => snd (fst p))
         (zip3 sh (window_shape (pad_bounds sh arg)) (pad_bounds sh arg))
     = window_shape (pad_bounds sh arg)
  /\ (some_positive_pad arg ->
      Exists pads (zip3 sh (window_shape (pad_bounds sh arg)) (pad_bounds sh arg))).
Proof.
  unfold pad_bounds, padded_shape, window_shape, zip3, nonempty_windows,
    window_dims, some_positive_pad.
  intros L Hp. revert arg L.
  induction Hp as [|s sh Hs Hsh IH]; intros [|[b e] arg] L Hn; try discriminate.
  - simpl. repeat split; try constructor. intros H. inversion H.
  - inversion Hn as [|? ? Hbe Hn']; subst. simpl in Hbe.
    simpl in L. injection L as L.
    destruct (IH arg L Hn') as (I1 & I2 & I3 & I4 & I5 & I6).
    simpl. repeat split.
    + f_equal. exact I1.
    + constructor; [simpl; lia | exact I2].
    + f_equal; [lia | exact I3].
    + constructor; [simpl; lia | exact I4].
    + f_equal. exact I5.
    + intros H. inversion H as [? ? H1 | ? ? H1]; subst.
      * apply Exists_cons_hd. unfold pads. simpl in *. lia.
      * apply Exists_cons_tl. apply I6. exact H1.
Qed.

Lemma pad_guard (sh : list Z) (arg : list (Z * Z)) :
  List.length arg = List.length sh ->
  positive_shape sh -> nonnegative_pads arg -> some_positive_pad arg ->
  exists guard,
    ZeroView.expr_node (ZeroView.init sh (pad_bounds sh arg)) None None = Ok guard
    /\ Symbolic.min guard = 0.
Proof.
  intros L Hp Hn Hs.
  destruct (pad_bounds_facts sh arg L Hp Hn) as (F1 & F2 & F3 & F4 & F5 & F6).
  unfold ZeroView.expr_node, ZeroView.default_idx. simpl.
  fold (window_shape (pad_bounds sh arg)).
  set (P := prod (window_shape (pad_bounds sh arg))).
  assert (HP : 1 <= P).
  { apply prod_positive. apply window_shape_positive. exact F2. }
  unfold var. replace (0 <? P) with true by (symmetry; apply Z.ltb_lt; lia).
  destruct (ZeroView_loop_guards P
              (rev (zip3 sh (window_shape (pad_bounds sh arg)) (pad_bounds sh arg))))
    with (acc := 1) (expr := @nil Node) as (expr' & E1 & E2 & E3).
  { apply Forall_rev. exact F4. }
  { lia. }
  { rewrite map_rev, prod_rev, F5. unfold P. lia. }
  { reflexivity. }
  rewrite E1. simpl. exists (ands expr'). split; [reflexivity|].
  apply ands_guards_min; [exact E2|]. apply E3. right.
  apply Exists_rev. apply F6. exact Hs.
Qed.

Lemma nonnegative_pads_check (arg : list (Z * Z)) :
  nonnegative_pads arg ->
  forallb (fun '(b, e) => (0 <=? b) && (0 <=? e)) arg = true.
Proof.
  induction 1 as [|[b e] arg [Hb He] _ IH]; simpl; [reflexivity|].
  simpl in Hb, He. rewrite IH.
  apply Z.leb_le in Hb, He. rewrite Hb, He. reflexivity.
Qed.

(** C5.  For every well-formed ShapeTracker and every non-negative pad
    amounts [(before_i, after_i)], one pair per dimension and at least one
    entry positive, [pad] is the generalized [shrink] with bounds
    [((-before_i, shape[i] + after_i), ...)]: the top view is updated, a
    ZeroView over the old shape and a fresh identity View of the new shape
    [(before_i + shape[i] + after_i, ...)] are appended, and [needs_valid()]
    is true.  In particular [new((3,)).pad(((1,1),))] has shape (5,) and
    [needs_valid() == true]. *)
Theorem pad_appends_zeroview :
  (forall (st : ShapeTracker.t) (sh : list Z) (arg : list (Z * Z)),
      ShapeTracker_wf st ->
      ShapeTracker.shape st = Ok sh ->
      List.length arg = List.length sh ->
      nonnegative_pads arg ->
      some_positive_pad arg ->
      exists st' below top v1 v2,
        ShapeTracker.pad st arg = ShapeTracker.shrink st (pad_bounds sh arg)
        /\ ShapeTracker.pad st arg = Ok st'
        /\ ShapeTracker.views st = below ++ [top]
        /\ ShapeTracker.views st'
           = below ++ [IsView v1;
                       IsZeroView (ZeroView.init sh (pad_bounds sh arg));
                       IsView v2]
        /\ View.init (padded_shape sh arg)
                     (strides_for_shape (padded_shape sh arg)) 0 = Ok v2
        /\ ShapeTracker.shape st' = Ok (padded_shape sh arg)
        /\ ShapeTracker.needs_valid st' = true)
  /\ (exists st st',
        ShapeTracker.new [3] = Ok st
        /\ ShapeTracker.pad st [(1, 1)] = Ok st'
        /\ ShapeTracker.shape st' = Ok [5]
        /\ ShapeTracker.needs_valid st' = true).
Proof.
  split.
  - intros st sh arg Hwf Hsh Hlen Hn Hs.
    destruct (wf_top st Hwf) as (below & v & Hviews & Hv & _ & _ & Es & _).
    rewrite Es in Hsh. injection Hsh as <-.
    destruct Hv as [Hpos Hinit].
    destruct (pad_bounds_facts (View.shape v) arg Hlen Hpos Hn)
      as (F1 & F2 & F3 & _).
    destruct (shrink_unfold st below v (pad_bounds (View.shape v) arg) Hviews
                (conj Hpos Hinit) F1 F2)
      as (v1 & v2 & guard & I1 & I2 & G & E).
    destruct (pad_guard (View.shape v) arg Hlen Hpos Hn Hs) as (guard' & G' & Hmin).
    rewrite G in G'. injection G' as <-. rewrite Hmin in E. simpl in E.
    assert (Epad : ShapeTracker.pad st arg
                   = ShapeTracker.shrink st (pad_bounds (View.shape v) arg)).
    { unfold ShapeTracker.pad. rewrite Es. simpl.
      rewrite (nonnegative_pads_check arg Hn), Hlen, Nat.eqb_refl. reflexivity. }
    eexists _, below, (IsView v), v1, v2.
    split; [exact Epad|]. split; [rewrite Epad; exact E|].
    split; [exact Hviews|]. split; [reflexivity|].
    split; [rewrite <- F3; exact I2|].
    destruct (View_init_ok (window_shape (pad_bounds (View.shape v) arg))
                (strides_for_shape (window_shape (pad_bounds (View.shape v) arg))) 0
                (strides_for_shape_length _))
      as (v2' & I2' & S2 & _).
    rewrite I2 in I2'. injection I2' as <-.
    split.
    + unfold ShapeTracker.shape, ShapeTracker.top. simpl.
      change (below ++ [IsView v1; IsZeroView (ZeroView.init (View.shape v)
                (pad_bounds (View.shape v) arg)); IsView v2])
        with (below ++ [IsView v1; IsZeroView (ZeroView.init (View.shape v)
                (pad_bounds (View.shape v) arg))] ++ [IsView v2]).
      rewrite app_assoc, unsnoc_snoc. simpl. rewrite S2, F3. reflexivity.
    + unfold ShapeTracker.needs_valid. simpl. rewrite existsb_app. simpl.
      apply orb_true_r.
  - eexists _, _. repeat split.
Qed.

Lemma pad_appends_zeroview_witness :
  ShapeTracker_wf flat3
  /\ nonnegative_pads [(1, 1)]
  /\ some_positive_pad [(1, 1)]
  /\ exists st', ShapeTracker.pad flat3 [(1, 1)] = Ok st'
                 /\ ShapeTracker.shape st' = Ok [5]
                 /\ ShapeTracker.needs_valid st' = true.
Proof.
  assert (N : nonnegative_pads [(1, 1)]) by (unfold nonnegative_pads; concrete_forall).
  assert (S : some_positive_pad [(1, 1)]) by (apply Exists_cons_hd; simpl; lia).
  split; [exact flat3_wf|]. split; [exact N|]. split; [exact S|].
  destruct (proj1 pad_appends_zeroview flat3 [3] [(1, 1)] flat3_wf
              eq_refl eq_refl N S)
    as (st' & below & top & v1 & v2 & _ & E & _ & _ & _ & Hshape & Hvalid).
  exists st'. repeat split; assumption.
Defined.

(** ** C6: [stride] *)

Lemma ceil_div_formula (a b : Z) : 0 < b -> (a + (b - 1)) / b = ceil_div a b.
Proof.
  intros Hb. unfold ceil_div.
  pose proof (Z.div_mod (- a) b ltac:(lia)) as D.
  pose proof (Z.mod_pos_bound (- a) b Hb) as B.
  symmetry. apply (Z.div_unique _ _ _ (b - 1 - (- a) mod b)); lia.
Qed.

Lemma stride_shape_is_ceil (sh mul : list Z) :
  nonzero mul ->
  stride_shape sh mul = map (fun '(s, m) => ceil_div s (Z.abs m)) (combine sh mul).
Proof.
  intros H. unfold stride_shape. revert sh.
  induction H as [|m mul Hm _ IH]; intros [|s sh]; simpl; try reflexivity.
  rewrite IH, ceil_div_formula by lia. reflexivity.
Qed.

Lemma nonzero_check (sh mul : list Z) :
  nonzero mul -> existsb (fun '(_, m) => m =? 0) (combine sh mul) = false.
Proof.
  intros H. revert sh. induction H as [|m mul Hm _ IH]; intros [|s sh]; simpl;
    try reflexivity.
  rewrite IH. apply Z.eqb_neq in Hm. rewrite Hm. reflexivity.
Qed.

Lemma stride_unfold (st : ShapeTracker.t) (below : list ViewTypes) (v : View.t)
      (mul : list Z) :
  ShapeTracker.views st = below ++ [IsView v] ->
  View_wf v ->
  List.length mul = List.length (View.shape v) ->
  nonzero mul ->
  exists v',
    View.init (stride_shape (View.shape v) mul)
              (stride_strides (View.strides v) mul)
              (View.offset v + stride_offset (View.shape v) (View.strides v) mul)
    = Ok v'
    /\ View.shape v' = stride_shape (View.shape v) mul
    /\ View.strides v'
       = normalize (stride_strides (View.strides v) mul)
                   (stride_shape (View.shape v) mul)
    /\ View.offset v'
       = View.offset v + stride_offset (View.shape v) (View.strides v) mul
    /\ View.init (View.shape v') (View.strides v') (View.offset v') = Ok v'
    /\ ShapeTracker.stride st mul = Ok (ShapeTracker.mk (below ++ [IsView v'])).
Proof.
  intros Hviews Hv Hlen Hnz. destruct st as [vs]. simpl in Hviews. subst vs.
  pose proof (View_wf_lengths v Hv) as Hl.
  destruct (View_init_ok (stride_shape (View.shape v) mul)
              (stride_strides (View.strides v) mul)
              (View.offset v + stride_offset (View.shape v) (View.strides v) mul))
    as (v' & I & S1 & S2 & S3 & S4).
  { unfold stride_shape, stride_strides.
    rewrite !length_map, !length_combine. lia. }
  exists v'. repeat split; try assumption.
  unfold ShapeTracker.stride, ShapeTracker.shape, ShapeTracker.strides,
    ShapeTracker.offset, ShapeTracker.top, ShapeTracker.set_top.
  simpl. rewrite !unsnoc_snoc. simpl.
  rewrite (nonzero_check _ _ Hnz). simpl.
  fold (stride_shape (View.shape v) mul).
  fold (stride_strides (View.strides v) mul).
  fold (stride_offset (View.shape v) (View.strides v) mul).
  rewrite I. reflexivity.
Qed.

(** [new((2,)).stride((2,))] has shape (1,), and the constructor of the view
    sets the stride of a dimension of size 1 to 0, not to 1 * 2. *)
Lemma stride_claim_counterexample :
  ShapeTracker.new [2] = Ok flat2
  /\ (st' <- ShapeTracker.stride flat2 [2] ;; ShapeTracker.strides st') = Ok [0]
  /\ stride_strides [1] [2] = [2]
  /\ ~ stride_claim_as_stated flat2 [2].
Proof.
  repeat split. intros H.
  destruct (H [2] [1] 0 eq_refl eq_refl eq_refl eq_refl) as (st' & E & _ & S & _).
  { constructor; [lia | constructor]. }
  vm_compute in E. injection E as <-. vm_compute in S. discriminate.
Qed.

(** C6, amended.  For every well-formed ShapeTracker and every tuple [mul]
    of non-zero integers, one per dimension, [stride(mul)] replaces the top
    view with [shape[i] = ceil(old_shape[i] / |mul[i]|)], with
    [strides[i] = old_strides[i] * mul[i]] in every dimension whose new size
    is not 1 and [strides[i] = 0] where the new size is 1, and with
    [offset = old_offset] plus the sum over the dimensions with [mul[i] < 0]
    of [(old_shape[i] - 1) * old_strides[i]].  In particular
    [new((10,)).stride((2,))] yields shape (5,), stride (2,), offset 0. *)
Theorem stride_replaces_top :
  (forall (st : ShapeTracker.t) (sh sts : list Z) (off : Z) (mul : list Z),
      ShapeTracker_wf st ->
      ShapeTracker.shape st = Ok sh ->
      ShapeTracker.strides st = Ok sts ->
      ShapeTracker.offset st = Ok off ->
      List.length mul = List.length sh ->
      nonzero mul ->
      exists st',
        ShapeTracker.stride st mul = Ok st'
        /\ List.length (ShapeTracker.views st') = List.length (ShapeTracker.views st)
        /\ ShapeTracker.shape st'
           = Ok (map (fun '(s, m) => ceil_div s (Z.abs m)) (combine sh mul))
        /\ ShapeTracker.strides st'
           = Ok (map (fun '(z, n) => if n =? 1 then 0 else z)
                     (combine (stride_strides sts mul)
                              (map (fun '(s, m) => ceil_div s (Z.abs m))
                                   (combine sh mul))))
        /\ ShapeTracker.offset st' = Ok (off + stride_offset sh sts mul))
  /\ (exists st st',
        ShapeTracker.new [10] = Ok st
        /\ ShapeTracker.stride st [2] = Ok st'
        /\ ShapeTracker.shape st' = Ok [5]
        /\ ShapeTracker.strides st' = Ok [2]
        /\ ShapeTracker.offset st' = Ok 0).
Proof.
  split.
  - intros st sh sts off mul Hwf Hsh Hsts Hoff Hlen Hnz.
    destruct (wf_top st Hwf) as (below & v & Hviews & Hv & _ & _ & Es & Et & Eo).
    rewrite Es in Hsh. rewrite Et in Hsts. rewrite Eo in Hoff.
    injection Hsh as <-. injection Hsts as <-. injection Hoff as <-.
    destruct (stride_unfold st below v mul Hviews Hv Hlen Hnz)
      as (v' & _ & S1 & S2 & S3 & _ & E).
    exists (ShapeTracker.mk (below ++ [IsView v'])).
    split; [exact E|].
    unfold ShapeTracker.shape, ShapeTracker.strides, ShapeTracker.offset,
      ShapeTracker.top. simpl. rewrite unsnoc_snoc. simpl.
    rewrite S1, S2, S3, Hviews, !length_app, <- (stride_shape_is_ceil _ _ Hnz).
    repeat split.
  - eexists _, _. repeat split.
Qed.

Lemma stride_replaces_top_witness :
  ShapeTracker_wf flat3
  /\ nonzero [-2]
  /\ exists st',
       ShapeTracker.stride flat3 [-2] = Ok st'
       /\ List.length (ShapeTracker.views st') = 1%nat
       /\ ShapeTracker.shape st' = Ok [2]
       /\ ShapeTracker.strides st' = Ok [-2]
       /\ ShapeTracker.offset st' = Ok 2.
Proof.
  assert (N : nonzero [-2]) by (constructor; [lia | constructor]).
  split; [exact flat3_wf|]. split; [exact N|].
  exact (proj1 stride_replaces_top flat3 [3] [1] 0 [-2] flat3_wf
           eq_refl eq_refl eq_refl eq_refl N).
Defined.

(** ** C7: [flip] twice *)

Lemma units_nonzero (mul : list Z) : units mul -> nonzero mul.
Proof.
  apply Forall_impl. intros m [H|H]; lia.
Qed.

Lemma stride_shape_units (mul : list Z) :
  units mul -> forall sh, List.length mul = List.length sh ->
  stride_shape sh mul = sh.
Proof.
  unfold stride_shape.
  induction 1 as [|m mul Hm _ IH]; intros [|s sh] L; try discriminate;
    [reflexivity|].
  simpl in L. injection L as L. simpl. rewrite (IH sh L).
  f_equal. destruct Hm as [-> | ->]; simpl; rewrite Z.add_0_r; apply Z.div_1_r.
Qed.

(** After two strides by the same unit multipliers the constructor is handed
    strides that normalize to those of the first view, and the two offset
    corrections cancel. *)
Lemma stride_units_twice_fields (mul : list Z) :
  units mul -> forall sh sts,
    List.length mul = List.length sh -> List.length sts = List.length sh ->
    normalize (stride_strides (normalize (stride_strides sts mul) sh) mul) sh
    = normalize sts sh
    /\ stride_offset sh sts mul
       + stride_offset sh (normalize (stride_strides sts mul) sh) mul = 0.
Proof.
  unfold normalize, stride_strides, stride_offset, zip3.
  induction 1 as [|m mul Hm _ IH]; intros [|s sh] [|z sts] L1 L2;
    try discriminate; [split; reflexivity|].
  simpl in L1, L2. injection L1 as L1. injection L2 as L2.
  destruct (IH sh sts L1 L2) as [I1 I2]. simpl. rewrite I1. split.
  - f_equal. destruct (s =? 1); [reflexivity|]. destruct Hm as [-> | ->]; lia.
  - destruct Hm as [-> | ->]; simpl; [exact I2|].
    destruct (s =? 1) eqn:E; [apply Z.eqb_eq in E|]; lia.
Qed.

Lemma View_init_normalize (shape strides strides' : list Z) (offset : Z) :
  normalize strides shape = normalize strides' shape ->
  View.init shape strides offset = View.init shape strides' offset.
Proof.
  intros H. unfold View.init. rewrite H. reflexivity.
Qed.

Lemma stride_units_twice (st : ShapeTracker.t) (sh mul : list Z) :
  ShapeTracker_wf st ->
  ShapeTracker.shape st = Ok sh ->
  List.length mul = List.length sh ->
  units mul ->
  exists st1,
    ShapeTracker.stride st mul = Ok st1
    /\ ShapeTracker.shape st1 = Ok sh
    /\ ShapeTracker.stride st1 mul = Ok st.
Proof.
  intros Hwf Hsh Hlen Hu.
  destruct (wf_top st Hwf) as (below & v & Hviews & Hv & _ & _ & Es & _).
  rewrite Es in Hsh. injection Hsh as <-.
  pose proof (units_nonzero mul Hu) as Hnz.
  pose proof (stride_shape_units mul Hu (View.shape v) Hlen) as Hshape.
  destruct (stride_unfold st below v mul Hviews Hv Hlen Hnz)
    as (v1 & _ & S1 & S2 & S3 & S4 & E1).
  rewrite Hshape in S1, S2.
  assert (Hv1 : View_wf v1).
  { split; [rewrite S1; apply Hv | exact S4]. }
  destruct (stride_unfold (ShapeTracker.mk (below ++ [IsView v1])) below v1 mul
              eq_refl Hv1 ltac:(rewrite S1; exact Hlen) Hnz)
    as (v2 & I2 & _ & _ & _ & _ & E2).
  exists (ShapeTracker.mk (below ++ [IsView v1])).
  split; [exact E1|]. split.
  { unfold ShapeTracker.shape, ShapeTracker.top. simpl.
    rewrite unsnoc_snoc. simpl. rewrite S1. reflexivity. }
  rewrite E2. destruct st as [vs]. simpl in Hviews. subst vs.
  do 3 f_equal.
  rewrite S1, S2, S3, Hshape in I2.
  destruct (stride_units_twice_fields mul Hu (View.shape v) (View.strides v)
              Hlen (View_wf_lengths v Hv)) as [F1 F2].
  rewrite (View_init_normalize _ _ (View.strides v)) in I2 by exact F1.
  replace (View.offset v + stride_offset (View.shape v) (View.strides v) mul
           + stride_offset (View.shape v)
               (normalize (stride_strides (View.strides v) mul) (View.shape v)) mul)
    with (View.offset v) in I2 by lia.
  destruct Hv as [_ Hinit]. rewrite Hinit in I2. injection I2 as <-. reflexivity.
Qed.

Lemma flip_mul_units (axis : list Z) (rank : nat) : units (flip_mul axis rank).
Proof.
  unfold units, flip_mul. apply Forall_forall. intros m Hin.
  apply in_map_iff in Hin as (i & <- & _).
  destruct (existsb _ axis); [right | left]; reflexivity.
Qed.

(** C7.  [flip] is an involution: for every well-formed ShapeTracker and
    every tuple of axes, [flip(S)] applied twice gives back the tracker it
    started from, so the shape, strides and offset of the top view are
    restored.  In particular [new((5,)).flip((0,))] yields shape (5,), stride
    (-1,), offset 4, and a second [flip((0,))] restores stride (1,) and
    offset 0. *)
Theorem flip_involution :
  (forall (st : ShapeTracker.t) (axis : list Z),
      ShapeTracker_wf st ->
      exists st1,
        ShapeTracker.flip st axis = Ok st1
        /\ ShapeTracker.flip st1 axis = Ok st
        /\ ShapeTracker.shape st1 = ShapeTracker.shape st)
  /\ (exists st st1 st2,
        ShapeTracker.new [5] = Ok st
        /\ ShapeTracker.flip st [0] = Ok st1
        /\ ShapeTracker.shape st1 = Ok [5]
        /\ ShapeTracker.strides st1 = Ok [-1]
        /\ ShapeTracker.offset st1 = Ok 4
        /\ ShapeTracker.flip st1 [0] = Ok st2
        /\ ShapeTracker.shape st2 = Ok [5]
        /\ ShapeTracker.strides st2 = Ok [1]
        /\ ShapeTracker.offset st2 = Ok 0).
Proof.
  split.
  - intros st axis Hwf.
    destruct (wf_top st Hwf) as (below & v & _ & _ & _ & _ & Es & _).
    destruct (stride_units_twice st (View.shape v)
                (flip_mul axis (List.length (View.shape v))) Hwf Es)
      as (st1 & E1 & Hs1 & E2).
    { unfold flip_mul. rewrite length_map, length_seq. reflexivity. }
    { apply flip_mul_units. }
    exists st1. unfold ShapeTracker.flip. rewrite Es, Hs1. simpl.
    fold (flip_mul axis (List.length (View.shape v))).
    repeat split; assumption.
  - eexists _, _, _. repeat split.
Qed.

Lemma transposed23_wf : ShapeTracker_wf transposed23.
Proof. concrete_wf. Defined.

Lemma flip_involution_witness :
  ShapeTracker_wf transposed23
  /\ exists st1,
       ShapeTracker.flip transposed23 [1] = Ok st1
       /\ ShapeTracker.flip st1 [1] = Ok transposed23
       /\ ShapeTracker.shape st1 = ShapeTracker.shape transposed23.
Proof.
  split; [exact transposed23_wf|].
  exact (proj1 flip_involution transposed23 [1] transposed23_wf).
Defined.

(** ** C9: [expand] to a shorter shape *)

Lemma expandable_check (sh new_shape : list Z) :
  expandable sh new_shape ->
  forallb (fun '(x, y) => (x =? y) || (x =? 1)) (combine sh new_shape) = true.
Proof.
  unfold expandable. generalize (combine sh new_shape).
  induction 1 as [|[x y] l H _ IH]; simpl; [reflexivity|].
  rewrite IH. simpl in H.
  destruct H as [-> | ->]; rewrite ?Z.eqb_refl, ?orb_true_r; reflexivity.
Qed.

(** C9.  [expand] checks no rank: on a well-formed ShapeTracker of rank N, a
    tuple [new_shape] of length M < N whose entries each equal the
    corresponding current dimension, or meet a current dimension of size 1,
    raises nothing; the top view is replaced with a view of shape
    [new_shape] and M strides, computed from the first M dimensions only:
    the trailing N - M dimensions are gone. *)
Theorem expand_shorter_shape
        (st : ShapeTracker.t) (sh sts new_shape : list Z) :
  ShapeTracker_wf st ->
  ShapeTracker.shape st = Ok sh ->
  ShapeTracker.strides st = Ok sts ->
  (List.length new_shape < List.length sh)%nat ->
  expandable sh new_shape ->
  exists st',
    ShapeTracker.expand st new_shape = Ok st'
    /\ List.length (ShapeTracker.views st') = List.length (ShapeTracker.views st)
    /\ ShapeTracker.shape st' = Ok new_shape
    /\ ShapeTracker.strides st'
       = Ok (normalize (expand_strides (firstn (List.length new_shape) sts)
                                       (firstn (List.length new_shape) sh)
                                       new_shape)
                       new_shape)
    /\ List.length (normalize (expand_strides (firstn (List.length new_shape) sts)
                                              (firstn (List.length new_shape) sh)
                                              new_shape)
                              new_shape)
       = List.length new_shape.
Proof.
  intros Hwf Hsh Hsts Hlen Hex.
  destruct (wf_top st Hwf) as (below & v & Hviews & Hv & _ & _ & Es & Et & Eo).
  rewrite Es in Hsh. rewrite Et in Hsts. injection Hsh as <-. injection Hsts as <-.
  pose proof (View_wf_lengths v Hv) as Hl.
  assert (Hcut : expand_strides (firstn (List.length new_shape) (View.strides v))
                                (firstn (List.length new_shape) (View.shape v))
                                new_shape
                 = expand_strides (View.strides v) (View.shape v) new_shape).
  { unfold expand_strides. f_equal. clear.
    generalize (View.strides v) (View.shape v).
    induction new_shape as [|y ys IH]; intros [|s sts] [|x sh]; simpl;
      rewrite ?IH; reflexivity. }
  assert (Hlen' : (List.length new_shape
                   <= List.length (expand_strides (View.strides v) (View.shape v)
                                                  new_shape))%nat).
  { unfold expand_strides. rewrite length_map, !length_combine. lia. }
  destruct (View_init_ok new_shape
              (expand_strides (View.strides v) (View.shape v) new_shape)
              (View.offset v) Hlen')
    as (v' & I & S1 & S2 & _).
  exists (ShapeTracker.mk (below ++ [IsView v'])).
  rewrite Hcut. repeat split.
  - unfold ShapeTracker.expand. rewrite Es. simpl.
    rewrite (expandable_check _ _ Hex). simpl. rewrite Et, Eo. simpl.
    fold (expand_strides (View.strides v) (View.shape v) new_shape).
    rewrite I. simpl. unfold ShapeTracker.set_top.
    rewrite Hviews, unsnoc_snoc. reflexivity.
  - simpl. rewrite Hviews, !length_app. reflexivity.
  - unfold ShapeTracker.shape, ShapeTracker.top. simpl.
    rewrite unsnoc_snoc. simpl. rewrite S1. reflexivity.
  - unfold ShapeTracker.strides, ShapeTracker.top. simpl.
    rewrite unsnoc_snoc. simpl. rewrite S2. reflexivity.
  - apply normalize_length. exact Hlen'.
Qed.

Lemma flat234_wf : ShapeTracker_wf flat234.
Proof. concrete_wf. Defined.

Lemma expand_shorter_shape_witness :
  ShapeTracker.new [2; 3; 4] = Ok flat234
  /\ ShapeTracker_wf flat234
  /\ expandable [2; 3; 4] [2]
  /\ exists st',
       ShapeTracker.expand flat234 [2] = Ok st'
       /\ List.length (ShapeTracker.views st') = 1%nat
       /\ ShapeTracker.shape st' = Ok [2]
       /\ ShapeTracker.strides st' = Ok [12]
       /\ List.length [12] = 1%nat.
Proof.
  assert (X : expandable [2; 3; 4] [2]).
  { unfold expandable. simpl. constructor; [left; reflexivity | constructor]. }
  split; [reflexivity|]. split; [exact flat234_wf|]. split; [exact X|].
  exact (expand_shorter_shape flat234 [2; 3; 4] [12; 4; 1] [2] flat234_wf
           eq_refl eq_refl ltac:(simpl; lia) X).
Defined.

(** ** C10: [simplify] terminates *)

Lemma simplify_step_length (st st' : ShapeTracker.t) :
  ShapeTracker.simplify_step st = Ok (Some st') ->
  S (List.length (ShapeTracker.views st')) = List.length (ShapeTracker.views st).
Proof.
  unfold ShapeTracker.simplify_step.
  destruct (unsnoc (ShapeTracker.views st)) as [[below v1]|] eqn:U1;
    [|discriminate].
  destruct (unsnoc below) as [[rest [v2|z]]|] eqn:U2; try discriminate.
  destruct (ShapeTracker.vt_offset v1 =? 0); [|discriminate].
  destruct (ShapeTracker.probe _ _ _) as [new_strides|]; simpl; [|discriminate].
  destruct (Nat.eqb _ _); [|discriminate].
  destruct (View.init _ _ _) as [v|]; simpl; [|discriminate].
  intros Q. injection Q as <-. simpl.
  apply unsnoc_some in U1, U2. rewrite U1, U2, !length_app. simpl. lia.
Qed.

Lemma simplify_enough_depth (depth : nat) :
  forall st, (List.length (ShapeTracker.views st) <= depth)%nat ->
  exists r, ShapeTracker.simplify depth st = Some r.
Proof.
  induction depth as [|depth IH]; intros st Hlen; simpl;
    destruct (ShapeTracker.simplify_step st) as [[st'|]|e] eqn:E; eauto.
  - apply simplify_step_length in E. lia.
  - apply IH. apply simplify_step_length in E. lia.
Qed.

Lemma simplify_depth_irrelevant (depth : nat) :
  forall depth' st,
    (List.length (ShapeTracker.views st) <= depth)%nat ->
    (List.length (ShapeTracker.views st) <= depth')%nat ->
    ShapeTracker.simplify depth st = ShapeTracker.simplify depth' st.
Proof.
  induction depth as [|depth IH]; intros [|depth'] st H H'; simpl;
    destruct (ShapeTracker.simplify_step st) as [[st'|]|e] eqn:E;
    try reflexivity;
    apply simplify_step_length in E; try lia.
  apply IH; lia.
Qed.

Lemma simplify_views_nonincreasing (depth : nat) :
  forall st st',
    ShapeTracker.simplify depth st = Some (Ok st') ->
    (List.length (ShapeTracker.views st') <= List.length (ShapeTracker.views st))%nat.
Proof.
  induction depth as [|depth IH]; intros st st'; simpl;
    destruct (ShapeTracker.simplify_step st) as [[st1|]|e] eqn:E;
    intros Q; try discriminate.
  - injection Q as <-. lia.
  - apply IH in Q. apply simplify_step_length in E. lia.
  - injection Q as <-. lia.
Qed.

(** C10.  [simplify] terminates on every ShapeTracker: the tracker on which
    it calls itself has one view less than the one it was called on, so with
    the nesting of self-calls bounded by the initial number of views it
    always returns, and a larger bound gives the same result. *)
Theorem simplify_terminates (st : ShapeTracker.t) :
  (forall st',
      ShapeTracker.simplify_step st = Ok (Some st') ->
      (List.length (ShapeTracker.views st') < List.length (ShapeTracker.views st))%nat)
  /\ (exists r,
        ShapeTracker.simplify (List.length (ShapeTracker.views st)) st = Some r)
  /\ (forall depth,
        (List.length (ShapeTracker.views st) <= depth)%nat ->
        ShapeTracker.simplify depth st
        = ShapeTracker.simplify (List.length (ShapeTracker.views st)) st).
Proof.
  split; [|split].
  - intros st' E. apply simplify_step_length in E. lia.
  - apply simplify_enough_depth. lia.
  - intros depth H. apply simplify_depth_irrelevant; lia.
Qed.

Lemma simplify_terminates_witness :
  ShapeTracker.simplify_step broadcast_pair = Ok (Some broadcast_folded)
  /\ (List.length (ShapeTracker.views broadcast_folded)
      < List.length (ShapeTracker.views broadcast_pair))%nat
  /\ ShapeTracker.simplify 2 broadcast_pair = Some (Ok broadcast_folded)
  /\ ShapeTracker.simplify 7 broadcast_pair = ShapeTracker.simplify 2 broadcast_pair.
Proof.
  destruct (simplify_terminates broadcast_pair) as (Hstep & _ & Hdepth).
  split; [reflexivity|]. split; [exact (Hstep broadcast_folded eq_refl)|].
  split; [reflexivity|]. apply (Hdepth 7%nat). simpl. lia.
Defined.

(** ** C8: [simplify] and the index expressions *)

(** C8.  [simplify] should leave the (offset, validity) pair of index
    resolution with the same values and not add views.  It adds none; but on
    the rank-0 tracker over a view with offset 1 that the movement
    operations of [scalar_of_window] produce, its loop over the dimensions is empty, the two
    views are replaced by a view with offset 0, and the offset expression
    evaluates to 0 where it evaluated to 1. *)
Theorem simplify_changes_offset :
  scalar_of_window = Ok scalar_stack
  /\ ShapeTracker_wf scalar_stack
  /\ ShapeTracker.simplify 2 scalar_stack = Some (Ok scalar_simplified)
  /\ (List.length (ShapeTracker.views scalar_simplified)
      <= List.length (ShapeTracker.views scalar_stack))%nat
  /\ forall env : string -> Z,
       exists e valid e' valid',
         ShapeTracker.expr_idxs scalar_stack 0 None = Ok (e, valid)
         /\ ShapeTracker.expr_idxs scalar_simplified 0 None = Ok (e', valid')
         /\ eval env e = 1
         /\ eval env e' = 0
         /\ eval env valid = eval env valid'.
Proof.
  split; [reflexivity|]. split; [concrete_wf|]. split; [reflexivity|].
  split; [simpl; lia|].
  intros env. eexists _, _, _, _. repeat split.
Qed.

(** The same at rank 2, on a top view with overlapping strides: [simplify]
    folds [overlapping_pair] into a view of strides (0, 0), and the element
    at index (1, 1) moves from offset 1 to offset 0. *)
Lemma simplify_loses_carry :
  ShapeTracker_wf overlapping_pair
  /\ ShapeTracker.simplify 2 overlapping_pair = Some (Ok overlapping_folded)
  /\ naive_offset overlapping_pair 0 [1; 1] = Ok 1
  /\ naive_offset overlapping_folded 0 [1; 1] = Ok 0.
Proof.
  split; [concrete_wf|]. repeat split.
Qed.

Lemma prod_cons (d : Z) (l : list Z) : prod (d :: l) = d * prod l.
Proof. reflexivity. Qed.

Lemma dims_size_cons (d s : Z) (r : list (Z * Z)) :
  dims_size ((d, s) :: r) = d * dims_size r.
Proof. reflexivity. Qed.

Lemma dims_size_positive (dims : list (Z * Z)) :
  positive_dims dims -> 0 < dims_size dims.
Proof.
  induction 1 as [|[d s] r Hd _ IH]; [reflexivity|].
  rewrite dims_size_cons. simpl in Hd. nia.
Qed.

Lemma linear_terms_app (i : Z) (l1 l2 : list (Z * Z)) :
  forall acc,
    linear_terms i (l1 ++ l2) acc
    = linear_terms i l1 acc + linear_terms i l2 (acc * dims_size l1).
Proof.
  induction l1 as [|[d s] l1 IH]; intros acc.
  - simpl. change (dims_size []) with 1. rewrite Z.mul_1_r. reflexivity.
  - simpl. rewrite IH, dims_size_cons. rewrite Z.mul_assoc. lia.
Qed.

Lemma dims_size_rev (dims : list (Z * Z)) : dims_size (rev dims) = dims_size dims.
Proof. unfold dims_size. rewrite map_rev. apply prod_rev. Qed.

Lemma linear_terms_digits (i : Z) (dims : list (Z * Z)) :
  linear_terms i (rev dims) 1 = digits_value dims i.
Proof.
  induction dims as [|[d s] r IH]; [reflexivity|].
  simpl rev. rewrite linear_terms_app, IH, dims_size_rev. simpl.
  rewrite Z.add_0_r. destruct (dims_size r); lia.
Qed.

(** One step of merging: the digit of a merged pair is the sum of the two
    digits it replaces. *)
Lemma merged_digit (x d sh sl st : Z) :
  0 < d -> 0 < sh ->
  (negb (st =? 0) && (sl =? sh * st)) || (d =? 1) || ((st =? 0) && (sl =? 0)) = true ->
  (x mod (d * sh)) * st = ((x / sh) mod d) * sl + (x mod sh) * st.
Proof.
  intros Hd Hsh C.
  apply orb_prop in C as [C|C]; [apply orb_prop in C as [C|C]|].
  - apply andb_prop in C as [_ C]. apply Z.eqb_eq in C. subst sl.
    rewrite (Z.mul_comm d sh), Z.rem_mul_r by lia. ring.
  - apply Z.eqb_eq in C. subst d. rewrite Z.mod_1_r, Z.mul_1_l. lia.
  - apply andb_prop in C as [C1 C2]. apply Z.eqb_eq in C1, C2. subst. lia.
Qed.

Lemma merge_dims_digits (rest : list (Z * Z)) :
  forall last, 0 < fst last -> positive_dims rest ->
  dims_size (merge_dims last rest) = dims_size (last :: rest)
  /\ forall i, digits_value (merge_dims last rest) i = digits_value (last :: rest) i.
Proof.
  induction rest as [|[sh st] rest IH]; intros [d sl] Hl Hr.
  - split; reflexivity.
  - inversion Hr as [|? ? Hsh Hrest]; subst. simpl in Hsh, Hl.
    pose proof (dims_size_positive rest Hrest) as HP.
    cbn [merge_dims fst snd].
    destruct ((negb (st =? 0) && (sl =? sh * st)) || (d =? 1)
              || ((st =? 0) && (sl =? 0))) eqn:C.
    + destruct (IH (d * sh, st) ltac:(simpl; nia) Hrest) as [I1 I2].
      split.
      * rewrite I1, !dims_size_cons. ring.
      * intros i. rewrite I2. cbn [digits_value]. rewrite dims_size_cons.
        rewrite (Z.mul_comm sh (dims_size rest)), <- Z.div_div by lia.
        rewrite (merged_digit (i / dims_size rest) d sh sl st Hl Hsh C). ring.
    + destruct (IH (sh, st) Hsh Hrest) as [I1 I2].
      split.
      * rewrite dims_size_cons, I1. reflexivity.
      * intros i. cbn [digits_value]. rewrite I1, I2. reflexivity.
Qed.

Lemma combine_dims_size (shape strides : list Z) :
  List.length shape = List.length strides ->
  dims_size (combine shape strides) = prod shape.
Proof.
  revert strides. induction shape as [|d shape IH]; intros [|s strides] L;
    try discriminate; [reflexivity|].
  simpl combine. rewrite dims_size_cons, prod_cons, IH; [reflexivity|].
  simpl in L. lia.
Qed.

Lemma to_shape_strides_map (shape strides : list Z) :
  List.length shape = List.length strides ->
  positive_shape shape ->
  exists dims,
    to_shape_strides shape strides = Ok dims
    /\ positive_dims dims
    /\ dims_size dims = prod shape
    /\ forall i, linear_terms i (rev dims) 1
                 = linear_terms i (rev (combine shape strides)) 1.
Proof.
  intros L Hp. unfold to_shape_strides. rewrite L, Nat.eqb_refl. simpl.
  eexists. split; [reflexivity|].
  pose proof (combine_positive shape strides Hp) as C.
  pose proof (combine_dims_size shape strides L) as S.
  destruct (combine shape strides) as [|p r]; [repeat split; [constructor | exact S]|].
  inversion C; subst.
  destruct (merge_dims_digits r p) as [M1 M2]; try assumption.
  split; [apply merge_dims_positive; assumption|].
  split; [rewrite M1; exact S|].
  intros i. rewrite !linear_terms_digits. apply M2.
Qed.

(** X1.  [to_shape_strides] raises an assertion when the two tuples differ in
    length; on a shape of positive entries the pairs it returns span as many
    elements as the shape, have positive sizes, and send every linear index
    to the offset that the unmerged (shape, strides) pairs send it to. *)
Theorem to_shape_strides_preserves_map (shape strides : list Z) :
  (List.length shape <> List.length strides ->
   to_shape_strides shape strides = Raise AssertionError)
  /\ (List.length shape = List.length strides ->
      positive_shape shape ->
      exists dims,
        to_shape_strides shape strides = Ok dims
        /\ positive_dims dims
        /\ dims_size dims = prod shape
        /\ forall i, linear_terms i (rev dims) 1
                     = linear_terms i (rev (combine shape strides)) 1).
Proof.
  split.
  - intros H. unfold to_shape_strides. apply Nat.eqb_neq in H. rewrite H.
    reflexivity.
  - exact (to_shape_strides_map shape strides).
Qed.

Lemma to_shape_strides_preserves_map_witness :
  positive_shape [2; 3; 4]
  /\ exists dims,
       to_shape_strides [2; 3; 4] [12; 4; 1] = Ok dims
       /\ positive_dims dims
       /\ dims_size dims = 24
       /\ forall i, linear_terms i (rev dims) 1
                    = linear_terms i (rev (combine [2; 3; 4] [12; 4; 1])) 1.
Proof.
  assert (P : positive_shape [2; 3; 4]) by (unfold positive_shape; concrete_forall).
  split; [exact P|].
  exact (proj2 (to_shape_strides_preserves_map [2; 3; 4] [12; 4; 1]) eq_refl P).
Defined.

Lemma digits_value_periodic (dims : list (Z * Z)) :
  positive_dims dims ->
  forall i k, digits_value dims (i + k * dims_size dims) = digits_value dims i.
Proof.
  induction 1 as [|[d s] r Hd Hr IH]; intros i k; [reflexivity|].
  simpl in Hd. pose proof (dims_size_positive r Hr) as HP.
  cbn [digits_value]. rewrite dims_size_cons.
  replace (i + k * (d * dims_size r)) with (i + (k * d) * dims_size r) by ring.
  rewrite IH. rewrite Z.div_add by lia.
  rewrite Z.mod_add by lia. reflexivity.
Qed.

Lemma ravel_bounds (shape : list Z) :
  positive_shape shape ->
  forall idxs, multi_index shape idxs -> 0 <= ravel shape idxs < prod shape.
Proof.
  induction 1 as [|d ds Hd Hds IH]; intros [|x xs] [L F]; try discriminate.
  - simpl. lia.
  - simpl in L. inversion F as [|? ? Hx Hxs]; subst. simpl in Hx.
    assert (M : multi_index ds xs) by (split; [lia | exact Hxs]).
    specialize (IH xs M). pose proof (prod_positive ds Hds) as HP.
    cbn [ravel]. rewrite prod_cons. nia.
Qed.

Lemma digits_value_ravel (shape : list Z) :
  positive_shape shape ->
  forall strides idxs,
    List.length strides = List.length shape ->
    multi_index shape idxs ->
    digits_value (combine shape strides) (ravel shape idxs) = affine strides idxs.
Proof.
  induction 1 as [|d ds Hd Hds IH]; intros [|s ss] [|x xs] Ls [L F];
    try discriminate; [reflexivity|].
  simpl in L, Ls. inversion F as [|? ? Hx Hxs]; subst. simpl in Hx.
  assert (M : multi_index ds xs) by (split; [lia | exact Hxs]).
  pose proof (ravel_bounds ds Hds xs M) as B.
  pose proof (prod_positive ds Hds) as HP.
  assert (S : dims_size (combine ds ss) = prod ds).
  { apply combine_dims_size. lia. }
  cbn [combine digits_value ravel]. rewrite S.
  assert (E1 : (x * prod ds + ravel ds xs) / prod ds = x).
  { rewrite Z.add_comm, Z.div_add by lia. rewrite Z.div_small by lia. lia. }
  rewrite E1, Z.mod_small by lia.
  replace (x * prod ds + ravel ds xs)
    with (ravel ds xs + x * dims_size (combine ds ss)) by (rewrite S; ring).
  rewrite (digits_value_periodic (combine ds ss) (combine_positive ds ss Hds)).
  rewrite (IH ss xs ltac:(lia) M). unfold affine. simpl. lia.
Qed.

Lemma View_wf_shape_strides (v : View.t) :
  View_wf v ->
  to_shape_strides (View.shape v) (View.strides v) = Ok (View.shape_strides v).
Proof.
  intros Hv. pose proof (View_wf_normalized v Hv) as N.
  destruct Hv as [_ Hi]. unfold View.init in Hi. rewrite N in Hi.
  destruct (to_shape_strides (View.shape v) (View.strides v)) as [ss|e];
    simpl in Hi; [|discriminate].
  injection Hi as Hi. apply (f_equal View.shape_strides) in Hi.
  simpl in Hi. rewrite Hi. reflexivity.
Qed.

Lemma View_at_ravel (v : View.t) (idxs : list Z) :
  View_wf v -> multi_index (View.shape v) idxs ->
  View_at v (ravel (View.shape v) idxs)
  = View.offset v + affine (View.strides v) idxs.
Proof.
  intros Hv M. pose proof (View_wf_lengths v Hv) as L.
  pose proof (View_wf_shape_strides v Hv) as S.
  destruct (to_shape_strides_map (View.shape v) (View.strides v)
              ltac:(lia) (proj1 Hv)) as (dims & E & _ & _ & Hmap).
  rewrite S in E. injection E as <-.
  unfold View_at. rewrite Hmap, linear_terms_digits.
  rewrite (digits_value_ravel (View.shape v) (proj1 Hv) _ idxs L M). reflexivity.
Qed.

Lemma zip3_affine (idxs shape strides : list Z) :
  List.length strides = List.length shape ->
  Zsum (map (fun '(i, _, st) => i * st) (zip3 idxs shape strides))
  = affine strides idxs.
Proof.
  unfold zip3, affine. revert shape strides.
  induction idxs as [|x xs IH]; intros [|d ds] [|s ss] L; try discriminate;
    try reflexivity.
  simpl in L. simpl. rewrite (IH ds ss) by lia. reflexivity.
Qed.

Lemma View_expr_node_affine
        (env : string -> Z) (v : View.t) (idx : Node) (names : list string) :
  View_wf v ->
  multi_index (View.shape v) (map env names) ->
  respects env idx = true ->
  eval env idx = ravel (View.shape v) (map env names) ->
  exists e,
    View.expr_node v (Some idx) = Ok e
    /\ eval env e = eval env (View.expr_idxs v names 0)
    /\ eval env e = View.offset v + affine (View.strides v) (map env names).
Proof.
  intros Hv M R E.
  destruct (View_expr_node_sound env v idx (View_wf_positive_dims v Hv) R)
    as (e & E1 & _ & E3).
  exists e. split; [exact E1|].
  destruct (View_expr_idxs_sound env v names 0 (multi_index_within _ _ _ M))
    as [_ V].
  rewrite V, E3, E, (View_at_ravel v _ Hv M).
  rewrite zip3_affine by (apply View_wf_lengths; exact Hv).
  split; lia.
Qed.

(** X2.  On a well-formed view, [expr_node] given an index expression whose
    value is the row-major linear index of a multi-index within the shape
    returns an expression with the value of [expr_idxs] on that multi-index:
    the view's offset plus the sum of [idxs[i] * strides[i]].  The merged
    dimensions lose nothing. *)
Theorem View_expr_node_agrees_with_expr_idxs
        (env : string -> Z) (v : View.t) (idx : Node) (names : list string) :
  View_wf v ->
  multi_index (View.shape v) (map env names) ->
  respects env idx = true ->
  eval env idx = ravel (View.shape v) (map env names) ->
  exists e,
    View.expr_node v (Some idx) = Ok e
    /\ eval env e = eval env (View.expr_idxs v names 0)
    /\ eval env e = View.offset v + affine (View.strides v) (map env names).
Proof. exact (View_expr_node_affine env v idx names). Qed.

Lemma View_expr_node_agrees_with_expr_idxs_witness :
  View_wf transposed23_view
  /\ multi_index [3; 2] (map a2_b1 ["a"%string; "b"%string])
  /\ exists e,
       View.expr_node transposed23_view (Some (NumNode 5)) = Ok e
       /\ eval a2_b1 e
          = eval a2_b1 (View.expr_idxs transposed23_view ["a"%string; "b"%string] 0)
       /\ eval a2_b1 e = 0 + affine [1; 3] [2; 1].
Proof.
  assert (W : View_wf transposed23_view).
  { split; [unfold positive_shape; concrete_forall | reflexivity]. }
  assert (M : multi_index [3; 2] (map a2_b1 ["a"%string; "b"%string])).
  { split; [reflexivity | concrete_forall]. }
  split; [exact W|]. split; [exact M|].
  exact (View_expr_node_agrees_with_expr_idxs a2_b1 transposed23_view (NumNode 5)
           ["a"%string; "b"%string] W M eq_refl eq_refl).
Defined.

Lemma strides_for_shape_fold (d : Z) (ds : list Z) :
  strides_for_shape (d :: ds)
  = fold_right (fun d strides => d * hd 0 strides :: strides) [1] ds.
Proof.
  unfold strides_for_shape. simpl rev. rewrite removelast_snoc.
  rewrite <- (rev_involutive ds) at 2. rewrite fold_left_rev_right.
  reflexivity.
Qed.

Lemma fold_suffix_products (ds : list Z) :
  fold_right (fun d strides => d * hd 0 strides :: strides) [1] ds
  = suffix_products ds.
Proof.
  induction ds as [|d ds IH]; [reflexivity|].
  cbn [fold_right suffix_products]. rewrite IH. f_equal.
  destruct ds; reflexivity.
Qed.

(** X3.  [strides_for_shape] returns the row-major strides: for a non-empty
    shape, one stride per dimension, each the product of the sizes of the
    later dimensions (so the last one is 1); for the empty shape it returns
    the one stride (1,). *)
Theorem strides_for_shape_row_major :
  strides_for_shape [] = [1]
  /\ forall d ds,
       strides_for_shape (d :: ds) = suffix_products ds
       /\ List.length (strides_for_shape (d :: ds)) = List.length (d :: ds)
       /\ forall k, (k < List.length (d :: ds))%nat ->
            nth_error (strides_for_shape (d :: ds)) k
            = Some (prod (skipn (S k) (d :: ds))).
Proof.
  split; [reflexivity|]. intros d ds.
  rewrite strides_for_shape_fold, fold_suffix_products.
  split; [reflexivity|]. split.
  - induction ds as [|x xs IH]; [reflexivity|]. simpl in *. lia.
  - cbn [skipn List.length]. clear d.
    induction ds as [|x xs IH]; intros [|k] H.
    + reflexivity.
    + simpl in H. lia.
    + reflexivity.
    + cbn [suffix_products nth_error skipn]. apply IH. simpl in H. lia.
Qed.

Lemma strides_for_shape_row_major_witness :
  (2 < List.length [2; 3; 4])%nat
  /\ strides_for_shape [2; 3; 4] = [12; 4; 1]
  /\ nth_error (strides_for_shape [2; 3; 4]) 2 = Some (prod (skipn 3 [2; 3; 4])).
Proof.
  assert (H : (2 < List.length [2; 3; 4])%nat) by (simpl; lia).
  split; [exact H|]. split; [reflexivity|].
  exact (proj2 (proj2 (proj2 strides_for_shape_row_major 2 [3; 4])) 2%nat H).
Defined.

Lemma suffix_products_unfold (ds : list Z) :
  suffix_products ds = prod ds :: row_major ds.
Proof. destruct ds; reflexivity. Qed.

Lemma strides_for_shape_nonempty (d : Z) (ds : list Z) :
  strides_for_shape (d :: ds) = row_major (d :: ds).
Proof. rewrite strides_for_shape_fold, fold_suffix_products. reflexivity. Qed.

Lemma row_major_cons (d : Z) (ds : list Z) :
  row_major (d :: ds) = prod ds :: row_major ds.
Proof. unfold row_major at 1. cbn [suffix_products tl]. apply suffix_products_unfold. Qed.

Lemma row_major_length (ds : list Z) : List.length (row_major ds) = List.length ds.
Proof.
  induction ds as [|d ds IH]; [reflexivity|].
  rewrite row_major_cons. simpl. rewrite IH. reflexivity.
Qed.

Lemma normalize_contiguous (shape : list Z) :
  forall strides,
    forallb (fun '(s, (s1, s2)) => (s1 =? s2) || (s =? 1))
            (combine shape (combine (normalize strides shape) strides)) = true.
Proof.
  unfold normalize.
  induction shape as [|d ds IH]; intros [|s ss]; simpl; try reflexivity.
  rewrite IH. destruct (d =? 1) eqn:E; simpl.
  - rewrite orb_true_r. reflexivity.
  - rewrite Z.eqb_refl. reflexivity.
Qed.

Lemma normalize_cons (s d : Z) (ss ds : list Z) :
  normalize (s :: ss) (d :: ds) = (if d =? 1 then 0 else s) :: normalize ss ds.
Proof. reflexivity. Qed.

Lemma digits_value_row_major (ds : list Z) :
  positive_shape ds ->
  forall i, 0 <= i < prod ds ->
  digits_value (combine ds (normalize (row_major ds) ds)) i = i.
Proof.
  induction 1 as [|x xs Hx Hxs IH]; intros i Hi.
  - simpl in *. lia.
  - rewrite row_major_cons, normalize_cons. cbn [combine digits_value].
    pose proof (prod_positive xs Hxs) as HP.
    assert (S : dims_size (combine xs (normalize (row_major xs) xs)) = prod xs).
    { apply combine_dims_size. rewrite normalize_length; [reflexivity|].
      rewrite row_major_length. lia. }
    rewrite S. rewrite prod_cons in Hi.
    assert (Hq : 0 <= i / prod xs < x).
    { split; [apply Z.div_pos; lia | apply Z.div_lt_upper_bound; lia]. }
    rewrite (Z.mod_small (i / prod xs) x Hq).
    pose proof (Z.div_mod i (prod xs) ltac:(lia)) as D.
    pose proof (Z.mod_pos_bound i (prod xs) ltac:(lia)) as B.
    assert (T : digits_value (combine xs (normalize (row_major xs) xs)) i
                = i mod prod xs).
    { transitivity (digits_value (combine xs (normalize (row_major xs) xs))
                                 (i mod prod xs)); [|exact (IH _ B)].
      replace i
        with (i mod prod xs
              + (i / prod xs) * dims_size (combine xs (normalize (row_major xs) xs)))
        at 1 by (rewrite S; lia).
      apply digits_value_periodic. apply combine_positive. exact Hxs. }
    rewrite T. destruct (x =? 1) eqn:E.
    + apply Z.eqb_eq in E. subst x. nia.
    + nia.
Qed.

Lemma view_from_shape_map (shape : list Z) :
  shape <> [] -> positive_shape shape ->
  exists v,
    view_from_shape shape = Ok v
    /\ View_wf v
    /\ View.shape v = shape
    /\ View.offset v = 0
    /\ View.contiguous v = true
    /\ forall i, 0 <= i < prod shape -> View_at v i = i.
Proof.
  intros Hne Hp.
  destruct (View_init_ok shape (strides_for_shape shape) 0
              (strides_for_shape_length _))
    as (v & I & S1 & S2 & S3 & S4).
  assert (Hv : View_wf v) by (split; [rewrite S1; exact Hp | exact S4]).
  exists v. split.
  { unfold view_from_shape. destruct shape; [congruence|]. simpl. exact I. }
  split; [exact Hv|]. split; [exact S1|]. split; [exact S3|]. split.
  { unfold View.init in I.
    destruct (to_shape_strides _ _) as [ss|]; simpl in I; [|discriminate].
    injection I as <-. simpl. apply normalize_contiguous. }
  intros i Hi.
  pose proof (View_wf_shape_strides v Hv) as SS.
  destruct (to_shape_strides_map (View.shape v) (View.strides v)
              ltac:(symmetry; apply View_wf_lengths; exact Hv) (proj1 Hv))
    as (dims & E & _ & _ & Hmap).
  rewrite SS in E. injection E as <-.
  unfold View_at. rewrite Hmap, linear_terms_digits, S1, S2, S3.
  destruct shape as [|d ds]; [congruence|].
  rewrite strides_for_shape_nonempty.
  rewrite (digits_value_row_major (d :: ds) Hp i Hi). lia.
Qed.

(** X4.  [view_from_shape] raises an assertion on the empty shape.  On a
    non-empty shape of positive entries it returns a view with that shape,
    offset 0 and [contiguous] set, which sends every linear index of
    [0, prod(shape)-1] to itself: [expr_node] given an expression with such a
    value returns an expression with the same value. *)
Theorem view_from_shape_identity :
  view_from_shape [] = Raise AssertionError
  /\ forall (shape : list Z),
       shape <> [] -> positive_shape shape ->
       exists v,
         view_from_shape shape = Ok v
         /\ View_wf v
         /\ View.shape v = shape
         /\ View.offset v = 0
         /\ View.contiguous v = true
         /\ (forall i, 0 <= i < prod shape -> View_at v i = i)
         /\ forall env idx,
              respects env idx = true ->
              0 <= eval env idx < prod shape ->
              exists e, View.expr_node v (Some idx) = Ok e
                        /\ eval env e = eval env idx.
Proof.
  split; [reflexivity|]. intros shape Hne Hp.
  destruct (view_from_shape_map shape Hne Hp) as (v & E & Hv & S1 & S3 & C & Hat).
  exists v. repeat (split; [assumption|]).
  intros env idx R Hi.
  destruct (View_expr_node_sound env v idx (View_wf_positive_dims v Hv) R)
    as (e & E1 & _ & E3).
  exists e. split; [exact E1|]. rewrite E3. apply Hat. exact Hi.
Qed.

Lemma view_from_shape_identity_witness :
  positive_shape [2; 1; 3]
  /\ exists v,
       view_from_shape [2; 1; 3] = Ok v
       /\ View.strides v = [3; 0; 1]
       /\ View.contiguous v = true
       /\ View_at v 4 = 4.
Proof.
  assert (P : positive_shape [2; 1; 3]) by (unfold positive_shape; concrete_forall).
  split; [exact P|].
  destruct (proj2 view_from_shape_identity [2; 1; 3] ltac:(discriminate) P)
    as (v & E & _ & _ & _ & C & Hat & _).
  exists v. split; [exact E|]. split.
  - vm_compute in E. injection E as <-. reflexivity.
  - split; [exact C|]. apply Hat. simpl. lia.
Defined.

Lemma contiguous_strides (sh : list Z) :
  forall st L,
    normalize st sh = st ->
    List.length st = List.length sh ->
    (List.length sh <= List.length L)%nat ->
    forallb (fun '(s, (s1, s2)) => (s1 =? s2) || (s =? 1))
            (combine sh (combine st L)) = true ->
    normalize L sh = st.
Proof.
  induction sh as [|d ds IH]; intros [|s ss] [|l ls] N L1 L2 C;
    try discriminate; try reflexivity; simpl in L1, L2; try lia.
  rewrite normalize_cons in *. injection N as N1 N2.
  cbn [combine forallb] in C. apply andb_prop in C as [C1 C2].
  f_equal.
  - destruct (d =? 1) eqn:E; [exact N1|].
    rewrite orb_false_r in C1. apply Z.eqb_eq in C1. congruence.
  - apply IH; try assumption; lia.
Qed.

(** X5.  A well-formed tracker is [contiguous] exactly when its views are the
    single view that the constructor builds from its shape and
    [strides_for_shape(shape)] with offset 0; for a shape that is not empty,
    exactly when it is the tracker that [ShapeTracker(shape)] creates. *)
Theorem contiguous_iff_fresh (st : ShapeTracker.t) (sh : list Z) :
  ShapeTracker_wf st ->
  ShapeTracker.shape st = Ok sh ->
  (ShapeTracker.contiguous st = Ok true
   <-> exists v, ShapeTracker.views st = [IsView v]
                 /\ View.init sh (strides_for_shape sh) 0 = Ok v)
  /\ (sh <> [] ->
      (ShapeTracker.contiguous st = Ok true <-> ShapeTracker.new sh = Ok st)).
Proof.
  intros Hwf Hsh.
  destruct (wf_top st Hwf) as (below & v & Hviews & Hv & _ & Et & Es & _).
  rewrite Es in Hsh. injection Hsh as <-.
  assert (Main : ShapeTracker.contiguous st = Ok true
                 <-> exists v', ShapeTracker.views st = [IsView v']
                                /\ View.init (View.shape v)
                                     (strides_for_shape (View.shape v)) 0 = Ok v').
  { unfold ShapeTracker.contiguous. rewrite Et. simpl. split.
    - destruct (Nat.eqb _ 1) eqn:E1; [|discriminate].
      intros C. injection C as C.
      apply Nat.eqb_eq in E1. rewrite Hviews, length_app in E1. simpl in E1.
      destruct below; [|simpl in E1; lia]. simpl in Hviews.
      exists v. split; [exact Hviews|].
      pose proof Hv as [_ Hi].
      assert (Hc := C). unfold View.init in Hi.
      destruct (to_shape_strides _ _) as [ss|]; simpl in Hi; [|discriminate].
      injection Hi as Hi. rewrite <- Hi in Hc. simpl in Hc.
      apply andb_prop in Hc as [O F]. apply Z.eqb_eq in O.
      rewrite (View_wf_normalized v Hv) in F.
      pose proof (contiguous_strides (View.shape v) (View.strides v)
                    (strides_for_shape (View.shape v))
                    (View_wf_normalized v Hv) (View_wf_lengths v Hv)
                    (strides_for_shape_length _) F) as N.
      rewrite (View_init_normalize _ _ (View.strides v)).
      + rewrite <- O. apply Hv.
      + rewrite N. symmetry. apply View_wf_normalized. exact Hv.
    - intros (v' & Hv' & I). rewrite Hv'. simpl.
      rewrite Hviews in Hv'. destruct below as [|b below].
      + simpl in Hv'. injection Hv' as <-. f_equal.
        unfold View.init in I.
        destruct (to_shape_strides _ _) as [ss|]; simpl in I; [|discriminate].
        injection I as I. rewrite <- I. simpl. apply normalize_contiguous.
      + destruct below; discriminate. }
  split; [exact Main|].
  intros Hne. rewrite Main. unfold ShapeTracker.new, view_from_shape.
  destruct (View.shape v) as [|d ds] eqn:Esh; [congruence|]. simpl.
  split.
  - intros (v' & Hv' & I). rewrite I. simpl. destruct st as [vs].
    simpl in Hv'. subst vs. reflexivity.
  - destruct (View.init (d :: ds) (strides_for_shape (d :: ds)) 0) as [v'|];
      simpl; [|discriminate].
    intros Q. injection Q as <-. exists v'. split; reflexivity.
Qed.

Lemma contiguous_iff_fresh_witness :
  ShapeTracker_wf flat234
  /\ ShapeTracker.shape flat234 = Ok [2; 3; 4]
  /\ ShapeTracker.contiguous flat234 = Ok true
  /\ ShapeTracker.new [2; 3; 4] = Ok flat234
  /\ ShapeTracker.contiguous transposed23 = Ok false.
Proof.
  split; [exact flat234_wf|]. split; [reflexivity|].
  destruct (contiguous_iff_fresh flat234 [2; 3; 4] flat234_wf eq_refl) as [_ H].
  split; [apply (H ltac:(discriminate)); reflexivity|].
  split; [apply (H ltac:(discriminate)); reflexivity | reflexivity].
Defined.

Lemma predicate_value (env : string -> Z) (e : Node) :
  predicate e = true -> eval env e = if truth env e then 1 else 0.
Proof.
  unfold truth. destruct e; simpl; try discriminate; intros H.
  - apply orb_prop in H as [H|H]; apply Z.eqb_eq in H; subst; reflexivity.
  - destruct (forallb (fun x => negb (eval env x =? 0)) nodes); reflexivity.
  - destruct (eval env e <? b); reflexivity.
  - destruct (b <=? eval env e); reflexivity.
Qed.

Lemma conjuncts_sound (env : string -> Z) (e : Node) :
  predicate e = true ->
  forallb predicate (conjuncts e) = true
  /\ forallb (truth env) (conjuncts e) = truth env e
  /\ (respects env e = true -> forallb (respects env) (conjuncts e) = true).
Proof.
  induction e using Node_ind; simpl; intros P; try discriminate;
    try (rewrite ?andb_true_r; repeat split; try reflexivity; try exact P;
         intros R; exact R).
  unfold truth at 2. simpl.
  induction H as [|x xs Hx Hxs IH]; simpl in *.
  - repeat split.
  - apply andb_prop in P as [P1 P2].
    destruct (Hx P1) as (A1 & A2 & A3). destruct (IH P2) as (B1 & B2 & B3).
    rewrite !forallb_app, A1, B1, A2, B2. fold (truth env x).
    split; [reflexivity|]. split.
    + destruct (truth env x); simpl; [|reflexivity].
      destruct (forallb _ xs); reflexivity.
    + intros R. apply andb_prop in R as [R1 R2]. rewrite (A3 R1), (B3 R2).
      reflexivity.
Qed.

Lemma flat_conjuncts_sound (env : string -> Z) (xs : list Node) :
  forallb predicate xs = true ->
  forallb predicate (flat_map conjuncts xs) = true
  /\ forallb (truth env) (flat_map conjuncts xs) = forallb (truth env) xs
  /\ (forallb (respects env) xs = true ->
      forallb (respects env) (flat_map conjuncts xs) = true).
Proof.
  induction xs as [|x xs IH]; simpl; intros P; [repeat split|].
  apply andb_prop in P as [P1 P2].
  destruct (conjuncts_sound env x P1) as (A1 & A2 & A3).
  destruct (IH P2) as (B1 & B2 & B3).
  rewrite !forallb_app, A1, B1, A2, B2. repeat split.
  intros R. apply andb_prop in R as [R1 R2]. rewrite (A3 R1), (B3 R2). reflexivity.
Qed.

Lemma ands_sound (env : string -> Z) (xs : list Node) :
  forallb predicate xs = true ->
  predicate (ands xs) = true
  /\ eval env (ands xs) = (if forallb (truth env) xs then 1 else 0)
  /\ (forallb (respects env) xs = true -> respects env (ands xs) = true).
Proof.
  intros P. destruct (flat_conjuncts_sound env xs P) as (F1 & F2 & F3).
  unfold ands. rewrite <- F2.
  set (cs := flat_map conjuncts xs) in *. clearbody cs. clear F2 P.
  destruct (existsb (is_num 0) cs) eqn:E0.
  - split; [reflexivity|]. split; [|reflexivity].
    apply existsb_exists in E0 as (c & Hin & Hc).
    destruct c; simpl in Hc; try discriminate. apply Z.eqb_eq in Hc. subst.
    replace (forallb (truth env) cs) with false; [reflexivity|].
    symmetry. apply Bool.not_true_is_false. intros T.
    rewrite forallb_forall in T. specialize (T _ Hin). discriminate.
  - clear E0.
    assert (K : forallb predicate (filter (fun c => negb (is_num 1 c)) cs) = true
                /\ forallb (truth env) (filter (fun c => negb (is_num 1 c)) cs)
                   = forallb (truth env) cs
                /\ (forallb (respects env) cs = true ->
                    forallb (respects env) (filter (fun c => negb (is_num 1 c)) cs)
                    = true)).
    { clear F3. induction cs as [|c cs IH]; simpl in *; [repeat split|].
      apply andb_prop in F1 as [P1 P2]. destruct (IH P2) as (I1 & I2 & I3).
      destruct (is_num 1 c) eqn:E1; simpl.
      - destruct c; simpl in E1; try discriminate. apply Z.eqb_eq in E1. subst.
        split; [exact I1|]. split; [rewrite I2; reflexivity|].
        intros R. apply I3. exact R.
      - rewrite P1, I1, I2. repeat split.
        intros R. apply andb_prop in R as [R1 R2]. rewrite R1, (I3 R2).
        reflexivity. }
    destruct K as (K1 & K2 & K3). rewrite <- K2.
    destruct (filter (fun c => negb (is_num 1 c)) cs) as [|c [|c' kept]].
    + repeat split.
    + simpl in *. rewrite andb_true_r in *. split; [exact K1|]. split.
      * apply predicate_value. exact K1.
      * intros R. pose proof (K3 (F3 R)) as K. rewrite ?andb_true_r in K. exact K.
    + split; [exact K1|]. split; [reflexivity|].
      intros R. exact (K3 (F3 R)).
Qed.

Lemma ge_sound (env : string -> Z) (e : Node) (k : Z) :
  respects env e = true ->
  predicate (ge e k) = true
  /\ respects env (ge e k) = true
  /\ truth env (ge e k) = (k <=? eval env e).
Proof.
  intros R. pose proof (bounds_sound env e R) as B. unfold ge, truth.
  destruct (k <=? Symbolic.min e) eqn:E1.
  - apply Z.leb_le in E1. repeat split. simpl. symmetry. apply Z.leb_le. lia.
  - destruct (Symbolic.max e <? k) eqn:E2.
    + apply Z.ltb_lt in E2. repeat split. simpl. symmetry. apply Z.leb_gt. lia.
    + simpl. rewrite R. repeat split. destruct (k <=? eval env e); reflexivity.
Qed.

Lemma lt_sound (env : string -> Z) (e : Node) (k : Z) :
  respects env e = true ->
  predicate (lt e k) = true
  /\ respects env (lt e k) = true
  /\ truth env (lt e k) = (eval env e <? k).
Proof.
  intros R. pose proof (bounds_sound env e R) as B. unfold lt, truth.
  destruct (Symbolic.max e <? k) eqn:E1.
  - apply Z.ltb_lt in E1. repeat split. simpl. symmetry. apply Z.ltb_lt. lia.
  - destruct (k <=? Symbolic.min e) eqn:E2.
    + apply Z.leb_le in E2. repeat split. simpl. symmetry. apply Z.ltb_ge. lia.
    + simpl. rewrite R. repeat split. destruct (eval env e <? k); reflexivity.
Qed.

Lemma add_sound (env : string -> Z) (e : Node) (c : Z) :
  respects env e = true ->
  respects env (add e c) = true /\ eval env (add e c) = eval env e + c.
Proof.
  intros R. unfold add. destruct (sum_sound env [e; num c]) as [S1 S2].
  { simpl. rewrite R. reflexivity. }
  split; [exact S1|]. rewrite S2. simpl. lia.
Qed.

Lemma ZeroView_loop_sound (env : string -> Z) (idx : Node)
      (dims : list (Z * Z * (Z * Z))) :
  respects env idx = true ->
  window_dims dims ->
  forall acc expr,
    0 < acc ->
    forallb predicate expr = true ->
    forallb (respects env) expr = true ->
    exists expr',
      ZeroView.expr_node_loop idx dims acc expr = Ok expr'
      /\ forallb predicate expr' = true
      /\ forallb (respects env) expr' = true
      /\ forallb (truth env) expr'
         = forallb (truth env) expr && inside_dims (eval env idx) dims acc.
Proof.
  intros Ri. induction 1 as [|[[s ns] [x y]] dims H Hd IH];
    intros acc expr Ha Hp Hr.
  - exists expr. simpl. rewrite andb_true_r. repeat split; assumption.
  - simpl in H. destruct H as [Hns Hw].
    destruct (floordiv_total idx acc Ha) as [q Eq].
    destruct (floordiv_sound env idx q acc Ri Eq) as [Rq Vq].
    destruct (mod_total q ns Hns) as [m Em].
    destruct (mod_sound env q ns m Rq Em) as [Rm Vm].
    destruct (add_sound env m x Rm) as [Rb Vb].
    destruct (ge_sound env (add m x) 0 Rb) as (G1 & G2 & G3).
    destruct (lt_sound env (add m x) s Rb) as (L1 & L2 & L3).
    cbn [ZeroView.expr_node_loop]. rewrite Eq. cbn [bind]. rewrite Em. cbn [bind].
    set (checks := (if x <? 0 then [ge (add m x) 0] else [])
                   ++ (if s <? y then [lt (add m x) s] else [])).
    pose proof (Z.mod_pos_bound (eval env idx / acc) ns Hns) as B.
    assert (Hc : forallb predicate checks = true
                 /\ forallb (respects env) checks = true
                 /\ forallb (truth env) checks
                    = (0 <=? (eval env idx / acc) mod ns + x)
                      && ((eval env idx / acc) mod ns + x <? s)).
    { unfold checks. rewrite !forallb_app.
      rewrite Vb, Vm, Vq in G3, L3.
      set (base := (eval env idx / acc) mod ns + x) in *.
      assert (Hb : x <= base <= ns - 1 + x) by (unfold base; lia).
      destruct (x <? 0) eqn:Ex; destruct (s <? y) eqn:Ey; simpl;
        rewrite ?G1, ?G2, ?G3, ?L1, ?L2, ?L3, ?andb_true_r;
        try apply Z.ltb_ge in Ex; try apply Z.ltb_ge in Ey;
        (split; [reflexivity|]); (split; [reflexivity|]);
        destruct (Z.leb_spec 0 base); destruct (Z.ltb_spec base s);
        simpl; try reflexivity; lia. }
    destruct Hc as (C1 & C2 & C3).
    destruct (IH (acc * ns) (expr ++ checks)) as (expr' & E1 & E2 & E3 & E4).
    { nia. }
    { rewrite forallb_app, Hp, C1. reflexivity. }
    { rewrite forallb_app, Hr, C2. reflexivity. }
    exists expr'. split; [exact E1|]. split; [exact E2|]. split; [exact E3|].
    rewrite E4, forallb_app, C3. cbn [inside_dims].
    rewrite !andb_assoc. reflexivity.
Qed.

Lemma ZeroView_wf_dims (z : ZeroView.t) :
  ZeroView_wf z ->
  window_dims (rev (zip3 (ZeroView.old_shape z) (ZeroView.shape z) (ZeroView.arg z))).
Proof.
  intros [Hp Hi]. apply Forall_rev.
  rewrite <- Hi in Hp |- *. simpl in *.
  fold (window_shape (ZeroView.arg z)) in *.
  revert Hp. generalize (ZeroView.old_shape z). generalize (ZeroView.arg z).
  unfold window_dims, zip3.
  induction l as [|[x y] arg IH]; intros [|s old] Hp; simpl; try constructor.
  - inversion Hp; subst. simpl. lia.
  - inversion Hp; subst. apply IH. assumption.
Qed.

Lemma ZeroView_expr_node_sound
        (env : string -> Z) (z : ZeroView.t) (idx : Node) (valid : option Node) :
  ZeroView_wf z ->
  respects env idx = true ->
  good_valid env valid ->
  exists e,
    ZeroView.expr_node z (Some idx) valid = Ok e
    /\ predicate e = true
    /\ respects env e = true
    /\ eval env e = if truth_of env valid && inside z (eval env idx) then 1 else 0.
Proof.
  intros Hz Ri Hv. unfold ZeroView.expr_node.
  destruct (ZeroView_loop_sound env idx _ Ri (ZeroView_wf_dims z Hz) 1
              (match valid with Some v => [v] | None => [] end) ltac:(lia))
    as (expr' & E1 & E2 & E3 & E4).
  { destruct valid as [v|]; simpl in *; [rewrite (proj1 Hv)|]; reflexivity. }
  { destruct valid as [v|]; simpl in *; [rewrite (proj2 Hv)|]; reflexivity. }
  rewrite E1. cbn [bind]. exists (ands expr').
  destruct (ands_sound env expr' E2) as (A1 & A2 & A3).
  split; [reflexivity|]. split; [exact A1|]. split; [exact (A3 E3)|].
  rewrite A2, E4. unfold inside.
  destruct valid as [v|]; simpl; rewrite ?andb_true_r; reflexivity.
Qed.

(** X6.  On a ZeroView with positive window sizes, [expr_node] returns a 0/1
    predicate that is 1 exactly when the incoming validity is true and the
    linear index, taken apart along the padded shape and moved by the lower
    bounds, lies inside the old shape in every dimension: the checks that the
    source leaves out ([x >= 0], [y <= s]) can never fail. *)
Theorem ZeroView_expr_node_is_inside
        (env : string -> Z) (z : ZeroView.t) (idx : Node) (valid : option Node) :
  ZeroView_wf z ->
  respects env idx = true ->
  good_valid env valid ->
  exists e,
    ZeroView.expr_node z (Some idx) valid = Ok e
    /\ predicate e = true
    /\ respects env e = true
    /\ eval env e = if truth_of env valid && inside z (eval env idx) then 1 else 0.
Proof. exact (ZeroView_expr_node_sound env z idx valid). Qed.

Lemma ZeroView_expr_node_is_inside_witness :
  ZeroView_wf padded3_zeroview
  /\ (exists e, ZeroView.expr_node padded3_zeroview (Some (NumNode 0)) None = Ok e
                /\ eval (idx0_is 0) e = 0)
  /\ (exists e, ZeroView.expr_node padded3_zeroview (Some (NumNode 2)) None = Ok e
                /\ eval (idx0_is 0) e = 1)
  /\ (exists e, ZeroView.expr_node padded3_zeroview (Some (NumNode 4)) None = Ok e
                /\ eval (idx0_is 0) e = 0).
Proof.
  assert (W : ZeroView_wf padded3_zeroview).
  { split; [unfold positive_shape; concrete_forall | reflexivity]. }
  split; [exact W|].
  repeat split.
  - destruct (ZeroView_expr_node_is_inside (idx0_is 0) padded3_zeroview
                (NumNode 0) None W eq_refl I) as (e & E & _ & _ & V).
    exists e. split; [exact E | exact V].
  - destruct (ZeroView_expr_node_is_inside (idx0_is 0) padded3_zeroview
                (NumNode 2) None W eq_refl I) as (e & E & _ & _ & V).
    exists e. split; [exact E | exact V].
  - destruct (ZeroView_expr_node_is_inside (idx0_is 0) padded3_zeroview
                (NumNode 4) None W eq_refl I) as (e & E & _ & _ & V).
    exists e. split; [exact E | exact V].
Defined.

Lemma expr_idx_loop_valid (env : string -> Z) (vs : list ViewTypes) :
  Forall ViewTypes_wf vs ->
  forall idx valid,
    respects env idx = true ->
    predicate valid = true -> respects env valid = true ->
    exists e valid',
      ShapeTracker.expr_idx_loop vs idx valid = Ok (e, valid')
      /\ respects env e = true
      /\ eval env e = walk vs (eval env idx)
      /\ predicate valid' = true
      /\ respects env valid' = true
      /\ truth env valid' = walk_valid vs (eval env idx) (truth env valid).
Proof.
  induction 1 as [|[v|z] vs Hv Hvs IH]; intros idx valid Ri Pv Rv; simpl.
  - exists idx, valid. repeat split; assumption.
  - destruct (View_expr_node_sound env v idx (View_wf_positive_dims v Hv) Ri)
      as (e & E1 & E2 & E3).
    rewrite E1. simpl.
    destruct (IH e valid E2 Pv Rv) as (e' & valid' & F1 & F2 & F3 & F4 & F5 & F6).
    exists e', valid'. rewrite F3, F6, E3. repeat split; assumption.
  - destruct (ZeroView_expr_node_sound env z idx (Some valid) Hv Ri
                (conj Pv Rv)) as (g & G1 & G2 & G3 & G4).
    rewrite G1. simpl.
    destruct (IH idx g Ri G2 G3) as (e' & valid' & F1 & F2 & F3 & F4 & F5 & F6).
    exists e', valid'. rewrite F6. repeat split; try assumption.
    f_equal. unfold truth at 1. rewrite G4. simpl.
    destruct (truth env valid && inside z (eval env idx)); reflexivity.
Qed.

(** X7.  For every well-formed ShapeTracker and every assignment of the
    per-dimension index variables within [0, shape[i]-1], the validity
    expression that [expr_idxs] returns is a 0/1 predicate, and it is 1
    exactly when the naive walk finds the index inside the old extent of
    every ZeroView it passes.  This covers every multi-index [vals] within
    the shape: with the default names, or with distinct names given by the
    caller, the validity expression evaluates at the assignment of [vals] to
    the validity of the walk at [vals]. *)
Theorem expr_idxs_validity
        (st : ShapeTracker.t) (sh : list Z) (offset0 : Z) :
  ShapeTracker_wf st ->
  ShapeTracker.shape st = Ok sh ->
  (forall (idxs : option (list string)) (env : string -> Z),
      within_shape env (idx_names idxs (List.length sh)) sh ->
      exists e valid ok,
        ShapeTracker.expr_idxs st offset0 idxs = Ok (e, valid)
        /\ naive_valid st offset0 (map env (idx_names idxs (List.length sh))) = Ok ok
        /\ eval env valid = if ok then 1 else 0)
  /\ (forall (idxs : option (list string)) (vals : list Z),
         named_dimensions idxs sh ->
         multi_index sh vals ->
         exists e valid ok,
           ShapeTracker.expr_idxs st offset0 idxs = Ok (e, valid)
           /\ naive_valid st offset0 vals = Ok ok
           /\ eval (assign (idx_names idxs (List.length sh)) vals) valid
              = if ok then 1 else 0).
Proof.
  intros [Hall (below & v & Hviews)] Hsh.
  assert (Main : forall (idxs : option (list string)) (env : string -> Z),
             within_shape env (idx_names idxs (List.length sh)) sh ->
             exists e valid ok,
               ShapeTracker.expr_idxs st offset0 idxs = Ok (e, valid)
               /\ naive_valid st offset0 (map env (idx_names idxs (List.length sh)))
                  = Ok ok
               /\ eval env valid = if ok then 1 else 0).
  { intros idxs env W.
    unfold ShapeTracker.shape, ShapeTracker.top in Hsh.
    unfold ShapeTracker.expr_idxs, naive_valid, ShapeTracker.shape,
      ShapeTracker.top, ShapeTracker._expr_idx.
    rewrite Hviews in *. rewrite unsnoc_snoc in *. simpl in Hsh.
    injection Hsh as <-. simpl. rewrite removelast_snoc.
    fold (idx_names idxs (List.length (View.shape v))).
    destruct (View_expr_idxs_sound env v _ offset0 W) as [R V].
    assert (Hbelow : Forall ViewTypes_wf (rev below)).
    { apply Forall_rev. apply Forall_app in Hall. apply Hall. }
    destruct (expr_idx_loop_valid env (rev below) Hbelow _ (num 1) R eq_refl eq_refl)
      as (e & valid & E1 & _ & _ & E4 & _ & E6).
    eexists e, valid, _. split; [exact E1|]. split; [reflexivity|].
    rewrite (predicate_value env valid E4), E6, V. reflexivity. }
  split; [exact Main|].
  intros idxs vals Hn M.
  destruct (assign_multi_index idxs sh vals Hn M) as [E W].
  destruct (Main idxs _ W) as (e & valid & ok & E1 & E2 & E3).
  exists e, valid, ok. split; [exact E1|]. split; [|exact E3].
  rewrite E in E2. exact E2.
Qed.

Lemma padded35_wf : ShapeTracker_wf padded35.
Proof. concrete_wf. Defined.

Lemma expr_idxs_validity_witness :
  (st <- ShapeTracker.new [2; 3] ;; ShapeTracker.pad st [(0, 1); (1, 1)])
  = Ok padded35
  /\ ShapeTracker_wf padded35
  /\ multi_index [3; 5] [1; 0]
  /\ multi_index [3; 5] [1; 1]
  /\ (exists e valid,
        ShapeTracker.expr_idxs padded35 0 None = Ok (e, valid)
        /\ naive_valid padded35 0 [1; 0] = Ok false
        /\ eval (assign (idx_names None 2) [1; 0]) valid = 0)
  /\ (exists e valid,
        ShapeTracker.expr_idxs padded35 0 None = Ok (e, valid)
        /\ naive_valid padded35 0 [1; 1] = Ok true
        /\ eval (assign (idx_names None 2) [1; 1]) valid = 1).
Proof.
  assert (M0 : multi_index [3; 5] [1; 0]).
  { split; [reflexivity | concrete_forall]. }
  assert (M1 : multi_index [3; 5] [1; 1]).
  { split; [reflexivity | concrete_forall]. }
  split; [reflexivity|]. split; [exact padded35_wf|].
  split; [exact M0|]. split; [exact M1|]. split.
  - destruct (proj2 (expr_idxs_validity padded35 [3; 5] 0 padded35_wf eq_refl)
                None [1; 0] I M0) as (e & valid & ok & E1 & E2 & E3).
    exists e, valid. split; [exact E1|].
    assert (ok = false) by (vm_compute in E2; congruence). subst ok.
    split; [exact E2 | exact E3].
  - destruct (proj2 (expr_idxs_validity padded35 [3; 5] 0 padded35_wf eq_refl)
                None [1; 1] I M1) as (e & valid & ok & E1 & E2 & E3).
    exists e, valid. split; [exact E1|].
    assert (ok = true) by (vm_compute in E2; congruence). subst ok.
    split; [exact E2 | exact E3].
Defined.

(** X8.  On a well-formed ShapeTracker, [expr_node] with a linear index
    variable whose value is the row-major index of a multi-index within the
    shape, and [expr_idxs] with one variable per dimension carrying that
    multi-index, return pairs with the same values: the same buffer offset
    and the same validity. *)
Theorem expr_node_agrees_with_expr_idxs
        (st : ShapeTracker.t) (sh : list Z) (idx : string)
        (names : list string) (env : string -> Z) :
  ShapeTracker_wf st ->
  ShapeTracker.shape st = Ok sh ->
  multi_index sh (map env names) ->
  env idx = ravel sh (map env names) ->
  exists e valid e' valid',
    ShapeTracker.expr_node st idx = Ok (e, valid)
    /\ ShapeTracker.expr_idxs st 0 (Some names) = Ok (e', valid')
    /\ eval env e = eval env e'
    /\ eval env valid = eval env valid'.
Proof.
  intros Hwf Hsh M Hidx.
  destruct (wf_top st Hwf) as (below & v & Hviews & Hv & Hb & Et & Es & _).
  rewrite Es in Hsh. injection Hsh as <-.
  pose proof (ravel_bounds _ (proj1 Hv) _ M) as B.
  destruct (var_sound env idx 0 (prod (View.shape v) - 1) ltac:(lia)) as [R1 V1].
  destruct (View_expr_node_affine env v _ names Hv M R1
              ltac:(rewrite V1; exact Hidx)) as (e0 & E0 & V0 & _).
  destruct (View_expr_node_sound env v _ (View_wf_positive_dims v Hv) R1)
    as (e0' & E0' & R0 & _).
  rewrite E0 in E0'. injection E0' as <-.
  destruct (View_expr_idxs_sound env v names 0 (multi_index_within _ _ _ M))
    as [R0' _].
  assert (Hbelow : Forall ViewTypes_wf (rev below)) by (apply Forall_rev; exact Hb).
  destruct (expr_idx_loop_valid env (rev below) Hbelow e0 (num 1) R0 eq_refl eq_refl)
    as (e & valid & E1 & _ & E3 & E4 & _ & E6).
  destruct (expr_idx_loop_valid env (rev below) Hbelow _ (num 1) R0' eq_refl eq_refl)
    as (e' & valid' & F1 & _ & F3 & F4 & _ & F6).
  exists e, valid, e', valid'.
  unfold ShapeTracker.expr_node, ShapeTracker.expr_idxs, ShapeTracker.default_idx,
    ShapeTracker._expr_idx.
  rewrite Es, Et. simpl. rewrite E0. simpl.
  rewrite Hviews, removelast_snoc.
  split; [exact E1|]. split; [exact F1|].
  split; [rewrite E3, F3, V0; reflexivity|].
  rewrite (predicate_value env valid E4), (predicate_value env valid' F4).
  rewrite E6, F6, V0. reflexivity.
Qed.

Lemma expr_node_agrees_with_expr_idxs_witness :
  ShapeTracker_wf transposed23
  /\ multi_index [3; 2] (map idx5_a2_b1 ["a"%string; "b"%string])
  /\ exists e valid e' valid',
       ShapeTracker.expr_node transposed23 "idx" = Ok (e, valid)
       /\ ShapeTracker.expr_idxs transposed23 0 (Some ["a"%string; "b"%string])
          = Ok (e', valid')
       /\ eval idx5_a2_b1 e = eval idx5_a2_b1 e'
       /\ eval idx5_a2_b1 valid = eval idx5_a2_b1 valid'.
Proof.
  assert (M : multi_index [3; 2] (map idx5_a2_b1 ["a"%string; "b"%string])).
  { split; [reflexivity | concrete_forall]. }
  split; [exact transposed23_wf|]. split; [exact M|].
  exact (expr_node_agrees_with_expr_idxs transposed23 [3; 2] "idx"
           ["a"%string; "b"%string] idx5_a2_b1 transposed23_wf eq_refl M eq_refl).
Defined.

Lemma naive_offset_top (st : ShapeTracker.t) (below : list ViewTypes) (v : View.t)
      (offset0 : Z) (vals : list Z) :
  ShapeTracker.views st = below ++ [IsView v] ->
  List.length (View.strides v) = List.length (View.shape v) ->
  naive_offset st offset0 vals
  = Ok (walk (rev below) (View.offset v + offset0 + affine (View.strides v) vals)).
Proof.
  intros Hviews L. unfold naive_offset, ShapeTracker.top.
  rewrite Hviews, unsnoc_snoc, removelast_snoc. simpl.
  rewrite zip3_affine by exact L. reflexivity.
Qed.

Lemma naive_valid_top (st : ShapeTracker.t) (below : list ViewTypes) (v : View.t)
      (offset0 : Z) (vals : list Z) :
  ShapeTracker.views st = below ++ [IsView v] ->
  List.length (View.strides v) = List.length (View.shape v) ->
  naive_valid st offset0 vals
  = Ok (walk_valid (rev below)
                   (View.offset v + offset0 + affine (View.strides v) vals) true).
Proof.
  intros Hviews L. unfold naive_valid, ShapeTracker.top.
  rewrite Hviews, unsnoc_snoc, removelast_snoc. simpl.
  rewrite zip3_affine by exact L. reflexivity.
Qed.

Lemma ceil_positive (s m : Z) :
  1 <= s -> m <> 0 -> 1 <= (s + (Z.abs m - 1)) / Z.abs m.
Proof.
  intros Hs Hm. apply Z.div_le_lower_bound; lia.
Qed.

Lemma stride_shape_positive (sh mul : list Z) :
  positive_shape sh -> nonzero mul -> positive_shape (stride_shape sh mul).
Proof.
  intros Hp. revert mul. unfold stride_shape.
  induction Hp as [|s sh Hs _ IH]; intros [|m mul] Hn; simpl; try constructor.
  - inversion Hn; subst. apply ceil_positive; assumption.
  - inversion Hn; subst. apply IH. assumption.
Qed.

Lemma strided_index_bound (s m v : Z) :
  1 <= s -> m <> 0 -> 0 <= v < (s + (Z.abs m - 1)) / Z.abs m ->
  0 <= v * Z.abs m <= s - 1.
Proof.
  intros Hs Hm [Hv0 Hv]. split; [nia|].
  assert (H : (v + 1) * Z.abs m <= s + (Z.abs m - 1)).
  { transitivity (((s + (Z.abs m - 1)) / Z.abs m) * Z.abs m).
    - apply Z.mul_le_mono_nonneg_r; lia.
    - rewrite Z.mul_comm. apply Z.mul_div_le. lia. }
  lia.
Qed.

Lemma affine_cons (z v : Z) (sts vals : list Z) :
  affine (z :: sts) (v :: vals) = v * z + affine sts vals.
Proof. reflexivity. Qed.

Lemma multi_index_cons (d x : Z) (ds xs : list Z) :
  multi_index (d :: ds) (x :: xs) <-> 0 <= x < d /\ multi_index ds xs.
Proof.
  unfold multi_index. simpl. split.
  - intros [L F]. inversion F; subst. simpl in *. repeat split; try lia; assumption.
  - intros [H [L F]]. split; [lia|]. constructor; [exact H | exact F].
Qed.

Lemma multi_index_nil_l (xs : list Z) : multi_index [] xs -> xs = [].
Proof. intros [L _]. destruct xs; [reflexivity | discriminate]. Qed.

Lemma stride_offset_cons (s z m : Z) (sh sts mul : list Z) :
  stride_offset (s :: sh) (z :: sts) (m :: mul)
  = (if m <? 0 then (s - 1) * z else 0) + stride_offset sh sts mul.
Proof. unfold stride_offset, zip3. simpl. destruct (m <? 0); reflexivity. Qed.

(** The arithmetic of [stride]: the new offset and strides address, at a
    multi-index of the new shape, what the old ones address at its source,
    and the source lies within the old shape. *)
Lemma stride_affine (sh : list Z) :
  positive_shape sh ->
  forall sts mul vals,
    List.length sts = List.length sh ->
    List.length mul = List.length sh ->
    nonzero mul ->
    multi_index (stride_shape sh mul) vals ->
    stride_offset sh sts mul
    + affine (normalize (stride_strides sts mul) (stride_shape sh mul)) vals
    = affine sts (stride_source sh mul vals)
    /\ multi_index sh (stride_source sh mul vals).
Proof.
  induction 1 as [|s sh Hs _ IH]; intros [|z sts] [|m mul] vals L1 L2 Hn M;
    try discriminate.
  - apply multi_index_nil_l in M. subst. split; [reflexivity|].
    split; [reflexivity | constructor].
  - destruct vals as [|v vals]; [destruct M; discriminate|].
    change (stride_shape (s :: sh) (m :: mul))
      with ((s + (Z.abs m - 1)) / Z.abs m :: stride_shape sh mul) in *.
    change (stride_strides (z :: sts) (m :: mul))
      with (z * m :: stride_strides sts mul).
    change (stride_source (s :: sh) (m :: mul) (v :: vals))
      with ((if m <? 0 then s - 1 + v * m else v * m) :: stride_source sh mul vals).
    apply multi_index_cons in M as [Hv M].
    simpl in L1, L2. inversion Hn as [|? ? Hm Hn']; subst.
    destruct (IH sts mul vals ltac:(lia) ltac:(lia) Hn' M) as [I1 I2].
    pose proof (strided_index_bound s m v Hs Hm Hv) as B.
    rewrite stride_offset_cons, normalize_cons, !affine_cons.
    split.
    + rewrite <- I1.
      destruct ((s + (Z.abs m - 1)) / Z.abs m =? 1) eqn:E1;
        [apply Z.eqb_eq in E1; assert (v = 0) by lia; subst v|];
        destruct (m <? 0); lia.
    + apply multi_index_cons. split; [|exact I2].
      destruct (m <? 0) eqn:Em; [apply Z.ltb_lt in Em | apply Z.ltb_ge in Em]; lia.
Qed.

Lemma wf_with_top (below : list ViewTypes) (v : View.t) :
  Forall ViewTypes_wf below -> View_wf v ->
  ShapeTracker_wf (ShapeTracker.mk (below ++ [IsView v])).
Proof.
  intros Hb Hv. split.
  - simpl. apply Forall_app. split; [exact Hb|]. constructor; [exact Hv | constructor].
  - exists below, v. reflexivity.
Qed.

Lemma stride_semantics
        (st : ShapeTracker.t) (sh mul vals : list Z) (offset0 : Z) :
  ShapeTracker_wf st ->
  ShapeTracker.shape st = Ok sh ->
  List.length mul = List.length sh ->
  nonzero mul ->
  multi_index (stride_shape sh mul) vals ->
  exists st',
    ShapeTracker.stride st mul = Ok st'
    /\ ShapeTracker_wf st'
    /\ ShapeTracker.shape st' = Ok (stride_shape sh mul)
    /\ multi_index sh (stride_source sh mul vals)
    /\ naive_offset st' offset0 vals
       = naive_offset st offset0 (stride_source sh mul vals)
    /\ naive_valid st' offset0 vals
       = naive_valid st offset0 (stride_source sh mul vals).
Proof.
  intros Hwf Hsh Hlen Hnz M.
  destruct (wf_top st Hwf) as (below & v & Hviews & Hv & Hb & _ & Es & _).
  rewrite Es in Hsh. injection Hsh as <-.
  pose proof (View_wf_lengths v Hv) as L.
  destruct (stride_unfold st below v mul Hviews Hv Hlen Hnz)
    as (v' & _ & S1 & S2 & S3 & S4 & E).
  destruct (stride_affine (View.shape v) (proj1 Hv) (View.strides v) mul vals
              L Hlen Hnz M) as [A1 A2].
  assert (Hv' : View_wf v').
  { split; [|exact S4]. rewrite S1. apply stride_shape_positive; [apply Hv | exact Hnz]. }
  exists (ShapeTracker.mk (below ++ [IsView v'])).
  split; [exact E|]. split; [apply wf_with_top; assumption|].
  split.
  { unfold ShapeTracker.shape, ShapeTracker.top. simpl.
    rewrite unsnoc_snoc. simpl. rewrite S1. reflexivity. }
  split; [exact A2|].
  rewrite (naive_offset_top (ShapeTracker.mk (below ++ [IsView v'])) below v'
             offset0 vals eq_refl (View_wf_lengths v' Hv')).
  rewrite (naive_valid_top (ShapeTracker.mk (below ++ [IsView v'])) below v'
             offset0 vals eq_refl (View_wf_lengths v' Hv')).
  rewrite (naive_offset_top st below v offset0 _ Hviews L).
  rewrite (naive_valid_top st below v offset0 _ Hviews L).
  rewrite S2, S3.
  replace (View.offset v + stride_offset (View.shape v) (View.strides v) mul
           + offset0
           + affine (normalize (stride_strides (View.strides v) mul)
                               (stride_shape (View.shape v) mul)) vals)
    with (View.offset v + offset0
          + affine (View.strides v) (stride_source (View.shape v) mul vals))
    by lia.
  split; reflexivity.
Qed.

(** X9.  On a well-formed ShapeTracker, [stride(mul)] with one non-zero
    multiplier per dimension keeps the tracker well-formed, and the element
    at a multi-index [vals] of the new shape is the element of the old
    tracker at the multi-index [vals[i] * mul[i]], counted from the high end
    [shape[i] - 1] where [mul[i]] is negative: same buffer offset, same
    validity, and that source index lies within the old shape. *)
Theorem stride_addresses
        (st : ShapeTracker.t) (sh mul vals : list Z) (offset0 : Z) :
  ShapeTracker_wf st ->
  ShapeTracker.shape st = Ok sh ->
  List.length mul = List.length sh ->
  nonzero mul ->
  multi_index (stride_shape sh mul) vals ->
  exists st',
    ShapeTracker.stride st mul = Ok st'
    /\ ShapeTracker_wf st'
    /\ multi_index sh (stride_source sh mul vals)
    /\ naive_offset st' offset0 vals
       = naive_offset st offset0 (stride_source sh mul vals)
    /\ naive_valid st' offset0 vals
       = naive_valid st offset0 (stride_source sh mul vals).
Proof.
  intros Hwf Hsh Hlen Hnz M.
  destruct (stride_semantics st sh mul vals offset0 Hwf Hsh Hlen Hnz M)
    as (st' & E & W & _ & S & O & V).
  exists st'. repeat (split; [assumption|]). exact V.
Qed.

Lemma stride_addresses_witness :
  ShapeTracker_wf flat3
  /\ nonzero [-2]
  /\ multi_index (stride_shape [3] [-2]) [1]
  /\ exists st',
       ShapeTracker.stride flat3 [-2] = Ok st'
       /\ ShapeTracker_wf st'
       /\ multi_index [3] [0]
       /\ naive_offset st' 0 [1] = naive_offset flat3 0 [0]
       /\ naive_valid st' 0 [1] = naive_valid flat3 0 [0].
Proof.
  assert (N : nonzero [-2]) by (constructor; [lia | constructor]).
  assert (M : multi_index (stride_shape [3] [-2]) [1]).
  { split; [reflexivity | concrete_forall]. }
  split; [exact flat3_wf|]. split; [exact N|]. split; [exact M|].
  exact (stride_addresses flat3 [3] [-2] [1] 0 flat3_wf eq_refl eq_refl N M).
Defined.

Lemma windows_size_cons (s ns : Z) (w : Z * Z) (r : list (Z * Z * (Z * Z))) :
  windows_size ((s, ns, w) :: r) = ns * windows_size r.
Proof. reflexivity. Qed.

Lemma windows_size_positive (dims : list (Z * Z * (Z * Z))) :
  window_dims dims -> 0 < windows_size dims.
Proof.
  induction 1 as [|[[s ns] w] r [H _] _ IH]; [reflexivity|].
  rewrite windows_size_cons. simpl in H. nia.
Qed.

Lemma windows_size_rev (dims : list (Z * Z * (Z * Z))) :
  windows_size (rev dims) = windows_size dims.
Proof. unfold windows_size. rewrite map_rev. apply prod_rev. Qed.

Lemma inside_dims_app (i : Z) (l1 l2 : list (Z * Z * (Z * Z))) :
  forall acc,
    inside_dims i (l1 ++ l2) acc
    = inside_dims i l1 acc && inside_dims i l2 (acc * windows_size l1).
Proof.
  induction l1 as [|[[s ns] [x y]] l1 IH]; intros acc.
  - simpl. change (windows_size []) with 1. rewrite Z.mul_1_r. reflexivity.
  - cbn [app inside_dims]. rewrite IH, windows_size_cons, Z.mul_assoc.
    rewrite !andb_assoc. reflexivity.
Qed.

Lemma inside_dims_digits (i : Z) (dims : list (Z * Z * (Z * Z))) :
  inside_dims i (rev dims) 1 = inside_digits dims i.
Proof.
  induction dims as [|[[s ns] [x y]] r IH]; [reflexivity|].
  simpl rev. rewrite inside_dims_app, IH, windows_size_rev.
  cbn [inside_dims inside_digits]. rewrite Z.mul_1_l, andb_true_r.
  apply andb_comm.
Qed.

Lemma inside_digits_periodic (dims : list (Z * Z * (Z * Z))) :
  window_dims dims ->
  forall i k, inside_digits dims (i + k * windows_size dims) = inside_digits dims i.
Proof.
  induction 1 as [|[[s ns] [x y]] r [Hns _] Hr IH]; intros i k; [reflexivity|].
  simpl in Hns. pose proof (windows_size_positive r Hr) as HP.
  cbn [inside_digits]. rewrite windows_size_cons.
  replace (i + k * (ns * windows_size r)) with (i + (k * ns) * windows_size r) by ring.
  rewrite IH, Z.div_add by lia. rewrite Z.mod_add by lia. reflexivity.
Qed.

Lemma zip3_windows (sh : list Z) (arg : list (Z * Z)) :
  List.length arg = List.length sh ->
  nonempty_windows arg ->
  window_dims (zip3 sh (window_shape arg) arg)
  /\ windows_size (zip3 sh (window_shape arg) arg) = prod (window_shape arg).
Proof.
  unfold zip3, window_dims, windows_size, window_shape. revert arg.
  induction sh as [|s sh IH]; intros [|[x y] arg] L Hn; try discriminate.
  - split; [constructor | reflexivity].
  - simpl in L. inversion Hn as [|? ? H Hn']; subst. simpl in H.
    destruct (IH arg ltac:(lia) Hn') as [I1 I2].
    cbn [combine map]. split.
    + constructor; [simpl; lia | exact I1].
    + rewrite !prod_cons, I2. reflexivity.
Qed.

Lemma inside_digits_ravel (sh : list Z) :
  forall arg vals,
    List.length arg = List.length sh ->
    nonempty_windows arg ->
    multi_index (window_shape arg) vals ->
    inside_digits (zip3 sh (window_shape arg) arg) (ravel (window_shape arg) vals)
    = within sh (shift vals arg).
Proof.
  induction sh as [|s sh IH]; intros [|[x y] arg] vals L Hn M; try discriminate.
  - apply multi_index_nil_l in M. subst. reflexivity.
  - destruct vals as [|v vals]; [destruct M; discriminate|].
    change (window_shape ((x, y) :: arg)) with (y - x :: window_shape arg) in *.
    apply multi_index_cons in M as [Hv M].
    simpl in L. inversion Hn as [|? ? H Hn']; subst.
    destruct (zip3_windows sh arg ltac:(lia) Hn') as [W1 W2].
    pose proof (window_shape_positive arg Hn') as Hp.
    pose proof (ravel_bounds _ Hp vals M) as B.
    pose proof (prod_positive _ Hp) as HP.
    change (zip3 (s :: sh) (y - x :: window_shape arg) ((x, y) :: arg))
      with ((s, y - x, (x, y)) :: zip3 sh (window_shape arg) arg).
    cbn [inside_digits ravel]. rewrite W2.
    assert (E1 : (v * prod (window_shape arg) + ravel (window_shape arg) vals)
                 / prod (window_shape arg) = v).
    { rewrite Z.add_comm, Z.div_add by lia. rewrite Z.div_small by lia. lia. }
    rewrite E1, Z.mod_small by lia.
    replace (v * prod (window_shape arg) + ravel (window_shape arg) vals)
      with (ravel (window_shape arg) vals
            + v * windows_size (zip3 sh (window_shape arg) arg))
      by (rewrite W2; ring).
    rewrite (inside_digits_periodic _ W1), (IH arg vals ltac:(lia) Hn' M).
    reflexivity.
Qed.

Lemma window_offset_cons (z x y : Z) (sts : list Z) (arg : list (Z * Z)) :
  window_offset (z :: sts) ((x, y) :: arg) = z * x + window_offset sts arg.
Proof. reflexivity. Qed.

(** The arithmetic of [shrink]: the new offset and strides address, at a
    multi-index of the window, what the old ones address at the shifted
    multi-index. *)
Lemma shrink_affine (sts : list Z) :
  forall arg vals,
    List.length arg = List.length sts ->
    multi_index (window_shape arg) vals ->
    window_offset sts arg + affine (normalize sts (window_shape arg)) vals
    = affine sts (shift vals arg).
Proof.
  induction sts as [|z sts IH]; intros [|[x y] arg] vals L M; try discriminate.
  - apply multi_index_nil_l in M. subst. reflexivity.
  - destruct vals as [|v vals]; [destruct M; discriminate|].
    change (window_shape ((x, y) :: arg)) with (y - x :: window_shape arg) in *.
    apply multi_index_cons in M as [Hv M]. simpl in L.
    change (shift (v :: vals) ((x, y) :: arg)) with (v + x :: shift vals arg).
    rewrite window_offset_cons, normalize_cons, !affine_cons.
    rewrite <- (IH arg vals ltac:(lia) M).
    destruct (y - x =? 1) eqn:E; [apply Z.eqb_eq in E; assert (v = 0) by lia; subst|];
      lia.
Qed.

Lemma walk_valid_ok (vs : list ViewTypes) :
  forall i ok, walk_valid vs i ok = ok && walk_valid vs i true.
Proof.
  induction vs as [|[v|z] vs IH]; intros i ok; simpl.
  - rewrite andb_true_r. reflexivity.
  - apply IH.
  - rewrite (IH i (ok && inside z i)), (IH i (inside z i)).
    rewrite andb_assoc. reflexivity.
Qed.

Lemma out_of_range_pads (sh : list Z) (arg : list (Z * Z)) :
  out_of_range sh arg -> Exists pads (zip3 sh (window_shape arg) arg).
Proof.
  unfold out_of_range, zip3, window_shape. revert arg.
  induction sh as [|s sh IH]; intros [|[x y] arg] H; simpl in *;
    try (inversion H; fail).
  inversion H as [? ? H1 | ? ? H1]; subst.
  - apply Exists_cons_hd. unfold pads. simpl in *. exact H1.
  - apply Exists_cons_tl. apply IH. exact H1.
Qed.

Lemma range_dichotomy (sh : list Z) (arg : list (Z * Z)) :
  List.length arg = List.length sh ->
  nonempty_windows arg ->
  in_range sh arg \/ out_of_range sh arg.
Proof.
  unfold in_range, out_of_range. revert arg.
  induction sh as [|s sh IH]; intros [|[x y] arg] L Hn; try discriminate.
  - left. constructor.
  - simpl in L. inversion Hn as [|? ? H Hn']; subst. simpl in H.
    destruct (IH arg ltac:(lia) Hn') as [I|O].
    + destruct (Z_lt_dec x 0) as [Hx|Hx].
      * right. apply Exists_cons_hd. simpl. lia.
      * destruct (Z_lt_dec s y) as [Hy|Hy].
        -- right. apply Exists_cons_hd. simpl. lia.
        -- left. constructor; [simpl; lia | exact I].
    + right. apply Exists_cons_tl. exact O.
Qed.

Lemma ZeroView_init_wf (sh : list Z) (arg : list (Z * Z)) :
  nonempty_windows arg -> ZeroView_wf (ZeroView.init sh arg).
Proof.
  intros Hn. split; [apply window_shape_positive; exact Hn | reflexivity].
Qed.

Lemma out_of_range_guard (sh : list Z) (arg : list (Z * Z)) :
  List.length arg = List.length sh ->
  nonempty_windows arg ->
  out_of_range sh arg ->
  exists guard,
    ZeroView.expr_node (ZeroView.init sh arg) None None = Ok guard
    /\ Symbolic.min guard = 0.
Proof.
  intros L Hn Ho.
  destruct (zip3_windows sh arg L Hn) as [W1 W2].
  unfold ZeroView.expr_node, ZeroView.default_idx. simpl.
  fold (window_shape arg).
  set (P := prod (window_shape arg)).
  assert (HP : 1 <= P).
  { apply prod_positive. apply window_shape_positive. exact Hn. }
  unfold var. replace (0 <? P) with true by (symmetry; apply Z.ltb_lt; lia).
  destruct (ZeroView_loop_guards P (rev (zip3 sh (window_shape arg) arg)))
    with (acc := 1) (expr := @nil Node) as (expr' & E1 & E2 & E3).
  { apply Forall_rev. exact W1. }
  { lia. }
  { fold (windows_size (rev (zip3 sh (window_shape arg) arg))).
    rewrite windows_size_rev, W2. unfold P. lia. }
  { reflexivity. }
  rewrite E1. simpl. exists (ands expr'). split; [reflexivity|].
  apply ands_guards_min; [exact E2|]. apply E3. right.
  apply Exists_rev. apply out_of_range_pads. exact Ho.
Qed.

Lemma in_range_within (sh : list Z) :
  forall arg vals,
    List.length arg = List.length sh ->
    in_range sh arg ->
    multi_index (window_shape arg) vals ->
    within sh (shift vals arg) = true.
Proof.
  induction sh as [|s sh IH]; intros [|[x y] arg] vals L Hi M; try discriminate.
  - reflexivity.
  - destruct vals as [|v vals]; [destruct M; discriminate|].
    change (window_shape ((x, y) :: arg)) with (y - x :: window_shape arg) in *.
    apply multi_index_cons in M as [Hv M]. simpl in L.
    inversion Hi as [|? ? H Hi']; subst. simpl in H.
    change (within (s :: sh) (shift (v :: vals) ((x, y) :: arg)))
      with ((0 <=? v + x) && (v + x <? s) && within sh (shift vals arg)).
    rewrite (IH arg vals ltac:(lia) Hi' M).
    replace (0 <=? v + x) with true by (symmetry; apply Z.leb_le; lia).
    replace (v + x <? s) with true by (symmetry; apply Z.ltb_lt; lia).
    reflexivity.
Qed.

Lemma shrink_semantics
        (st : ShapeTracker.t) (sh : list Z) (arg : list (Z * Z)) (vals : list Z) :
  ShapeTracker_wf st ->
  ShapeTracker.shape st = Ok sh ->
  List.length arg = List.length sh ->
  nonempty_windows arg ->
  multi_index (window_shape arg) vals ->
  exists st' ok,
    ShapeTracker.shrink st arg = Ok st'
    /\ ShapeTracker_wf st'
    /\ ShapeTracker.shape st' = Ok (window_shape arg)
    /\ (in_range sh arg ->
        ShapeTracker.needs_valid st' = ShapeTracker.needs_valid st)
    /\ (out_of_range sh arg -> ShapeTracker.needs_valid st' = true)
    /\ naive_offset st' 0 vals = naive_offset st 0 (shift vals arg)
    /\ naive_valid st 0 (shift vals arg) = Ok ok
    /\ naive_valid st' 0 vals = Ok (ok && within sh (shift vals arg)).
Proof.
  intros Hwf Hsh Hlen Hn M.
  destruct (wf_top st Hwf) as (below & v & Hviews & Hv & Hb & _ & Es & _).
  rewrite Es in Hsh. injection Hsh as <-.
  pose proof (View_wf_lengths v Hv) as L.
  destruct (shrink_unfold st below v arg Hviews Hv Hlen Hn)
    as (v1 & v2 & guard & I1 & I2 & G & E).
  pose proof (window_shape_positive arg Hn) as Hp.
  destruct (View_init_ok (window_shape arg) (View.strides v)
              (View.offset v + window_offset (View.strides v) arg))
    as (v1' & I1' & S1 & S2 & S3 & S4).
  { rewrite window_shape_length. lia. }
  rewrite I1 in I1'. injection I1' as <-.
  assert (Hv1 : View_wf v1) by (split; [rewrite S1; exact Hp | exact S4]).
  pose proof (shrink_affine (View.strides v) arg vals ltac:(lia) M) as A.
  rewrite (naive_offset_top st below v 0 _ Hviews L).
  rewrite (naive_valid_top st below v 0 _ Hviews L).
  set (j := View.offset v + 0 + affine (View.strides v) (shift vals arg)).
  destruct (range_dichotomy (View.shape v) arg Hlen Hn) as [Hin|Hout].
  - (* no padding: the top view is replaced *)
    rewrite (ZeroView_in_range_guard _ _ Hin) in G. injection G as <-.
    simpl in E.
    exists (ShapeTracker.mk (below ++ [IsView v1])), (walk_valid (rev below) j true).
    split; [exact E|]. split; [apply wf_with_top; assumption|].
    split.
    { unfold ShapeTracker.shape, ShapeTracker.top. simpl.
      rewrite unsnoc_snoc. simpl. rewrite S1. reflexivity. }
    split.
    { intros _. destruct st as [vs]. simpl in Hviews. subst vs.
      apply needs_valid_top. }
    split.
    { intros Hout. exfalso. clear -Hlen Hin Hout.
      unfold in_range, out_of_range in *. revert Hin Hout.
      generalize (combine (View.shape v) arg). intros l Hin Hout.
      induction Hout as [p l H | p l H IH]; inversion Hin; subst; [lia | auto]. }
    rewrite (naive_offset_top (ShapeTracker.mk (below ++ [IsView v1])) below v1
               0 vals eq_refl (View_wf_lengths v1 Hv1)).
    rewrite (naive_valid_top (ShapeTracker.mk (below ++ [IsView v1])) below v1
               0 vals eq_refl (View_wf_lengths v1 Hv1)).
    rewrite S2, S3.
    replace (View.offset v + window_offset (View.strides v) arg + 0
             + affine (normalize (View.strides v) (window_shape arg)) vals)
      with j by (unfold j; lia).
    rewrite (in_range_within _ arg vals Hlen Hin M), andb_true_r.
    repeat split.
  - (* padding: a ZeroView and an identity view are appended *)
    destruct (out_of_range_guard _ arg Hlen Hn Hout) as (guard' & G' & Hmin).
    rewrite G in G'. injection G' as <-. rewrite Hmin in E. simpl in E.
    assert (Hne : window_shape arg <> []).
    { intros Hnil. unfold out_of_range in Hout.
      assert (arg = []) by (destruct arg; [reflexivity | discriminate]).
      subst arg. destruct (View.shape v); inversion Hout. }
    destruct (view_from_shape_map (window_shape arg) Hne Hp)
      as (v2' & I2' & Hv2 & T1 & T2 & _ & Hat).
    assert (v2' = v2).
    { unfold view_from_shape in I2'.
      destruct (window_shape arg) as [|d ds] eqn:Ew; [congruence|].
      simpl in I2'. rewrite I2 in I2'. injection I2' as <-. reflexivity. }
    subst v2'.
    set (z := ZeroView.init (View.shape v) arg) in *.
    set (below' := below ++ [IsView v1; IsZeroView z]).
    assert (Eviews : below ++ [IsView v1; IsZeroView z; IsView v2]
                     = below' ++ [IsView v2]).
    { unfold below'. rewrite <- app_assoc. reflexivity. }
    rewrite Eviews in E.
    assert (Hrev : rev below' = IsZeroView z :: IsView v1 :: rev below).
    { unfold below'. rewrite rev_app_distr. reflexivity. }
    pose proof (ravel_bounds _ Hp vals M) as B.
    assert (Ei : View.offset v2 + 0 + affine (View.strides v2) vals
                 = ravel (window_shape arg) vals).
    { pose proof (View_at_ravel v2 vals Hv2 ltac:(rewrite T1; exact M)) as R.
      rewrite T1 in R. rewrite (Hat _ B) in R. lia. }
    assert (Ej : View_at v1 (ravel (window_shape arg) vals) = j).
    { pose proof (View_at_ravel v1 vals Hv1 ltac:(rewrite S1; exact M)) as R.
      rewrite S1 in R. rewrite R, S2, S3. unfold j. lia. }
    exists (ShapeTracker.mk (below' ++ [IsView v2])), (walk_valid (rev below) j true).
    split; [exact E|]. split.
    { apply wf_with_top; [|exact Hv2]. unfold below'. apply Forall_app.
      split; [exact Hb|]. constructor; [exact Hv1|].
      constructor; [apply ZeroView_init_wf; exact Hn | constructor]. }
    split.
    { unfold ShapeTracker.shape, ShapeTracker.top. simpl.
      rewrite unsnoc_snoc. simpl. rewrite T1. reflexivity. }
    split.
    { intros Hin. exfalso. clear -Hin Hout.
      unfold in_range, out_of_range in *. revert Hin Hout.
      generalize (combine (View.shape v) arg). intros l Hin Hout.
      induction Hout as [p l H | p l H IH]; inversion Hin; subst; [lia | auto]. }
    split.
    { intros _. unfold ShapeTracker.needs_valid, below'. simpl.
      rewrite !existsb_app. simpl. rewrite !orb_true_r. reflexivity. }
    rewrite (naive_offset_top (ShapeTracker.mk (below' ++ [IsView v2])) below' v2
               0 vals eq_refl (View_wf_lengths v2 Hv2)).
    rewrite (naive_valid_top (ShapeTracker.mk (below' ++ [IsView v2])) below' v2
               0 vals eq_refl (View_wf_lengths v2 Hv2)).
    rewrite Ei, Hrev. cbn [walk walk_valid]. rewrite Ej.
    split; [reflexivity|]. split; [reflexivity|].
    rewrite walk_valid_ok. f_equal. rewrite andb_comm. f_equal.
    unfold inside, z. simpl. fold (window_shape arg).
    rewrite inside_dims_digits.
    apply inside_digits_ravel; assumption.
Qed.

(** X10.  On a well-formed ShapeTracker, [shrink] with one non-empty window
    per dimension, within the old extent or not, keeps the tracker
    well-formed and gives it the shape of the windows.  The element at a
    multi-index [vals] of the window is the element of the old tracker at
    [vals[i] + lo_i]: the buffer offsets agree, and the new index is valid
    exactly when the old one is and [vals[i] + lo_i] lies within the old
    shape in every dimension.  [needs_valid()] keeps its value when every
    window is within the old extent, and is true when some window leaves
    it. *)
Theorem shrink_addresses
        (st : ShapeTracker.t) (sh : list Z) (arg : list (Z * Z)) (vals : list Z) :
  ShapeTracker_wf st ->
  ShapeTracker.shape st = Ok sh ->
  List.length arg = List.length sh ->
  nonempty_windows arg ->
  multi_index (window_shape arg) vals ->
  exists st' ok,
    ShapeTracker.shrink st arg = Ok st'
    /\ ShapeTracker_wf st'
    /\ ShapeTracker.shape st' = Ok (window_shape arg)
    /\ (in_range sh arg ->
        ShapeTracker.needs_valid st' = ShapeTracker.needs_valid st)
    /\ (out_of_range sh arg -> ShapeTracker.needs_valid st' = true)
    /\ naive_offset st' 0 vals = naive_offset st 0 (shift vals arg)
    /\ naive_valid st 0 (shift vals arg) = Ok ok
    /\ naive_valid st' 0 vals = Ok (ok && within sh (shift vals arg)).
Proof. exact (shrink_semantics st sh arg vals). Qed.

Lemma shrink_addresses_witness :
  ShapeTracker_wf flat3
  /\ nonempty_windows [(-1, 4)]
  /\ multi_index (window_shape [(-1, 4)]) [0]
  /\ exists st' ok,
       ShapeTracker.shrink flat3 [(-1, 4)] = Ok st'
       /\ ShapeTracker_wf st'
       /\ ShapeTracker.shape st' = Ok (window_shape [(-1, 4)])
       /\ (in_range [3] [(-1, 4)] ->
           ShapeTracker.needs_valid st' = ShapeTracker.needs_valid flat3)
       /\ (out_of_range [3] [(-1, 4)] -> ShapeTracker.needs_valid st' = true)
       /\ naive_offset st' 0 [0] = naive_offset flat3 0 (shift [0] [(-1, 4)])
       /\ naive_valid flat3 0 (shift [0] [(-1, 4)]) = Ok ok
       /\ naive_valid st' 0 [0] = Ok (ok && within [3] (shift [0] [(-1, 4)])).
Proof.
  assert (N : nonempty_windows [(-1, 4)]) by concrete_forall.
  assert (M : multi_index (window_shape [(-1, 4)]) [0]).
  { split; [reflexivity | concrete_forall]. }
  split; [exact flat3_wf|]. split; [exact N|]. split; [exact M|].
  exact (shrink_addresses flat3 [3] [(-1, 4)] [0] flat3_wf eq_refl eq_refl N M).
Defined.

Lemma shift_pad_bounds (sh : list Z) :
  forall arg vals,
    List.length arg = List.length sh ->
    List.length vals = List.length sh ->
    shift vals (pad_bounds sh arg) = unpad vals arg.
Proof.
  induction sh as [|s sh IH]; intros [|[b e] arg] [|v vals] L1 L2;
    try discriminate; try reflexivity.
  simpl in L1, L2.
  change (shift (v :: vals) (pad_bounds (s :: sh) ((b, e) :: arg)))
    with (v + - b :: shift vals (pad_bounds sh arg)).
  change (unpad (v :: vals) ((b, e) :: arg)) with (v - b :: unpad vals arg).
  rewrite (IH arg vals) by lia. f_equal.
Qed.

Lemma pad_unfold (st : ShapeTracker.t) (sh : list Z) (arg : list (Z * Z)) :
  ShapeTracker.shape st = Ok sh ->
  List.length arg = List.length sh ->
  nonnegative_pads arg ->
  ShapeTracker.pad st arg = ShapeTracker.shrink st (pad_bounds sh arg).
Proof.
  intros Es L Hn. unfold ShapeTracker.pad. rewrite Es. simpl.
  rewrite (nonnegative_pads_check arg Hn), L, Nat.eqb_refl. reflexivity.
Qed.

(** X11.  On a well-formed ShapeTracker, [pad] with non-negative amounts
    [(before_i, after_i)], one pair per dimension, gives a well-formed
    tracker of shape [(before_i + shape[i] + after_i, ...)].  The element at
    a multi-index [vals] of the padded shape is the element of the old
    tracker at [vals[i] - before_i]: the buffer offsets agree, and the new
    index is valid exactly when the old one is and
    [0 <= vals[i] - before_i < shape[i]] in every dimension, so that the
    padding reads as invalid. *)
Theorem pad_addresses
        (st : ShapeTracker.t) (sh : list Z) (arg : list (Z * Z)) (vals : list Z) :
  ShapeTracker_wf st ->
  ShapeTracker.shape st = Ok sh ->
  List.length arg = List.length sh ->
  nonnegative_pads arg ->
  multi_index (padded_shape sh arg) vals ->
  exists st' ok,
    ShapeTracker.pad st arg = Ok st'
    /\ ShapeTracker_wf st'
    /\ ShapeTracker.shape st' = Ok (padded_shape sh arg)
    /\ naive_offset st' 0 vals = naive_offset st 0 (unpad vals arg)
    /\ naive_valid st 0 (unpad vals arg) = Ok ok
    /\ naive_valid st' 0 vals = Ok (ok && within sh (unpad vals arg)).
Proof.
  intros Hwf Es L Hn M.
  destruct (wf_top st Hwf) as (below & v & _ & [Hpos _] & _ & _ & Es' & _).
  rewrite Es in Es'. injection Es' as ->.
  destruct (pad_bounds_facts (View.shape v) arg L Hpos Hn) as (F1 & F2 & F3 & _).
  rewrite <- F3 in M.
  destruct (shrink_semantics st (View.shape v) _ vals Hwf Es F1 F2 M)
    as (st' & ok & E & W & S & _ & _ & O & V1 & V2).
  rewrite shift_pad_bounds in O, V1, V2;
    try exact L;
    try (rewrite (multi_index_length _ _ M), window_shape_length; exact F1).
  exists st', ok. rewrite (pad_unfold st _ arg Es L Hn), <- F3.
  split; [exact E|]. split; [exact W|]. split; [exact S|].
  split; [exact O|]. split; [exact V1 | exact V2].
Qed.

Lemma pad_addresses_witness :
  ShapeTracker_wf flat3
  /\ nonnegative_pads [(1, 1)]
  /\ multi_index (padded_shape [3] [(1, 1)]) [0]
  /\ exists st' ok,
       ShapeTracker.pad flat3 [(1, 1)] = Ok st'
       /\ ShapeTracker_wf st'
       /\ ShapeTracker.shape st' = Ok (padded_shape [3] [(1, 1)])
       /\ naive_offset st' 0 [0] = naive_offset flat3 0 (unpad [0] [(1, 1)])
       /\ naive_valid flat3 0 (unpad [0] [(1, 1)]) = Ok ok
       /\ naive_valid st' 0 [0] = Ok (ok && within [3] (unpad [0] [(1, 1)])).
Proof.
  assert (N : nonnegative_pads [(1, 1)]) by concrete_forall.
  assert (M : multi_index (padded_shape [3] [(1, 1)]) [0]).
  { split; [reflexivity | concrete_forall]. }
  split; [exact flat3_wf|]. split; [exact N|]. split; [exact M|].
  exact (pad_addresses flat3 [3] [(1, 1)] [0] flat3_wf eq_refl eq_refl N M).
Defined.

Lemma unpad_bounds_facts (sh : list Z) :
  forall arg,
    List.length arg = List.length sh ->
    positive_shape sh -> nonnegative_pads arg ->
    List.length (unpad_bounds sh arg) = List.length (padded_shape sh arg)
    /\ nonempty_windows (unpad_bounds sh arg)
    /\ window_shape (unpad_bounds sh arg) = sh
    /\ in_range (padded_shape sh arg) (unpad_bounds sh arg).
Proof.
  unfold nonempty_windows, in_range.
  induction sh as [|s sh IH]; intros [|[b e] arg] L Hp Hn; try discriminate.
  - repeat split; constructor.
  - simpl in L. inversion Hp as [|? ? Hs Hp']; subst.
    inversion Hn as [|? ? [Hb He] Hn']; subst. simpl in Hb, He.
    destruct (IH arg ltac:(lia) Hp' Hn') as (F1 & F2 & F3 & F4).
    change (unpad_bounds (s :: sh) ((b, e) :: arg))
      with ((b, b + s) :: unpad_bounds sh arg).
    change (padded_shape (s :: sh) ((b, e) :: arg))
      with (b + s + e :: padded_shape sh arg).
    change (window_shape ((b, b + s) :: unpad_bounds sh arg))
      with (b + s - b :: window_shape (unpad_bounds sh arg)).
    repeat split.
    + simpl. rewrite F1. reflexivity.
    + constructor; [simpl; lia | exact F2].
    + rewrite F3. f_equal. lia.
    + simpl. constructor; [simpl; lia | exact F4].
Qed.

Lemma shift_unpad_bounds (sh : list Z) :
  forall arg vals,
    List.length arg = List.length sh ->
    List.length vals = List.length sh ->
    unpad (shift vals (unpad_bounds sh arg)) arg = vals.
Proof.
  induction sh as [|s sh IH]; intros [|[b e] arg] [|v vals] L1 L2;
    try discriminate; try reflexivity.
  simpl in L1, L2.
  change (unpad (shift (v :: vals) (unpad_bounds (s :: sh) ((b, e) :: arg)))
                ((b, e) :: arg))
    with (v + b - b :: unpad (shift vals (unpad_bounds sh arg)) arg).
  rewrite (IH arg vals) by lia. f_equal. lia.
Qed.

Lemma multi_index_inside (sh : list Z) :
  forall vals, multi_index sh vals -> within sh vals = true.
Proof.
  induction sh as [|s sh IH]; intros [|v vals] M;
    try reflexivity; try (destruct M; discriminate).
  apply multi_index_cons in M as [Hv M].
  change (within (s :: sh) (v :: vals))
    with ((0 <=? v) && (v <? s) && within sh vals).
  rewrite (IH vals M).
  replace (0 <=? v) with true by (symmetry; apply Z.leb_le; lia).
  replace (v <? s) with true by (symmetry; apply Z.ltb_lt; lia).
  reflexivity.
Qed.

Lemma shift_multi_index (sh : list Z) :
  forall arg vals,
    List.length arg = List.length sh ->
    in_range sh arg ->
    multi_index (window_shape arg) vals ->
    multi_index sh (shift vals arg).
Proof.
  induction sh as [|s sh IH]; intros [|[x y] arg] vals L Hi M; try discriminate.
  - apply multi_index_nil_l in M. subst. split; [reflexivity | constructor].
  - destruct vals as [|v vals]; [destruct M; discriminate|].
    change (window_shape ((x, y) :: arg)) with (y - x :: window_shape arg) in M.
    apply multi_index_cons in M as [Hv M]. simpl in L.
    inversion Hi as [|? ? H Hi']; subst. simpl in H.
    change (shift (v :: vals) ((x, y) :: arg)) with (v + x :: shift vals arg).
    apply multi_index_cons. split; [lia|]. apply IH; [lia | exact Hi' | exact M].
Qed.

(** X12.  Padding and then shrinking to the windows
    [(before_i, before_i + shape[i])] gives back the elements of the tracker
    it started from: the result has the old shape, and at every multi-index
    of it the buffer offset and the validity are the ones of the old
    tracker. *)
Theorem pad_then_shrink_restores
        (st : ShapeTracker.t) (sh : list Z) (arg : list (Z * Z)) (vals : list Z) :
  ShapeTracker_wf st ->
  ShapeTracker.shape st = Ok sh ->
  List.length arg = List.length sh ->
  nonnegative_pads arg ->
  multi_index sh vals ->
  exists st1 st2,
    ShapeTracker.pad st arg = Ok st1
    /\ ShapeTracker.shrink st1 (unpad_bounds sh arg) = Ok st2
    /\ ShapeTracker_wf st2
    /\ ShapeTracker.shape st2 = Ok sh
    /\ naive_offset st2 0 vals = naive_offset st 0 vals
    /\ naive_valid st2 0 vals = naive_valid st 0 vals.
Proof.
  intros Hwf Es L Hn M.
  destruct (wf_top st Hwf) as (below & v & _ & [Hpos _] & _ & _ & Es' & _).
  rewrite Es in Es'. injection Es' as ->.
  destruct (pad_bounds_facts (View.shape v) arg L Hpos Hn) as (F1 & F2 & F3 & _).
  destruct (unpad_bounds_facts (View.shape v) arg L Hpos Hn) as (U1 & U2 & U3 & U4).
  pose proof M as M'. rewrite <- U3 in M'.
  assert (U1' : List.length (unpad_bounds (View.shape v) arg)
                = List.length (padded_shape (View.shape v) arg)) by exact U1.
  pose proof (shift_multi_index _ _ vals U1 U4 M') as M1.
  pose proof (in_range_within _ _ vals U1 U4 M') as W1.
  set (vals1 := shift vals (unpad_bounds (View.shape v) arg)) in *.
  rewrite <- F3 in M1.
  destruct (shrink_semantics st (View.shape v) _ vals1 Hwf Es F1 F2 M1)
    as (st1 & ok & E1 & Wf1 & S1 & _ & _ & O1 & V1 & V1').
  rewrite F3 in S1.
  destruct (shrink_semantics st1 _ _ vals Wf1 S1 U1 U2 M')
    as (st2 & ok2 & E2 & Wf2 & S2 & _ & _ & O2 & V2 & V2').
  fold vals1 in O2, V2, V2'.
  assert (Eback : shift vals1 (pad_bounds (View.shape v) arg) = vals).
  { rewrite shift_pad_bounds.
    - apply shift_unpad_bounds; [exact L | exact (multi_index_length _ _ M)].
    - exact L.
    - rewrite (multi_index_length _ _ M1), window_shape_length. exact F1. }
  rewrite Eback in O1, V1, V1'.
  exists st1, st2. rewrite (pad_unfold st _ arg Es L Hn).
  split; [exact E1|]. split; [exact E2|]. split; [exact Wf2|].
  split; [rewrite S2, U3; reflexivity|].
  split; [rewrite O2, O1; reflexivity|].
  rewrite V2', W1, andb_true_r. rewrite V1' in V2. injection V2 as <-.
  rewrite V1, (multi_index_inside _ _ M), andb_true_r. reflexivity.
Qed.

Lemma pad_then_shrink_restores_witness :
  ShapeTracker_wf flat3
  /\ nonnegative_pads [(1, 2)]
  /\ multi_index [3] [2]
  /\ exists st1 st2,
       ShapeTracker.pad flat3 [(1, 2)] = Ok st1
       /\ ShapeTracker.shrink st1 (unpad_bounds [3] [(1, 2)]) = Ok st2
       /\ ShapeTracker_wf st2
       /\ ShapeTracker.shape st2 = Ok [3]
       /\ naive_offset st2 0 [2] = naive_offset flat3 0 [2]
       /\ naive_valid st2 0 [2] = naive_valid flat3 0 [2].
Proof.
  assert (N : nonnegative_pads [(1, 2)]) by concrete_forall.
  assert (M : multi_index [3] [2]).
  { split; [reflexivity | concrete_forall]. }
  split; [exact flat3_wf|]. split; [exact N|]. split; [exact M|].
  exact (pad_then_shrink_restores flat3 [3] [(1, 2)] [2] flat3_wf eq_refl eq_refl N M).
Defined.

Lemma list_eqb_refl (l : list Z) : ShapeTracker.list_eqb l l = true.
Proof. induction l as [|x l IH]; simpl; [|rewrite Z.eqb_refl, IH]; reflexivity. Qed.

Lemma list_eqb_eq (a : list Z) :
  forall b, ShapeTracker.list_eqb a b = true <-> a = b.
Proof.
  induction a as [|x a IH]; intros [|y b]; simpl; split; intros H;
    try reflexivity; try discriminate.
  - apply andb_true_iff in H as [H1 H2]. apply Z.eqb_eq in H1.
    apply IH in H2. subst. reflexivity.
  - injection H as -> ->. rewrite Z.eqb_refl. apply list_eqb_refl.
Qed.

Lemma full_windows_facts (sh : list Z) :
  positive_shape sh ->
  List.length (full_windows sh) = List.length sh
  /\ nonempty_windows (full_windows sh)
  /\ in_range sh (full_windows sh)
  /\ window_shape (full_windows sh) = sh
  /\ forall sts, window_offset sts (full_windows sh) = 0.
Proof.
  unfold nonempty_windows, in_range.
  induction 1 as [|s sh Hs Hp (F1 & F2 & F3 & F4 & F5)].
  - repeat split; try constructor. intros [|? ?]; reflexivity.
  - change (full_windows (s :: sh)) with ((0, s) :: full_windows sh).
    repeat split.
    + simpl. rewrite F1. reflexivity.
    + constructor; [simpl; lia | exact F2].
    + simpl. constructor; [simpl; lia | exact F3].
    + change (window_shape ((0, s) :: full_windows sh))
        with (s - 0 :: window_shape (full_windows sh)).
      rewrite F4, Z.sub_0_r. reflexivity.
    + intros [|z sts]; [reflexivity|].
      change (window_offset (z :: sts) ((0, s) :: full_windows sh))
        with (z * 0 + window_offset sts (full_windows sh)).
      rewrite F5. lia.
Qed.

Lemma shrink_full (st : ShapeTracker.t) (sh : list Z) :
  ShapeTracker_wf st ->
  ShapeTracker.shape st = Ok sh ->
  ShapeTracker.shrink st (full_windows sh) = Ok st.
Proof.
  intros Hwf Es.
  destruct (wf_top st Hwf) as (below & v & Hviews & Hv & _ & _ & Es' & _).
  rewrite Es in Es'. injection Es' as ->.
  destruct (full_windows_facts _ (proj1 Hv)) as (F1 & F2 & F3 & F4 & F5).
  destruct (shrink_unfold st below v _ Hviews Hv F1 F2)
    as (v1 & v2 & guard & I1 & _ & G & E).
  rewrite (ZeroView_in_range_guard _ _ F3) in G. injection G as <-.
  simpl in E. rewrite E.
  rewrite F4, F5, Z.add_0_r, (proj2 Hv) in I1. injection I1 as <-.
  destruct st as [vs]. simpl in Hviews. subst vs. reflexivity.
Qed.

Lemma pad_bounds_no_pads (sh : list Z) :
  pad_bounds sh (no_pads sh) = full_windows sh.
Proof.
  induction sh as [|s sh IH]; [reflexivity|].
  change (pad_bounds (s :: sh) (no_pads (s :: sh)))
    with ((- 0, s + 0) :: pad_bounds sh (no_pads sh)).
  rewrite IH, Z.add_0_r. reflexivity.
Qed.

Lemma ones_units (sh : list Z) : units (ones sh).
Proof. induction sh; constructor; [left; reflexivity | assumption]. Qed.

Lemma stride_ones (sh : list Z) :
  forall sts,
    List.length sts = List.length sh ->
    stride_strides sts (ones sh) = sts
    /\ stride_offset sh sts (ones sh) = 0.
Proof.
  induction sh as [|s sh IH]; intros [|z sts] L; try discriminate.
  - split; reflexivity.
  - simpl in L. destruct (IH sts ltac:(lia)) as [E1 E2].
    split.
    + change (stride_strides (z :: sts) (ones (s :: sh)))
        with (z * 1 :: stride_strides sts (ones sh)).
      rewrite E1, Z.mul_1_r. reflexivity.
    + exact E2.
Qed.

Lemma flip_mul_nil (sh : list Z) : flip_mul [] (List.length sh) = ones sh.
Proof.
  unfold flip_mul, ones. generalize 0%nat.
  induction sh as [|s sh IH]; intros n; [reflexivity|].
  simpl. rewrite IH. reflexivity.
Qed.

Lemma expand_same (sh : list Z) :
  forall sts,
    List.length sts = List.length sh ->
    expandable sh sh /\ expand_strides sts sh sh = sts.
Proof.
  unfold expandable.
  induction sh as [|s sh IH]; intros [|z sts] L; try discriminate.
  - split; [constructor | reflexivity].
  - simpl in L. destruct (IH sts ltac:(lia)) as [E1 E2]. split.
    + simpl. constructor; [left; reflexivity | exact E1].
    + change (expand_strides (z :: sts) (s :: sh) (s :: sh))
        with ((if s =? s then z else 0) :: expand_strides sts sh sh).
      rewrite E2, Z.eqb_refl. reflexivity.
Qed.

Lemma gather_identity (l : list Z) :
  ShapeTracker.gather l (identity_axes (List.length l)) = Ok l.
Proof.
  unfold identity_axes.
  assert (G : forall pre, ShapeTracker.gather (pre ++ l)
                (map Z.of_nat (seq (List.length pre) (List.length l))) = Ok l).
  { induction l as [|y l IH]; intros pre; [reflexivity|].
    simpl. rewrite Nat2Z.id. unfold index.
    rewrite nth_error_app2 by lia. rewrite Nat.sub_diag. simpl.
    specialize (IH (pre ++ [y])).
    rewrite <- app_assoc, length_app in IH. simpl in IH.
    replace (List.length pre + 1)%nat with (S (List.length pre)) in IH by lia.
    rewrite IH. reflexivity. }
  exact (G []).
Qed.

Lemma identity_axes_checks (rank : nat) :
  forallb (fun x => (0 <=? x) && (x <? Z.of_nat rank)) (identity_axes rank) = true
  /\ ShapeTracker.distinct (identity_axes rank) = true
  /\ List.length (identity_axes rank) = rank.
Proof.
  unfold identity_axes. split; [|split].
  - apply forallb_forall. intros x Hx. apply in_map_iff in Hx as (i & <- & Hi).
    apply in_seq in Hi. apply andb_true_iff. split.
    + apply Z.leb_le. lia.
    + apply Z.ltb_lt. lia.
  - generalize 0%nat. induction rank as [|n IH]; intros a; [reflexivity|].
    simpl. rewrite IH, andb_true_r. apply negb_true_iff.
    destruct (existsb _ _) eqn:E; [|reflexivity].
    apply existsb_exists in E as (x & Hx & Hax).
    apply in_map_iff in Hx as (i & <- & Hi). apply in_seq in Hi.
    apply Z.eqb_eq in Hax. lia.
  - rewrite length_map, length_seq. reflexivity.
Qed.

(** X13.  The arguments that ask for no change leave a well-formed
    ShapeTracker exactly as it is: [shrink] to the windows [(0, shape[i])],
    [pad] by [(0, 0)], [stride] by 1, [flip] of no axis, [expand] to the
    current shape, [permute] by [(0, ..., n-1)] and [reshape] to the current
    shape all return the tracker unchanged; in particular no view is added. *)
Theorem identity_arguments (st : ShapeTracker.t) (sh : list Z) :
  ShapeTracker_wf st ->
  ShapeTracker.shape st = Ok sh ->
  ShapeTracker.shrink st (full_windows sh) = Ok st
  /\ ShapeTracker.pad st (no_pads sh) = Ok st
  /\ ShapeTracker.stride st (ones sh) = Ok st
  /\ ShapeTracker.flip st [] = Ok st
  /\ ShapeTracker.expand st sh = Ok st
  /\ ShapeTracker.permute st (identity_axes (List.length sh)) = Ok st
  /\ ShapeTracker.reshape st sh = Ok st.
Proof.
  intros Hwf Es.
  destruct (wf_top st Hwf) as (below & v & Hviews & Hv & _ & _ & Es' & Et & Eo).
  rewrite Es in Es'. injection Es' as ->.
  pose proof (View_wf_lengths v Hv) as L.
  assert (Est : ShapeTracker.mk (below ++ [IsView v]) = st).
  { destruct st as [vs]. simpl in Hviews. subst vs. reflexivity. }
  assert (Eset : ShapeTracker.set_top st (IsView v) = Ok st).
  { unfold ShapeTracker.set_top. rewrite Hviews, unsnoc_snoc. rewrite Est.
    reflexivity. }
  assert (Estride : ShapeTracker.stride st (ones (View.shape v)) = Ok st).
  { destruct (stride_unfold st below v (ones (View.shape v)) Hviews Hv)
      as (v' & I & _ & _ & _ & _ & E).
    { unfold ones. apply length_map. }
    { apply units_nonzero, ones_units. }
    rewrite E.
    rewrite (stride_shape_units _ (ones_units _)) in I
      by (unfold ones; apply length_map).
    destruct (stride_ones (View.shape v) (View.strides v) L) as [E1 E2].
    rewrite E1, E2, Z.add_0_r, (proj2 Hv) in I. injection I as <-.
    rewrite Est. reflexivity. }
  split; [apply shrink_full; assumption|].
  split.
  { rewrite (pad_unfold st (View.shape v)).
    - rewrite pad_bounds_no_pads. apply shrink_full; assumption.
    - exact Es.
    - unfold no_pads. apply length_map.
    - unfold nonnegative_pads, no_pads. apply Forall_map, Forall_forall.
      intros; simpl; lia. }
  split; [exact Estride|].
  split.
  { unfold ShapeTracker.flip. rewrite Es. cbn [bind].
    fold (flip_mul [] (List.length (View.shape v))).
    rewrite flip_mul_nil. exact Estride. }
  split.
  { destruct (expand_same (View.shape v) (View.strides v) L) as [X1 X2].
    unfold ShapeTracker.expand. rewrite Es. simpl.
    rewrite (expandable_check _ _ X1). simpl. rewrite Et, Eo. simpl.
    fold (expand_strides (View.strides v) (View.shape v) (View.shape v)).
    rewrite X2, (proj2 Hv). simpl. exact Eset. }
  split.
  { destruct (identity_axes_checks (List.length (View.shape v))) as (C1 & C2 & C3).
    unfold ShapeTracker.permute. rewrite Es. simpl.
    rewrite C1. simpl. rewrite C2, C3, Nat.eqb_refl. simpl.
    assert (G2 : ShapeTracker.gather (View.strides v)
                   (identity_axes (List.length (View.shape v)))
                 = Ok (View.strides v)).
    { rewrite <- L. apply gather_identity. }
    rewrite Et, Eo. cbn [bind]. rewrite gather_identity, G2. cbn [bind].
    rewrite (proj2 Hv). simpl. exact Eset. }
  unfold ShapeTracker.reshape. rewrite Es. simpl.
  rewrite list_eqb_refl. reflexivity.
Qed.

Lemma identity_arguments_witness :
  ShapeTracker_wf transposed23
  /\ ShapeTracker.shrink transposed23 (full_windows [3; 2]) = Ok transposed23
  /\ ShapeTracker.pad transposed23 (no_pads [3; 2]) = Ok transposed23
  /\ ShapeTracker.stride transposed23 (ones [3; 2]) = Ok transposed23
  /\ ShapeTracker.flip transposed23 [] = Ok transposed23
  /\ ShapeTracker.expand transposed23 [3; 2] = Ok transposed23
  /\ ShapeTracker.permute transposed23 (identity_axes (List.length [3; 2]))
     = Ok transposed23
  /\ ShapeTracker.reshape transposed23 [3; 2] = Ok transposed23.
Proof.
  split; [exact transposed23_wf|].
  exact (identity_arguments transposed23 [3; 2] transposed23_wf eq_refl).
Defined.

Lemma distinct_NoDup (l : list Z) : ShapeTracker.distinct l = true <-> NoDup l.
Proof.
  induction l as [|x l IH]; simpl.
  - split; [constructor | reflexivity].
  - rewrite andb_true_iff, negb_true_iff, IH. split.
    + intros [H1 H2]. constructor; [|exact H2]. intros Hin.
      assert (existsb (Z.eqb x) l = true).
      { apply existsb_exists. exists x. split; [exact Hin | apply Z.eqb_refl]. }
      congruence.
    + intros H. inversion H as [|? ? H1 H2]; subst. split; [|exact H2].
      destruct (existsb (Z.eqb x) l) eqn:E; [|reflexivity].
      apply existsb_exists in E as (y & Hy & Exy). apply Z.eqb_eq in Exy.
      subst. contradiction.
Qed.

Lemma in_range_check (rank : nat) (axis : list Z) :
  forallb (fun x => (0 <=? x) && (x <? Z.of_nat rank)) axis = true
  <-> Forall (fun a => 0 <= a < Z.of_nat rank) axis.
Proof.
  rewrite forallb_forall, Forall_forall. split; intros H x Hx; specialize (H x Hx).
  - apply andb_true_iff in H as [H1 H2]. apply Z.leb_le in H1.
    apply Z.ltb_lt in H2. lia.
  - apply andb_true_iff. split; [apply Z.leb_le | apply Z.ltb_lt]; lia.
Qed.

Lemma gather_pick (l : list Z) (axis : list Z) :
  Forall (fun a => 0 <= a < Z.of_nat (List.length l)) axis ->
  ShapeTracker.gather l axis = Ok (pick l axis).
Proof.
  induction 1 as [|a axis Ha _ IH]; [reflexivity|].
  simpl. unfold index.
  destruct (nth_error l (Z.to_nat a)) as [x|] eqn:E.
  - simpl. rewrite IH. simpl. rewrite (nth_error_nth _ _ _ E). reflexivity.
  - apply nth_error_None in E. lia.
Qed.

Lemma Zsum_Permutation (a b : list Z) : Permutation a b -> Zsum a = Zsum b.
Proof.
  induction 1 as [| x a b _ IH | x y a | a b c _ IH1 _ IH2]; simpl;
    [reflexivity | rewrite IH; reflexivity | lia | congruence].
Qed.

Lemma axes_Permutation (rank : nat) (axis : list Z) :
  permutation_axes rank axis ->
  Permutation (map Z.to_nat axis) (seq 0 rank).
Proof.
  intros (Hr & Hd & Hl).
  apply NoDup_Permutation_bis.
  - clear Hl. induction Hd as [|x l Hx _ IH]; [constructor|].
    inversion Hr as [|? ? Hx0 Hr']; subst. simpl. constructor; [|exact (IH Hr')].
    intros Hin. apply in_map_iff in Hin as (y & Ey & Hy).
    rewrite Forall_forall in Hr'. specialize (Hr' y Hy).
    assert (y = x) by lia. subst. contradiction.
  - rewrite length_map, length_seq. lia.
  - intros i Hi. apply in_map_iff in Hi as (a & <- & Ha).
    rewrite Forall_forall in Hr. specialize (Hr a Ha). apply in_seq. lia.
Qed.

Lemma affine_seq (sts vals : list Z) :
  List.length vals = List.length sts ->
  affine sts vals
  = Zsum (map (fun i => nth i vals 0 * nth i sts 0) (seq 0 (List.length sts))).
Proof.
  revert vals. induction sts as [|z sts IH]; intros [|v vals] L; try discriminate.
  - reflexivity.
  - simpl in L. rewrite affine_cons, (IH vals) by lia.
    cbn [List.length seq map Zsum nth]. rewrite <- seq_shift, map_map. reflexivity.
Qed.

Lemma affine_pick (sts vals axis : list Z) :
  affine (pick sts axis) (pick vals axis)
  = Zsum (map (fun i => nth i vals 0 * nth i sts 0) (map Z.to_nat axis)).
Proof.
  unfold affine, pick. induction axis as [|a axis IH]; [reflexivity|].
  simpl. rewrite IH. reflexivity.
Qed.

Lemma affine_permuted (sts vals axis : list Z) :
  List.length vals = List.length sts ->
  permutation_axes (List.length sts) axis ->
  affine (pick sts axis) (pick vals axis) = affine sts vals.
Proof.
  intros L Hp. rewrite affine_pick, (affine_seq sts vals L).
  apply Zsum_Permutation, Permutation_map, axes_Permutation. exact Hp.
Qed.


Lemma nth_normalize (sts : list Z) :
  forall sh i,
    List.length sts = List.length sh ->
    nth i (normalize sts sh) 0 = if nth i sh 0 =? 1 then 0 else nth i sts 0.
Proof.
  induction sts as [|z sts IH]; intros [|s sh] i L; try discriminate.
  - destruct i; reflexivity.
  - simpl in L. destruct i as [|i].
    + reflexivity.
    + change (normalize (z :: sts) (s :: sh))
        with ((if s =? 1 then 0 else z) :: normalize sts sh).
      simpl. apply IH. lia.
Qed.

Lemma normalize_pick (sts sh axis : list Z) :
  List.length sts = List.length sh ->
  normalize (pick sts axis) (pick sh axis) = pick (normalize sts sh) axis.
Proof.
  intros L. unfold pick. induction axis as [|a axis IH]; [reflexivity|].
  simpl. change (normalize (?z :: ?l) (?s :: ?r))
    with ((if s =? 1 then 0 else z) :: normalize l r).
  rewrite IH, (nth_normalize sts sh _ L). reflexivity.
Qed.

Lemma multi_index_nth (sh : list Z) :
  forall vals i,
    multi_index sh vals -> (i < List.length sh)%nat ->
    0 <= nth i vals 0 < nth i sh 0.
Proof.
  induction sh as [|s sh IH]; intros [|v vals] i M Hi; simpl in Hi; try lia;
    try (destruct M; discriminate).
  apply multi_index_cons in M as [Hv M].
  destruct i as [|i]; simpl; [exact Hv | apply IH; [exact M | lia]].
Qed.

Lemma pick_length (l axis : list Z) : List.length (pick l axis) = List.length axis.
Proof. unfold pick. apply length_map. Qed.

Lemma pick_multi_index (sh vals axis : list Z) :
  multi_index sh vals ->
  Forall (fun a => 0 <= a < Z.of_nat (List.length sh)) axis ->
  multi_index (pick sh axis) (pick vals axis).
Proof.
  intros M Hr. split; [rewrite !pick_length; reflexivity|].
  unfold pick. induction Hr as [|a axis Ha _ IH]; simpl; constructor; [|exact IH].
  simpl. apply multi_index_nth; [exact M | lia].
Qed.

Lemma pick_positive (sh axis : list Z) :
  positive_shape sh ->
  Forall (fun a => 0 <= a < Z.of_nat (List.length sh)) axis ->
  positive_shape (pick sh axis).
Proof.
  intros Hp Hr. unfold positive_shape, pick. apply Forall_map.
  apply Forall_impl with (2 := Hr). intros a Ha.
  unfold positive_shape in Hp. rewrite Forall_forall in Hp. apply Hp.
  apply nth_In. lia.
Qed.

Lemma permute_semantics
      (st : ShapeTracker.t) (sh axis vals : list Z) :
  ShapeTracker_wf st ->
  ShapeTracker.shape st = Ok sh ->
  permutation_axes (List.length sh) axis ->
  multi_index sh vals ->
  exists st',
    ShapeTracker.permute st axis = Ok st'
    /\ ShapeTracker_wf st'
    /\ ShapeTracker.shape st' = Ok (pick sh axis)
    /\ List.length (ShapeTracker.views st') = List.length (ShapeTracker.views st)
    /\ ShapeTracker.needs_valid st' = ShapeTracker.needs_valid st
    /\ multi_index (pick sh axis) (pick vals axis)
    /\ naive_offset st' 0 (pick vals axis) = naive_offset st 0 vals
    /\ naive_valid st' 0 (pick vals axis) = naive_valid st 0 vals.
Proof.
  intros Hwf Es Hp M.
  destruct (wf_top st Hwf) as (below & v & Hviews & Hv & Hb & _ & Es' & Et & Eo).
  rewrite Es in Es'. injection Es' as ->.
  pose proof (View_wf_lengths v Hv) as L.
  destruct Hp as (Hr & Hd & Hl).
  assert (Hr' : Forall (fun a => 0 <= a < Z.of_nat (List.length (View.strides v))) axis)
    by (rewrite L; exact Hr).
  destruct (View_init_ok (pick (View.shape v) axis) (pick (View.strides v) axis)
                         (View.offset v))
    as (v' & I & S1 & S2 & S3 & S4).
  { rewrite !pick_length. lia. }
  assert (Hv' : View_wf v').
  { split; [rewrite S1; apply pick_positive; [exact (proj1 Hv) | exact Hr] | exact S4]. }
  rewrite (normalize_pick _ _ axis L), (View_wf_normalized v Hv) in S2.
  exists (ShapeTracker.mk (below ++ [IsView v'])).
  split.
  { unfold ShapeTracker.permute. rewrite Es. cbn [bind].
    rewrite (proj2 (in_range_check _ axis) Hr). simpl.
    rewrite (proj2 (distinct_NoDup axis) Hd), Hl, Nat.eqb_refl. simpl.
    rewrite Et, Eo. cbn [bind].
    rewrite (gather_pick _ _ Hr), (gather_pick _ _ Hr'). cbn [bind].
    rewrite I. cbn [bind]. unfold ShapeTracker.set_top.
    rewrite Hviews, unsnoc_snoc. reflexivity. }
  split; [apply wf_with_top; assumption|].
  split.
  { unfold ShapeTracker.shape, ShapeTracker.top. simpl.
    rewrite unsnoc_snoc. simpl. rewrite S1. reflexivity. }
  split; [rewrite Hviews; simpl; rewrite !length_app; reflexivity|].
  split.
  { destruct st as [vs]. simpl in Hviews. subst vs. apply needs_valid_top. }
  split; [apply pick_multi_index; assumption|].
  rewrite (naive_offset_top (ShapeTracker.mk (below ++ [IsView v'])) below v'
             0 _ eq_refl (View_wf_lengths v' Hv')).
  rewrite (naive_valid_top (ShapeTracker.mk (below ++ [IsView v'])) below v'
             0 _ eq_refl (View_wf_lengths v' Hv')).
  rewrite (naive_offset_top st below v 0 _ Hviews L).
  rewrite (naive_valid_top st below v 0 _ Hviews L).
  rewrite S2, S3, affine_permuted.
  - split; reflexivity.
  - rewrite (multi_index_length _ _ M). symmetry. exact L.
  - rewrite L. repeat split; assumption.
Qed.

(** X14.  On a well-formed ShapeTracker, [permute] with a rearrangement
    [axis] of [0 .. n-1] replaces the top view by one of shape
    [(shape[axis[0]], ...)] and adds no view.  The element at the
    multi-index [(vals[axis[0]], ...)] of the result is the element of the
    old tracker at [vals]: buffer offset and validity agree. *)
Theorem permute_addresses
        (st : ShapeTracker.t) (sh axis vals : list Z) :
  ShapeTracker_wf st ->
  ShapeTracker.shape st = Ok sh ->
  permutation_axes (List.length sh) axis ->
  multi_index sh vals ->
  exists st',
    ShapeTracker.permute st axis = Ok st'
    /\ ShapeTracker_wf st'
    /\ ShapeTracker.shape st' = Ok (pick sh axis)
    /\ List.length (ShapeTracker.views st') = List.length (ShapeTracker.views st)
    /\ ShapeTracker.needs_valid st' = ShapeTracker.needs_valid st
    /\ multi_index (pick sh axis) (pick vals axis)
    /\ naive_offset st' 0 (pick vals axis) = naive_offset st 0 vals
    /\ naive_valid st' 0 (pick vals axis) = naive_valid st 0 vals.
Proof. exact (permute_semantics st sh axis vals). Qed.

Lemma permute_addresses_witness :
  ShapeTracker_wf flat234
  /\ permutation_axes (List.length [2; 3; 4]) [2; 0; 1]
  /\ multi_index [2; 3; 4] [1; 2; 3]
  /\ exists st',
       ShapeTracker.permute flat234 [2; 0; 1] = Ok st'
       /\ ShapeTracker_wf st'
       /\ ShapeTracker.shape st' = Ok (pick [2; 3; 4] [2; 0; 1])
       /\ List.length (ShapeTracker.views st')
          = List.length (ShapeTracker.views flat234)
       /\ ShapeTracker.needs_valid st' = ShapeTracker.needs_valid flat234
       /\ multi_index (pick [2; 3; 4] [2; 0; 1]) (pick [1; 2; 3] [2; 0; 1])
       /\ naive_offset st' 0 (pick [1; 2; 3] [2; 0; 1])
          = naive_offset flat234 0 [1; 2; 3]
       /\ naive_valid st' 0 (pick [1; 2; 3] [2; 0; 1])
          = naive_valid flat234 0 [1; 2; 3].
Proof.
  assert (P : permutation_axes (List.length [2; 3; 4]) [2; 0; 1]).
  { split; [concrete_forall|]. split; [|reflexivity].
    apply distinct_NoDup. reflexivity. }
  assert (M : multi_index [2; 3; 4] [1; 2; 3]).
  { split; [reflexivity | concrete_forall]. }
  split; [exact flat234_wf|]. split; [exact P|]. split; [exact M|].
  exact (permute_addresses flat234 [2; 3; 4] [2; 0; 1] [1; 2; 3]
           flat234_wf eq_refl P M).
Defined.

(** X15.  [permute] accepts nothing but a rearrangement of [0 .. n-1]: an
    axis out of range, a repeated axis or a wrong number of axes raises the
    fatal assertion. *)
Theorem permute_rejects (st : ShapeTracker.t) (sh axis : list Z) :
  ShapeTracker.shape st = Ok sh ->
  ~ permutation_axes (List.length sh) axis ->
  ShapeTracker.permute st axis = Raise AssertionError.
Proof.
  intros Es Hn. unfold ShapeTracker.permute. rewrite Es. cbn [bind].
  destruct (forallb _ axis) eqn:E1; [|reflexivity].
  destruct (ShapeTracker.distinct axis) eqn:E2; [|reflexivity].
  destruct (Nat.eqb _ _) eqn:E3; [|reflexivity].
  exfalso. apply Hn. split; [apply in_range_check; exact E1|].
  split; [apply distinct_NoDup; exact E2 | apply Nat.eqb_eq; exact E3].
Qed.

Lemma permute_rejects_witness :
  ~ permutation_axes (List.length [3; 2]) [0; 0]
  /\ ShapeTracker.permute transposed23 [0; 0] = Raise AssertionError.
Proof.
  assert (N : ~ permutation_axes (List.length [3; 2]) [0; 0]).
  { intros (_ & Hd & _). apply distinct_NoDup in Hd. discriminate. }
  split; [exact N|].
  exact (permute_rejects transposed23 [3; 2] [0; 0] eq_refl N).
Defined.

Lemma multi_index_positive (sh : list Z) :
  forall vals, multi_index sh vals -> positive_shape sh.
Proof.
  induction sh as [|s sh IH]; intros [|v vals] M; try (destruct M; discriminate).
  - constructor.
  - apply multi_index_cons in M as [Hv M]. constructor; [lia | exact (IH vals M)].
Qed.

Lemma expand_affine (sh : list Z) :
  forall sts new_shape vals,
    List.length sts = List.length sh ->
    List.length new_shape = List.length sh ->
    positive_shape sh ->
    expandable sh new_shape ->
    multi_index new_shape vals ->
    affine (normalize (expand_strides sts sh new_shape) new_shape) vals
    = affine sts (collapse sh new_shape vals)
    /\ multi_index sh (collapse sh new_shape vals).
Proof.
  unfold expandable.
  induction sh as [|x sh IH]; intros [|z sts] [|y new_shape] vals L1 L2 Hp He M;
    try discriminate.
  - apply multi_index_nil_l in M. subst. split; [reflexivity|].
    split; [reflexivity | constructor].
  - destruct vals as [|v vals]; [destruct M; discriminate|].
    apply multi_index_cons in M as [Hv M]. simpl in L1, L2.
    inversion Hp as [|? ? Hx Hp']; subst.
    simpl in He. inversion He as [|? ? Hxy He']; subst. simpl in Hxy.
    destruct (IH sts new_shape vals ltac:(lia) ltac:(lia) Hp' He' M) as [A B].
    change (expand_strides (z :: sts) (x :: sh) (y :: new_shape))
      with ((if x =? y then z else 0) :: expand_strides sts sh new_shape).
    change (collapse (x :: sh) (y :: new_shape) (v :: vals))
      with ((if x =? y then v else 0) :: collapse sh new_shape vals).
    rewrite normalize_cons, !affine_cons, A. split.
    + f_equal. destruct (Z.eqb_spec x y), (Z.eqb_spec y 1);
        try (assert (v = 0) by lia; subst v); lia.
    + apply multi_index_cons. split; [|exact B].
      destruct (Z.eqb_spec x y); lia.
Qed.

Lemma expandable_check_iff (sh new_shape : list Z) :
  forallb (fun '(x, y) => (x =? y) || (x =? 1)) (combine sh new_shape) = true
  <-> expandable sh new_shape.
Proof.
  unfold expandable. rewrite forallb_forall, Forall_forall.
  split; intros H [x y] Hx; specialize (H (x, y) Hx); simpl in *.
  - apply orb_true_iff in H as [H|H]; apply Z.eqb_eq in H; [left | right]; exact H.
  - apply orb_true_iff. destruct H as [H|H]; [left | right]; apply Z.eqb_eq; exact H.
Qed.

Lemma expand_semantics
      (st : ShapeTracker.t) (sh new_shape vals : list Z) :
  ShapeTracker_wf st ->
  ShapeTracker.shape st = Ok sh ->
  List.length new_shape = List.length sh ->
  expandable sh new_shape ->
  multi_index new_shape vals ->
  exists st',
    ShapeTracker.expand st new_shape = Ok st'
    /\ ShapeTracker_wf st'
    /\ ShapeTracker.shape st' = Ok new_shape
    /\ List.length (ShapeTracker.views st') = List.length (ShapeTracker.views st)
    /\ ShapeTracker.needs_valid st' = ShapeTracker.needs_valid st
    /\ multi_index sh (collapse sh new_shape vals)
    /\ naive_offset st' 0 vals = naive_offset st 0 (collapse sh new_shape vals)
    /\ naive_valid st' 0 vals = naive_valid st 0 (collapse sh new_shape vals).
Proof.
  intros Hwf Es Hl He M.
  destruct (wf_top st Hwf) as (below & v & Hviews & Hv & Hb & _ & Es' & Et & Eo).
  rewrite Es in Es'. injection Es' as ->.
  pose proof (View_wf_lengths v Hv) as L.
  destruct (View_init_ok new_shape
              (expand_strides (View.strides v) (View.shape v) new_shape)
              (View.offset v))
    as (v' & I & S1 & S2 & S3 & S4).
  { unfold expand_strides. rewrite length_map, !length_combine. lia. }
  assert (Hv' : View_wf v').
  { split; [rewrite S1; exact (multi_index_positive _ _ M) | exact S4]. }
  destruct (expand_affine _ _ _ vals L Hl (proj1 Hv) He M) as [A B].
  exists (ShapeTracker.mk (below ++ [IsView v'])).
  split.
  { unfold ShapeTracker.expand. rewrite Es. cbn [bind].
    rewrite (expandable_check _ _ He). simpl. rewrite Et, Eo. cbn [bind].
    fold (expand_strides (View.strides v) (View.shape v) new_shape).
    rewrite I. cbn [bind]. unfold ShapeTracker.set_top.
    rewrite Hviews, unsnoc_snoc. reflexivity. }
  split; [apply wf_with_top; assumption|].
  split.
  { unfold ShapeTracker.shape, ShapeTracker.top. simpl.
    rewrite unsnoc_snoc. simpl. rewrite S1. reflexivity. }
  split; [rewrite Hviews; simpl; rewrite !length_app; reflexivity|].
  split.
  { destruct st as [vs]. simpl in Hviews. subst vs. apply needs_valid_top. }
  split; [exact B|].
  rewrite (naive_offset_top (ShapeTracker.mk (below ++ [IsView v'])) below v'
             0 _ eq_refl (View_wf_lengths v' Hv')).
  rewrite (naive_valid_top (ShapeTracker.mk (below ++ [IsView v'])) below v'
             0 _ eq_refl (View_wf_lengths v' Hv')).
  rewrite (naive_offset_top st below v 0 _ Hviews L).
  rewrite (naive_valid_top st below v 0 _ Hviews L).
  rewrite S2, S3, A. split; reflexivity.
Qed.

(** X16.  On a well-formed ShapeTracker, [expand] to a shape of the same
    rank that differs only where the current size is 1 replaces the top view
    by one of the new shape and adds no view.  The element at a multi-index
    [vals] of the new shape is the element of the old tracker at [vals] with
    every broadcast dimension read at 0: buffer offset and validity agree. *)
Theorem expand_broadcasts
        (st : ShapeTracker.t) (sh new_shape vals : list Z) :
  ShapeTracker_wf st ->
  ShapeTracker.shape st = Ok sh ->
  List.length new_shape = List.length sh ->
  expandable sh new_shape ->
  multi_index new_shape vals ->
  exists st',
    ShapeTracker.expand st new_shape = Ok st'
    /\ ShapeTracker_wf st'
    /\ ShapeTracker.shape st' = Ok new_shape
    /\ List.length (ShapeTracker.views st') = List.length (ShapeTracker.views st)
    /\ ShapeTracker.needs_valid st' = ShapeTracker.needs_valid st
    /\ multi_index sh (collapse sh new_shape vals)
    /\ naive_offset st' 0 vals = naive_offset st 0 (collapse sh new_shape vals)
    /\ naive_valid st' 0 vals = naive_valid st 0 (collapse sh new_shape vals).
Proof. exact (expand_semantics st sh new_shape vals). Qed.

Lemma expand_broadcasts_witness :
  ShapeTracker_wf column3
  /\ expandable [3; 1] [3; 4]
  /\ multi_index [3; 4] [2; 3]
  /\ exists st',
       ShapeTracker.expand column3 [3; 4] = Ok st'
       /\ ShapeTracker_wf st'
       /\ ShapeTracker.shape st' = Ok [3; 4]
       /\ List.length (ShapeTracker.views st')
          = List.length (ShapeTracker.views column3)
       /\ ShapeTracker.needs_valid st' = ShapeTracker.needs_valid column3
       /\ multi_index [3; 1] (collapse [3; 1] [3; 4] [2; 3])
       /\ naive_offset st' 0 [2; 3]
          = naive_offset column3 0 (collapse [3; 1] [3; 4] [2; 3])
       /\ naive_valid st' 0 [2; 3]
          = naive_valid column3 0 (collapse [3; 1] [3; 4] [2; 3]).
Proof.
  assert (W : ShapeTracker_wf column3) by concrete_wf.
  assert (E : expandable [3; 1] [3; 4]).
  { apply expandable_check_iff. reflexivity. }
  assert (M : multi_index [3; 4] [2; 3]).
  { split; [reflexivity | concrete_forall]. }
  split; [exact W|]. split; [exact E|]. split; [exact M|].
  exact (expand_broadcasts column3 [3; 1] [3; 4] [2; 3]
           W eq_refl eq_refl E M).
Defined.

(** X17.  [expand] raises the fatal assertion when some entry of the new
    shape differs from a current dimension that is not 1, and also when the
    new shape has more entries than the current one: the constructor of the
    view then gets fewer strides than dimensions. *)
Theorem expand_rejects (st : ShapeTracker.t) (sh new_shape : list Z) :
  ShapeTracker_wf st ->
  ShapeTracker.shape st = Ok sh ->
  ~ expandable sh new_shape \/ (List.length sh < List.length new_shape)%nat ->
  ShapeTracker.expand st new_shape = Raise AssertionError.
Proof.
  intros Hwf Es H.
  destruct (wf_top st Hwf) as (below & v & Hviews & Hv & Hb & _ & Es' & Et & Eo).
  rewrite Es in Es'. injection Es' as ->.
  pose proof (View_wf_lengths v Hv) as L.
  unfold ShapeTracker.expand. rewrite Es. cbn [bind].
  destruct (forallb _ (combine (View.shape v) new_shape)) eqn:E.
  - destruct H as [H|H]; [exfalso; apply H, expandable_check_iff; exact E|].
    simpl. rewrite Et, Eo. cbn [bind].
    unfold View.init, to_shape_strides.
    replace (Nat.eqb _ _) with false; [reflexivity|].
    symmetry. apply Nat.eqb_neq. unfold normalize.
    rewrite !length_map, !length_combine, length_map, !length_combine. lia.
  - reflexivity.
Qed.

Lemma expand_rejects_witness :
  ShapeTracker_wf flat3
  /\ (~ expandable [3] [3; 2] \/ (List.length [3] < List.length [3; 2])%nat)
  /\ ShapeTracker.expand flat3 [3; 2] = Raise AssertionError.
Proof.
  assert (H : ~ expandable [3] [3; 2] \/ (List.length [3] < List.length [3; 2])%nat).
  { right. simpl. lia. }
  split; [exact flat3_wf|]. split; [exact H|].
  exact (expand_rejects flat3 [3] [3; 2] flat3_wf eq_refl H).
Defined.

Lemma View_at_digits (v : View.t) :
  View_wf v ->
  forall i, View_at v i
            = View.offset v + digits_value (combine (View.shape v) (View.strides v)) i.
Proof.
  intros Hv i. pose proof (View_wf_lengths v Hv) as L.
  pose proof (View_wf_shape_strides v Hv) as S.
  destruct (to_shape_strides_map (View.shape v) (View.strides v)
              ltac:(lia) (proj1 Hv)) as (dims & E & _ & _ & Hmap).
  rewrite S in E. injection E as <-.
  unfold View_at. rewrite Hmap, linear_terms_digits. reflexivity.
Qed.

Lemma same_map_affine (v v' : View.t) (vals vals' : list Z) :
  View_wf v -> View_wf v' ->
  (forall i, 0 <= i < prod (View.shape v) -> View_at v' i = View_at v i) ->
  multi_index (View.shape v) vals ->
  multi_index (View.shape v') vals' ->
  ravel (View.shape v') vals' = ravel (View.shape v) vals ->
  View.offset v' + affine (View.strides v') vals'
  = View.offset v + affine (View.strides v) vals.
Proof.
  intros Hv Hv' Hat M M' R.
  rewrite <- (View_at_ravel v vals Hv M), <- (View_at_ravel v' vals' Hv' M'), R.
  apply Hat. apply ravel_bounds; [exact (proj1 Hv) | exact M].
Qed.

Lemma digits_value_unit (dims : list (Z * Z)) :
  positive_dims dims -> dims_size dims = 1 ->
  forall i, digits_value dims i = 0.
Proof.
  induction 1 as [|[d s] r Hd Hr IH]; intros E i; [reflexivity|].
  simpl in Hd. rewrite dims_size_cons in E.
  pose proof (dims_size_positive r Hr) as HP.
  assert (d = 1 /\ dims_size r = 1) as [-> E'] by nia.
  cbn [digits_value]. rewrite (IH E' i), Z.mod_1_r. lia.
Qed.

Lemma digits_value_filter (dims : list (Z * Z)) :
  dims_size (filter (fun '(d, _) => negb (d =? 1)) dims) = dims_size dims
  /\ forall i, digits_value (filter (fun '(d, _) => negb (d =? 1)) dims) i
               = digits_value dims i.
Proof.
  induction dims as [|[d s] r [IH1 IH2]]; [split; reflexivity|].
  cbn [filter]. destruct (Z.eqb_spec d 1) as [->|Hd]; cbn [negb].
  - split.
    + rewrite dims_size_cons, IH1. lia.
    + intros i. cbn [digits_value]. rewrite IH2, Z.mod_1_r. lia.
  - split.
    + rewrite !dims_size_cons, IH1. reflexivity.
    + intros i. cbn [digits_value]. rewrite IH1, IH2. reflexivity.
Qed.

Lemma reshape_ones_spec (new_shape : list Z) :
  forall olds,
    List.length olds = List.length (filter (fun x => negb (x =? 1)) new_shape) ->
    exists l,
      ShapeTracker.reshape_ones new_shape olds = Ok l
      /\ List.length l = List.length new_shape
      /\ filter (fun '(d, _) => negb (d =? 1)) (combine new_shape l)
         = combine (filter (fun x => negb (x =? 1)) new_shape) olds.
Proof.
  induction new_shape as [|x rest IH]; intros olds L.
  - exists []. repeat split.
  - cbn [filter] in L. cbn [ShapeTracker.reshape_ones filter].
    destruct (Z.eqb_spec x 1) as [->|Hx]; cbn [negb] in *.
    + destruct (IH olds L) as (l & E1 & E2 & E3). rewrite E1. cbn [bind].
      exists (0 :: l). split; [reflexivity|]. split; [simpl; lia|].
      cbn [combine filter]. simpl (negb (1 =? 1)). exact E3.
    + destruct olds as [|y olds]; [discriminate|]. simpl in L.
      destruct (IH olds ltac:(lia)) as (l & E1 & E2 & E3). rewrite E1. cbn [bind].
      exists (y :: l). split; [reflexivity|]. split; [simpl; lia|].
      cbn [combine filter]. destruct (Z.eqb_spec x 1); [contradiction|].
      cbn [negb]. rewrite E3. reflexivity.
Qed.

Lemma filter_combine_snd (sh : list Z) :
  forall sts,
    List.length sts = List.length sh ->
    combine (filter (fun x => negb (x =? 1)) sh)
            (map snd (filter (fun '(x, _) => negb (x =? 1)) (combine sh sts)))
    = filter (fun '(x, _) => negb (x =? 1)) (combine sh sts)
    /\ @List.length Z (map snd (filter (fun '(x, _) => negb (x =? 1)) (combine sh sts)))
       = List.length (filter (fun x => negb (x =? 1)) sh).
Proof.
  induction sh as [|x sh IH]; intros [|z sts] L; try discriminate.
  - split; reflexivity.
  - simpl in L. destruct (IH sts ltac:(lia)) as [E1 E2].
    cbn [combine filter]. destruct (negb (x =? 1)).
    + simpl. simpl in E1, E2. rewrite E1, E2. split; reflexivity.
    + split; assumption.
Qed.

Lemma reshape_ones_map (sh sts new_shape : list Z) :
  List.length sts = List.length sh ->
  filter (fun x => negb (x =? 1)) sh = filter (fun x => negb (x =? 1)) new_shape ->
  exists l,
    ShapeTracker.reshape_ones new_shape
      (map snd (filter (fun '(x, _) => negb (x =? 1)) (combine sh sts))) = Ok l
    /\ List.length l = List.length new_shape
    /\ forall i, digits_value (combine new_shape (normalize l new_shape)) i
                 = digits_value (combine sh sts) i.
Proof.
  intros L F. destruct (filter_combine_snd sh sts L) as [C1 C2].
  destruct (reshape_ones_spec new_shape _ ltac:(rewrite C2, F; reflexivity))
    as (l & E1 & E2 & E3).
  exists l. split; [exact E1|]. split; [exact E2|]. intros i.
  rewrite <- (proj2 (digits_value_filter (combine sh sts))), <- C1, F, <- E3.
  rewrite (proj2 (digits_value_filter (combine new_shape l))).
  rewrite <- (proj2 (digits_value_filter (combine new_shape (normalize l new_shape)))).
  rewrite <- (proj2 (digits_value_filter (combine new_shape l))).
  f_equal. clear -E2. revert l E2.
  induction new_shape as [|x rest IH]; intros [|y l] E2; try discriminate;
    [reflexivity|].
  rewrite normalize_cons. cbn [combine filter].
  simpl in E2. rewrite (IH l ltac:(lia)).
  destruct (Z.eqb_spec x 1); reflexivity.
Qed.

Lemma ones_check (l : list Z) :
  positive_shape l -> prod l = 1 -> forallb (fun x => x =? 1) l = true.
Proof.
  induction 1 as [|x l Hx Hl IH]; intros E; [reflexivity|].
  rewrite prod_cons in E. pose proof (prod_positive l Hl) as HP.
  assert (x = 1 /\ prod l = 1) as [-> E'] by nia.
  simpl. apply IH. exact E'.
Qed.

Lemma digits_value_ones (l : list Z) :
  forallb (fun x => x =? 1) l = true ->
  forall sts i, digits_value (combine l sts) i = 0.
Proof.
  induction l as [|x l IH]; intros H [|z sts] i; try reflexivity.
  simpl in H. apply andb_true_iff in H as [Hx H]. apply Z.eqb_eq in Hx. subst x.
  cbn [combine digits_value]. rewrite (IH H), Z.mod_1_r. lia.
Qed.

Lemma split_digit (x s c : Z) :
  0 < s -> 0 < c ->
  x mod (s * c) = ((x / c) mod s) * c + x mod c.
Proof.
  intros Hs Hc. rewrite (Z.mul_comm s c), Z.rem_mul_r by lia. lia.
Qed.

Lemma reshape_loop_spec (new_shape : list Z) :
  positive_shape new_shape ->
  forall curr_dim curr_stride mss acc,
    0 < curr_dim -> positive_dims mss ->
    curr_dim * dims_size mss = prod new_shape ->
    exists res,
      ShapeTracker.reshape_loop new_shape curr_dim curr_stride mss acc = Ok res
      /\ (List.length res <= List.length acc + List.length new_shape)%nat
      /\ (List.length res = (List.length acc + List.length new_shape)%nat ->
          exists l,
            res = acc ++ l
            /\ List.length l = List.length new_shape
            /\ forall i,
                 digits_value (combine new_shape (normalize l new_shape)) i
                 = digits_value ((curr_dim, curr_stride) :: mss) i).
Proof.
  induction 1 as [|s rest Hs Hrest IH]; intros cd cs mss acc Hcd Hmss E.
  - exists acc. split; [reflexivity|]. split; [simpl; lia|]. intros _.
    exists []. split; [rewrite app_nil_r; reflexivity|]. split; [reflexivity|].
    intros i. symmetry. apply digits_value_unit.
    + constructor; [exact Hcd | exact Hmss].
    + rewrite dims_size_cons. exact E.
  - pose proof (dims_size_positive mss Hmss) as HD.
    pose proof (prod_positive rest Hrest) as HR.
    rewrite prod_cons in E.
    cbn [ShapeTracker.reshape_loop].
    destruct (Z.eqb_spec (cd mod s) 0) as [Hm|Hm].
    + (* the current merged dimension splits by s *)
      assert (Ecd : cd = s * (cd / s)).
      { pose proof (Z.div_mod cd s ltac:(lia)). lia. }
      assert (Hq : 0 < cd / s) by nia.
      set (q := cd / s) in *. clearbody q.
      destruct (Z.eqb_spec q 1) as [Hq1|Hq1].
      * subst q. rewrite Z.mul_1_r in Ecd. subst cd.
        destruct mss as [|[d st] mss'].
        -- (* nothing is left: the rest is all ones *)
           assert (Hp1 : prod rest = 1).
           { change (dims_size []) with 1 in E. nia. }
           pose proof (ones_check rest Hrest Hp1) as Ho.
           rewrite Ho. cbn [assert bind].
           exists ((acc ++ [cs * 1]) ++ map (fun _ => 1) rest).
           split; [reflexivity|].
           split; [rewrite !length_app, length_map; simpl; lia|]. intros _.
           exists (cs * 1 :: map (fun _ => 1) rest).
           split; [rewrite <- app_assoc; reflexivity|].
           split; [simpl; rewrite length_map; reflexivity|].
           intros i. rewrite normalize_cons. cbn [combine digits_value].
           rewrite !(digits_value_ones rest Ho).
           rewrite combine_dims_size
             by (rewrite normalize_length; rewrite ?length_map; lia).
           change (dims_size []) with 1. rewrite Hp1.
           destruct (Z.eqb_spec s 1) as [->|Hs1].
           ++ rewrite Z.mod_1_r. lia.
           ++ f_equal. lia.
        -- (* the next merged dimension is taken up *)
           inversion Hmss as [|? ? Hd Hmss']; subst. simpl in Hd.
           rewrite dims_size_cons in E.
           destruct (IH d st mss' (acc ++ [cs * 1]) Hd Hmss')
             as (res & R1 & R2 & R3).
           { rewrite dims_size_cons in HD. nia. }
           exists res. split; [exact R1|].
           rewrite length_app in R2, R3. simpl in R2, R3.
           split; [simpl; lia|]. intros HL.
           destruct (R3 ltac:(simpl in HL; lia)) as (l & L1 & L2 & L3).
           exists (cs * 1 :: l).
           split; [rewrite L1, <- app_assoc; reflexivity|].
           split; [simpl; lia|].
           intros i. rewrite normalize_cons. cbn [combine digits_value].
           rewrite L3.
           rewrite combine_dims_size by (rewrite normalize_length; lia).
           assert (Hpr : prod rest = dims_size ((d, st) :: mss')).
           { rewrite dims_size_cons. nia. }
           rewrite Hpr.
           destruct (Z.eqb_spec s 1) as [->|Hs1].
           ++ rewrite !Z.mod_1_r. lia.
           ++ f_equal. f_equal. lia.
      * (* the current merged dimension is not used up *)
        destruct (IH q cs mss (acc ++ [cs * q]) Hq Hmss) as (res & R1 & R2 & R3).
        { nia. }
        exists res. split; [exact R1|].
        rewrite length_app in R2, R3. simpl in R2, R3.
        split; [simpl; lia|]. intros HL.
        destruct (R3 ltac:(simpl in HL; lia)) as (l & L1 & L2 & L3).
        exists (cs * q :: l).
        split; [rewrite L1, <- app_assoc; reflexivity|].
        split; [simpl; lia|].
        intros i. rewrite normalize_cons. cbn [combine digits_value].
        rewrite L3. cbn [digits_value].
        rewrite combine_dims_size by (rewrite normalize_length; lia).
        assert (Hpr : prod rest = q * dims_size mss) by nia.
        rewrite Hpr, Ecd.
        rewrite (split_digit (i / dims_size mss) s q ltac:(lia) Hq).
        rewrite (Z.mul_comm q (dims_size mss)), <- Z.div_div by lia.
        destruct (Z.eqb_spec s 1) as [->|Hs1].
        -- rewrite !Z.mod_1_r. lia.
        -- ring.
    + (* it does not: the loop is left *)
      exists acc. split; [reflexivity|]. split; [simpl; lia|].
      intros HL. simpl in HL. lia.
Qed.

Lemma contiguous_view_init (v : View.t) :
  View_wf v ->
  View.contiguous v = true ->
  View.init (View.shape v) (strides_for_shape (View.shape v)) 0 = Ok v.
Proof.
  intros Hv C. pose proof Hv as [_ Hi].
  assert (Hc := C). unfold View.init in Hi.
  destruct (to_shape_strides _ _) as [ss|]; simpl in Hi; [|discriminate].
  injection Hi as Hi. rewrite <- Hi in Hc. simpl in Hc.
  apply andb_prop in Hc as [O F]. apply Z.eqb_eq in O.
  rewrite (View_wf_normalized v Hv) in F.
  pose proof (contiguous_strides (View.shape v) (View.strides v)
                (strides_for_shape (View.shape v))
                (View_wf_normalized v Hv) (View_wf_lengths v Hv)
                (strides_for_shape_length _) F) as N.
  rewrite (View_init_normalize _ _ (View.strides v)).
  - rewrite <- O. apply Hv.
  - rewrite N. symmetry. apply View_wf_normalized. exact Hv.
Qed.

Lemma contiguous_view_identity (v : View.t) :
  View_wf v ->
  View.contiguous v = true ->
  forall i, 0 <= i < prod (View.shape v) -> View_at v i = i.
Proof.
  intros Hv C i Hi. pose proof (contiguous_view_init v Hv C) as I.
  destruct (View.shape v) as [|d ds] eqn:Esh.
  - change (prod []) with 1 in Hi. assert (i = 0) by lia. subst i.
    rewrite (View_at_digits v Hv), Esh.
    unfold View.init in I. simpl in I. injection I as I.
    rewrite <- I. reflexivity.
  - destruct (view_from_shape_map (d :: ds) ltac:(discriminate)
                ltac:(rewrite <- Esh; exact (proj1 Hv)))
      as (v0 & I0 & _ & _ & _ & _ & Hat0).
    unfold view_from_shape in I0. simpl in I0. rewrite I in I0.
    injection I0 as <-. apply Hat0. exact Hi.
Qed.

Lemma contiguous_single_view (st : ShapeTracker.t) (below : list ViewTypes) (v : View.t) :
  ShapeTracker.views st = below ++ [IsView v] ->
  View_wf v ->
  ShapeTracker.contiguous st = Ok true ->
  below = []
  /\ View.init (View.shape v) (strides_for_shape (View.shape v)) 0 = Ok v.
Proof.
  intros Hviews Hv. unfold ShapeTracker.contiguous, ShapeTracker.top.
  rewrite Hviews, unsnoc_snoc. simpl.
  destruct (Nat.eqb _ 1) eqn:E1; [|discriminate].
  intros C. injection C as C.
  apply Nat.eqb_eq in E1. rewrite length_app in E1. simpl in E1.
  destruct below; [|simpl in E1; lia]. split; [reflexivity|].
  apply contiguous_view_init; assumption.
Qed.

Lemma contiguous_total (st : ShapeTracker.t) (below : list ViewTypes) (v : View.t) :
  ShapeTracker.views st = below ++ [IsView v] ->
  exists c, ShapeTracker.contiguous st = Ok c.
Proof.
  intros Hviews. unfold ShapeTracker.contiguous, ShapeTracker.top.
  rewrite Hviews, unsnoc_snoc. simpl.
  destruct (Nat.eqb _ 1); eexists; reflexivity.
Qed.

Lemma replace_top_same_map
      (st : ShapeTracker.t) (below : list ViewTypes) (v v' : View.t)
      (vals vals' : list Z) :
  ShapeTracker.views st = below ++ [IsView v] ->
  Forall ViewTypes_wf below ->
  View_wf v -> View_wf v' ->
  (forall i, 0 <= i < prod (View.shape v) -> View_at v' i = View_at v i) ->
  multi_index (View.shape v) vals ->
  multi_index (View.shape v') vals' ->
  ravel (View.shape v') vals' = ravel (View.shape v) vals ->
  ShapeTracker_wf (ShapeTracker.mk (below ++ [IsView v']))
  /\ ShapeTracker.shape (ShapeTracker.mk (below ++ [IsView v'])) = Ok (View.shape v')
  /\ (List.length (ShapeTracker.views (ShapeTracker.mk (below ++ [IsView v'])))
      <= S (List.length (ShapeTracker.views st)))%nat
  /\ ShapeTracker.needs_valid (ShapeTracker.mk (below ++ [IsView v']))
     = ShapeTracker.needs_valid st
  /\ naive_offset (ShapeTracker.mk (below ++ [IsView v'])) 0 vals'
     = naive_offset st 0 vals
  /\ naive_valid (ShapeTracker.mk (below ++ [IsView v'])) 0 vals'
     = naive_valid st 0 vals.
Proof.
  intros Hviews Hb Hv Hv' Hat M M' R.
  split; [apply wf_with_top; assumption|].
  split.
  { unfold ShapeTracker.shape, ShapeTracker.top. simpl.
    rewrite unsnoc_snoc. reflexivity. }
  split; [rewrite Hviews; simpl; rewrite !length_app; simpl; lia|].
  split.
  { destruct st as [vs]. simpl in Hviews. subst vs. apply needs_valid_top. }
  rewrite (naive_offset_top (ShapeTracker.mk (below ++ [IsView v'])) below v'
             0 _ eq_refl (View_wf_lengths v' Hv')).
  rewrite (naive_valid_top (ShapeTracker.mk (below ++ [IsView v'])) below v'
             0 _ eq_refl (View_wf_lengths v' Hv')).
  rewrite (naive_offset_top st below v 0 _ Hviews (View_wf_lengths v Hv)).
  rewrite (naive_valid_top st below v 0 _ Hviews (View_wf_lengths v Hv)).
  pose proof (same_map_affine v v' vals vals' Hv Hv' Hat M M' R) as A.
  replace (View.offset v' + 0 + affine (View.strides v') vals')
    with (View.offset v + 0 + affine (View.strides v) vals) by lia.
  split; reflexivity.
Qed.

Lemma view_with_digits (new_shape l : list Z) (off : Z) (v : View.t) :
  View_wf v ->
  positive_shape new_shape ->
  List.length l = List.length new_shape ->
  View.offset v = off ->
  (forall i, digits_value (combine new_shape (normalize l new_shape)) i
             = digits_value (combine (View.shape v) (View.strides v)) i) ->
  exists v',
    View.init new_shape l off = Ok v'
    /\ View_wf v'
    /\ View.shape v' = new_shape
    /\ forall i, View_at v' i = View_at v i.
Proof.
  intros Hv Hp L Ho D.
  destruct (View_init_ok new_shape l off ltac:(lia)) as (v' & I & S1 & S2 & S3 & S4).
  assert (Hv' : View_wf v') by (split; [rewrite S1; exact Hp | exact S4]).
  exists v'. split; [exact I|]. split; [exact Hv'|]. split; [exact S1|].
  intros i. rewrite (View_at_digits v' Hv'), (View_at_digits v Hv), S1, S2, S3, D.
  lia.
Qed.

Lemma no_ones_of_unit (l : list Z) :
  positive_shape l -> prod l = 1 -> filter (fun x => negb (x =? 1)) l = [].
Proof.
  intros Hp E. pose proof (ones_check l Hp E) as H.
  induction l as [|x l IH]; [reflexivity|].
  simpl in H. apply andb_true_iff in H as [Hx H].
  inversion Hp; subst. rewrite prod_cons in E.
  apply Z.eqb_eq in Hx. subst x.
  cbn [filter]. simpl (negb (1 =? 1)). apply IH; [assumption | lia | exact H].
Qed.

Lemma nonzero_of_positive (l : list Z) :
  positive_shape l -> forallb (fun x => negb (x =? 0)) l = true.
Proof.
  intros Hp. apply forallb_forall. intros x Hx.
  unfold positive_shape in Hp. rewrite Forall_forall in Hp. specialize (Hp x Hx).
  apply negb_true_iff, Z.eqb_neq. lia.
Qed.

Lemma reshape_semantics
      (st : ShapeTracker.t) (sh new_shape vals vals' : list Z) :
  ShapeTracker_wf st ->
  ShapeTracker.shape st = Ok sh ->
  prod new_shape = prod sh ->
  multi_index sh vals ->
  multi_index new_shape vals' ->
  ravel new_shape vals' = ravel sh vals ->
  exists st',
    ShapeTracker.reshape st new_shape = Ok st'
    /\ ShapeTracker_wf st'
    /\ ShapeTracker.shape st' = Ok new_shape
    /\ (List.length (ShapeTracker.views st')
        <= S (List.length (ShapeTracker.views st)))%nat
    /\ ShapeTracker.needs_valid st' = ShapeTracker.needs_valid st
    /\ naive_offset st' 0 vals' = naive_offset st 0 vals
    /\ naive_valid st' 0 vals' = naive_valid st 0 vals.
Proof.
  intros Hwf Es HP M M' R.
  destruct (wf_top st Hwf) as (below & v & Hviews & Hv & Hb & Etop & Es' & Et & Eo).
  rewrite Es in Es'. injection Es' as ->.
  pose proof (View_wf_lengths v Hv) as L.
  pose proof (multi_index_positive _ _ M') as Hp.
  assert (Est : ShapeTracker.mk (below ++ [IsView v]) = st).
  { destruct st as [vs]. simpl in Hviews. subst vs. reflexivity. }
  assert (Eset : forall v', ShapeTracker.set_top st (IsView v')
                            = Ok (ShapeTracker.mk (below ++ [IsView v']))).
  { intros v'. unfold ShapeTracker.set_top. rewrite Hviews, unsnoc_snoc.
    reflexivity. }
  unfold ShapeTracker.reshape. rewrite Es. cbn [bind]. cbv zeta.
  destruct (ShapeTracker.list_eqb (View.shape v) new_shape) eqn:Eq.
  { (* the same shape: the tracker is returned as it is *)
    apply list_eqb_eq in Eq. subst new_shape.
    exists st. split; [reflexivity|].
    destruct (replace_top_same_map st below v v vals vals' Hviews Hb Hv Hv
                ltac:(reflexivity) M M' R) as (W & S & Len & N & O & V).
    rewrite Est in W, S, N, O, V.
    split; [exact W|]. split; [exact S|]. split; [lia|].
    split; [exact N|]. split; [exact O | exact V]. }
  rewrite (nonzero_of_positive _ Hp). cbn [assert bind].
  rewrite <- HP, Z.eqb_refl. cbn [bind]. rewrite Et, Eo. cbn [bind].
  destruct (ShapeTracker.list_eqb (filter _ _) (filter _ _)) eqn:F.
  { (* only ones are added or removed *)
    apply list_eqb_eq in F.
    destruct (reshape_ones_map (View.shape v) (View.strides v) new_shape L F)
      as (l & E1 & E2 & E3).
    rewrite E1. cbn [bind].
    destruct (view_with_digits new_shape l (View.offset v) v Hv Hp E2 eq_refl E3)
      as (v' & I & Hv' & S1 & Hat).
    rewrite I. cbn [bind]. rewrite Eset.
    exists (ShapeTracker.mk (below ++ [IsView v'])). split; [reflexivity|].
    rewrite <- S1 in M', R |- *.
    apply (replace_top_same_map st below v v' vals vals'); try assumption.
    intros i _. apply Hat. }
  rewrite (View_wf_shape_strides v Hv). cbn [bind].
  pose proof (View_wf_positive_dims v Hv) as Hdims.
  destruct (to_shape_strides_map (View.shape v) (View.strides v)
              ltac:(lia) (proj1 Hv)) as (dims & Ed & _ & Dsize & Dmap).
  rewrite (View_wf_shape_strides v Hv) in Ed. injection Ed as <-.
  destruct (View.shape_strides v) as [|[cd cs] mss] eqn:Ess.
  { (* no merged dimension: then both shapes are all ones *)
    exfalso. change (dims_size []) with 1 in Dsize.
    rewrite (no_ones_of_unit _ (proj1 Hv) ltac:(lia)) in F.
    rewrite (no_ones_of_unit _ Hp ltac:(lia)) in F. discriminate. }
  unfold positive_dims in Hdims. apply Forall_cons_iff in Hdims as [Hcd Hmss].
  simpl in Hcd.
  destruct (reshape_loop_spec new_shape Hp cd cs mss [] Hcd Hmss)
    as (res & R1 & R2 & R3).
  { rewrite <- (dims_size_cons cd cs mss), Dsize. lia. }
  rewrite R1. cbn [bind].
  destruct (Nat.eqb (List.length new_shape) (List.length res)) eqn:EL.
  { (* the new dimensions factorize from the merged ones *)
    apply Nat.eqb_eq in EL.
    destruct (R3 ltac:(simpl; lia)) as (l & L1 & L2 & L3). simpl in L1. subst l.
    assert (D : forall i,
               digits_value (combine new_shape (normalize res new_shape)) i
               = digits_value (combine (View.shape v) (View.strides v)) i).
    { intros i. rewrite L3. specialize (Dmap i).
      rewrite !linear_terms_digits in Dmap. exact Dmap. }
    destruct (view_with_digits new_shape res (View.offset v) v Hv Hp L2 eq_refl D)
      as (v' & I & Hv' & S1 & Hat).
    rewrite I. cbn [bind]. rewrite Eset.
    exists (ShapeTracker.mk (below ++ [IsView v'])). split; [reflexivity|].
    rewrite <- S1 in M', R |- *.
    apply (replace_top_same_map st below v v' vals vals'); try assumption.
    intros i _. apply Hat. }
  (* a fresh view of the new shape *)
  assert (Hne : new_shape <> []).
  { intros ->. simpl in R2. destruct res; [discriminate | simpl in R2; lia]. }
  assert (Hne' : View.shape v <> []).
  { intros E0. pose proof (View_wf_shape_strides v Hv) as SS.
    rewrite E0, Ess in SS. unfold to_shape_strides in SS.
    destruct (View.strides v); simpl in SS; discriminate. }
  destruct (view_from_shape_map new_shape Hne Hp)
    as (v2 & I2 & Hv2 & T1 & T2 & _ & Hat2).
  assert (I2' : View.init new_shape (strides_for_shape new_shape) 0 = Ok v2).
  { unfold view_from_shape in I2. destruct new_shape; [congruence|]. exact I2. }
  rewrite I2'. cbn [bind].
  destruct (contiguous_total st below v Hviews) as (c & Ec). rewrite Ec. cbn [bind].
  destruct c.
  - (* the one contiguous view is replaced *)
    destruct (contiguous_single_view st below v Hviews Hv Ec) as [-> Iv].
    destruct (view_from_shape_map (View.shape v) Hne' (proj1 Hv))
      as (v0 & I0 & _ & _ & _ & _ & Hat0).
    assert (v0 = v).
    { unfold view_from_shape in I0. destruct (View.shape v); [congruence|].
      simpl in I0. rewrite Iv in I0. injection I0 as <-. reflexivity. }
    subst v0. rewrite Eset.
    exists (ShapeTracker.mk ([] ++ [IsView v2])). split; [reflexivity|].
    rewrite <- T1 in M', R |- *.
    apply (replace_top_same_map st [] v v2 vals vals'); try assumption.
    intros i Hi. rewrite (Hat0 i Hi). apply Hat2. rewrite HP. exact Hi.
  - (* a view is added *)
    rewrite Hviews.
    exists (ShapeTracker.mk ((below ++ [IsView v]) ++ [IsView v2])).
    split; [reflexivity|].
    split.
    { apply wf_with_top; [|exact Hv2]. apply Forall_app.
      split; [exact Hb | constructor; [exact Hv | constructor]]. }
    split.
    { unfold ShapeTracker.shape, ShapeTracker.top. simpl.
      rewrite unsnoc_snoc. simpl. rewrite T1. reflexivity. }
    split; [simpl; rewrite !length_app; simpl; lia|].
    split.
    { unfold ShapeTracker.needs_valid. rewrite Hviews. simpl.
      rewrite !existsb_app. simpl. rewrite !orb_false_r. reflexivity. }
    rewrite (naive_offset_top
               (ShapeTracker.mk ((below ++ [IsView v]) ++ [IsView v2]))
               (below ++ [IsView v]) v2 0 vals' eq_refl (View_wf_lengths v2 Hv2)).
    rewrite (naive_valid_top
               (ShapeTracker.mk ((below ++ [IsView v]) ++ [IsView v2]))
               (below ++ [IsView v]) v2 0 vals' eq_refl (View_wf_lengths v2 Hv2)).
    rewrite (naive_offset_top st below v 0 _ Hviews L).
    rewrite (naive_valid_top st below v 0 _ Hviews L).
    rewrite rev_app_distr. cbn [rev app walk walk_valid].
    rewrite <- T1 in M'.
    pose proof (View_at_ravel v2 vals' Hv2 M') as A2.
    rewrite Hat2 in A2
      by (rewrite <- T1; apply ravel_bounds; [exact (proj1 Hv2) | exact M']).
    rewrite T1 in A2.
    replace (View.offset v2 + 0 + affine (View.strides v2) vals')
      with (ravel new_shape vals') by lia.
    rewrite R, (View_at_ravel v vals Hv M).
    replace (View.offset v + 0 + affine (View.strides v) vals)
      with (View.offset v + affine (View.strides v) vals) by lia.
    split; reflexivity.
Qed.

(** X18.  On a well-formed ShapeTracker, [reshape] to a shape of positive
    entries with the same number of elements returns a well-formed tracker
    of the new shape, with at most one view more and the same
    [needs_valid()], and it keeps the row-major order of the elements: a
    multi-index of the new shape and a multi-index of the old shape with the
    same row-major linear index have the same buffer offset and the same
    validity.  This holds on each path of the source: the same shape, ones
    added or removed, dimensions that factorize from the merged ones, a
    contiguous view replaced, and a view added. *)
Theorem reshape_keeps_row_major_order
        (st : ShapeTracker.t) (sh new_shape vals vals' : list Z) :
  ShapeTracker_wf st ->
  ShapeTracker.shape st = Ok sh ->
  prod new_shape = prod sh ->
  multi_index sh vals ->
  multi_index new_shape vals' ->
  ravel new_shape vals' = ravel sh vals ->
  exists st',
    ShapeTracker.reshape st new_shape = Ok st'
    /\ ShapeTracker_wf st'
    /\ ShapeTracker.shape st' = Ok new_shape
    /\ (List.length (ShapeTracker.views st')
        <= S (List.length (ShapeTracker.views st)))%nat
    /\ ShapeTracker.needs_valid st' = ShapeTracker.needs_valid st
    /\ naive_offset st' 0 vals' = naive_offset st 0 vals
    /\ naive_valid st' 0 vals' = naive_valid st 0 vals.
Proof. exact (reshape_semantics st sh new_shape vals vals'). Qed.

Lemma reshape_keeps_row_major_order_witness :
  ShapeTracker_wf transposed23
  /\ multi_index [3; 2] [2; 1]
  /\ multi_index [6] [5]
  /\ exists st',
       ShapeTracker.reshape transposed23 [6] = Ok st'
       /\ ShapeTracker_wf st'
       /\ ShapeTracker.shape st' = Ok [6]
       /\ (List.length (ShapeTracker.views st')
           <= S (List.length (ShapeTracker.views transposed23)))%nat
       /\ ShapeTracker.needs_valid st' = ShapeTracker.needs_valid transposed23
       /\ naive_offset st' 0 [5] = naive_offset transposed23 0 [2; 1]
       /\ naive_valid st' 0 [5] = naive_valid transposed23 0 [2; 1].
Proof.
  assert (M : multi_index [3; 2] [2; 1]).
  { split; [reflexivity | concrete_forall]. }
  assert (M' : multi_index [6] [5]).
  { split; [reflexivity | concrete_forall]. }
  split; [exact transposed23_wf|]. split; [exact M|]. split; [exact M'|].
  exact (reshape_keeps_row_major_order transposed23 [3; 2] [6] [2; 1] [5]
           transposed23_wf eq_refl eq_refl M M' eq_refl).
Defined.

(** X19.  [reshape] to a different shape raises the fatal assertion when the
    new shape contains a 0 or has another number of elements than the
    current one. *)
Theorem reshape_rejects (st : ShapeTracker.t) (sh new_shape : list Z) :
  ShapeTracker.shape st = Ok sh ->
  sh <> new_shape ->
  In 0 new_shape \/ prod sh <> prod new_shape ->
  ShapeTracker.reshape st new_shape = Raise AssertionError.
Proof.
  intros Es Hne H. unfold ShapeTracker.reshape. rewrite Es. cbn [bind].
  destruct (ShapeTracker.list_eqb sh new_shape) eqn:Eq.
  { apply list_eqb_eq in Eq. contradiction. }
  destruct (forallb (fun x => negb (x =? 0)) new_shape) eqn:E0; [|reflexivity].
  cbn [assert bind].
  destruct (Z.eqb_spec (prod sh) (prod new_shape)) as [Ep|Ep]; [|reflexivity].
  exfalso. destruct H as [H|H]; [|contradiction].
  rewrite forallb_forall in E0. specialize (E0 0 H). discriminate.
Qed.

Lemma reshape_rejects_witness :
  [2; 3; 4] <> [5; 5]
  /\ (In 0 [5; 5] \/ prod [2; 3; 4] <> prod [5; 5])
  /\ ShapeTracker.reshape flat234 [5; 5] = Raise AssertionError.
Proof.
  assert (N : [2; 3; 4] <> [5; 5]) by discriminate.
  assert (H : In 0 [5; 5] \/ prod [2; 3; 4] <> prod [5; 5]).
  { right. cbv. discriminate. }
  split; [exact N|]. split; [exact H|].
  exact (reshape_rejects flat234 [2; 3; 4] [5; 5] eq_refl N H).
Defined.

Lemma new_tracker (sh : list Z) :
  sh <> [] -> positive_shape sh ->
  exists st v,
    ShapeTracker.new sh = Ok st
    /\ st = ShapeTracker.mk [IsView v]
    /\ View_wf v
    /\ View.shape v = sh
    /\ View.offset v = 0
    /\ View.contiguous v = true
    /\ forall i, 0 <= i < prod sh -> View_at v i = i.
Proof.
  intros Hne Hp.
  destruct (view_from_shape_map sh Hne Hp) as (v & E & Hv & S1 & S2 & C & Hat).
  exists (ShapeTracker.mk [IsView v]), v.
  unfold ShapeTracker.new. rewrite E.
  split; [reflexivity|]. split; [reflexivity|]. split; [exact Hv|].
  split; [exact S1|]. split; [exact S2|]. split; [exact C | exact Hat].
Qed.

(** X20.  [ShapeTracker(shape)] on a non-empty shape of positive entries is
    a well-formed tracker of one view with that shape, contiguous and
    without a ZeroView, and it addresses the buffer in row-major order:
    every multi-index within the shape is valid and has its row-major linear
    index as buffer offset.  On the empty shape the constructor raises the
    fatal assertion. *)
Theorem new_is_row_major :
  ShapeTracker.new [] = Raise AssertionError
  /\ forall (sh vals : list Z),
       sh <> [] ->
       multi_index sh vals ->
       exists st,
         ShapeTracker.new sh = Ok st
         /\ ShapeTracker_wf st
         /\ List.length (ShapeTracker.views st) = 1%nat
         /\ ShapeTracker.shape st = Ok sh
         /\ ShapeTracker.contiguous st = Ok true
         /\ ShapeTracker.needs_valid st = false
         /\ naive_offset st 0 vals = Ok (ravel sh vals)
         /\ naive_valid st 0 vals = Ok true.
Proof.
  split; [reflexivity|]. intros sh vals Hne M.
  pose proof (multi_index_positive _ _ M) as Hp.
  destruct (new_tracker sh Hne Hp) as (st & v & E & -> & Hv & S1 & S2 & C & Hat).
  exists (ShapeTracker.mk [IsView v]).
  split; [exact E|].
  split; [apply (wf_with_top [] v); [constructor | exact Hv]|].
  split; [reflexivity|].
  split; [unfold ShapeTracker.shape; simpl; rewrite S1; reflexivity|].
  split; [unfold ShapeTracker.contiguous; simpl; rewrite C; reflexivity|].
  split; [reflexivity|].
  rewrite (naive_offset_top (ShapeTracker.mk [IsView v]) [] v 0 vals eq_refl
             (View_wf_lengths v Hv)).
  rewrite (naive_valid_top (ShapeTracker.mk [IsView v]) [] v 0 vals eq_refl
             (View_wf_lengths v Hv)).
  rewrite <- S1 in M. pose proof (View_at_ravel v vals Hv M) as A.
  rewrite Hat in A by (rewrite <- S1; apply ravel_bounds; [exact (proj1 Hv) | exact M]).
  simpl. rewrite S1 in A. split; [f_equal; lia | reflexivity].
Qed.

Lemma new_is_row_major_witness :
  [2; 3; 4] <> []
  /\ multi_index [2; 3; 4] [1; 2; 3]
  /\ exists st,
       ShapeTracker.new [2; 3; 4] = Ok st
       /\ ShapeTracker_wf st
       /\ List.length (ShapeTracker.views st) = 1%nat
       /\ ShapeTracker.shape st = Ok [2; 3; 4]
       /\ ShapeTracker.contiguous st = Ok true
       /\ ShapeTracker.needs_valid st = false
       /\ naive_offset st 0 [1; 2; 3] = Ok (ravel [2; 3; 4] [1; 2; 3])
       /\ naive_valid st 0 [1; 2; 3] = Ok true.
Proof.
  assert (N : [2; 3; 4] <> ([] : list Z)) by discriminate.
  assert (M : multi_index [2; 3; 4] [1; 2; 3]).
  { split; [reflexivity | concrete_forall]. }
  split; [exact N|]. split; [exact M|].
  exact (proj2 new_is_row_major [2; 3; 4] [1; 2; 3] N M).
Defined.

Lemma flip_unfold (st : ShapeTracker.t) (sh axis : list Z) :
  ShapeTracker.shape st = Ok sh ->
  ShapeTracker.flip st axis = ShapeTracker.stride st (flip_mul axis (List.length sh)).
Proof. intros Es. unfold ShapeTracker.flip. rewrite Es. reflexivity. Qed.

Lemma flip_mul_length (axis : list Z) (rank : nat) :
  List.length (flip_mul axis rank) = rank.
Proof. unfold flip_mul. rewrite length_map, length_seq. reflexivity. Qed.

Lemma stride_source_flip (axis : list Z) (sh : list Z) :
  forall vals,
    List.length vals = List.length sh ->
    stride_source sh (flip_mul axis (List.length sh)) vals = mirror sh axis vals.
Proof.
  unfold stride_source, mirror, flip_mul, zip3. generalize 0%nat.
  induction sh as [|s sh IH]; intros n [|v vals] L; try discriminate;
    [reflexivity|].
  simpl in L. cbn [List.length seq map combine].
  rewrite (IH (S n) vals) by lia. f_equal.
  destruct (existsb (Z.eqb (Z.of_nat n)) axis); simpl; lia.
Qed.

(** X21.  On a well-formed ShapeTracker, [flip(axis)] keeps the shape and
    the tracker well-formed, and reverses the order along the axes listed:
    the element at a multi-index [vals] is the element of the old tracker at
    [shape[i] - 1 - vals[i]] on those axes and at [vals[i]] on the others,
    with the same buffer offset and the same validity. *)
Theorem flip_reverses (st : ShapeTracker.t) (sh axis vals : list Z) :
  ShapeTracker_wf st ->
  ShapeTracker.shape st = Ok sh ->
  multi_index sh vals ->
  exists st',
    ShapeTracker.flip st axis = Ok st'
    /\ ShapeTracker_wf st'
    /\ ShapeTracker.shape st' = Ok sh
    /\ multi_index sh (mirror sh axis vals)
    /\ naive_offset st' 0 vals = naive_offset st 0 (mirror sh axis vals)
    /\ naive_valid st' 0 vals = naive_valid st 0 (mirror sh axis vals).
Proof.
  intros Hwf Es M.
  pose proof (flip_mul_units axis (List.length sh)) as U.
  pose proof (flip_mul_length axis (List.length sh)) as L.
  pose proof (stride_shape_units _ U sh L) as S.
  assert (M' : multi_index (stride_shape sh (flip_mul axis (List.length sh))) vals)
    by (rewrite S; exact M).
  destruct (stride_semantics st sh _ vals 0 Hwf Es L (units_nonzero _ U) M')
    as (st' & E & W & Sh & Src & O & V).
  rewrite (stride_source_flip axis sh vals (multi_index_length _ _ M)) in Src, O, V.
  rewrite S in Sh.
  exists st'. rewrite (flip_unfold st sh axis Es).
  repeat (split; [assumption|]). exact V.
Qed.

Lemma flip_reverses_witness :
  ShapeTracker_wf transposed23
  /\ multi_index [3; 2] [0; 1]
  /\ exists st',
       ShapeTracker.flip transposed23 [0] = Ok st'
       /\ ShapeTracker_wf st'
       /\ ShapeTracker.shape st' = Ok [3; 2]
       /\ multi_index [3; 2] (mirror [3; 2] [0] [0; 1])
       /\ naive_offset st' 0 [0; 1]
          = naive_offset transposed23 0 (mirror [3; 2] [0] [0; 1])
       /\ naive_valid st' 0 [0; 1]
          = naive_valid transposed23 0 (mirror [3; 2] [0] [0; 1]).
Proof.
  assert (M : multi_index [3; 2] [0; 1]).
  { split; [reflexivity | concrete_forall]. }
  split; [exact transposed23_wf|]. split; [exact M|].
  exact (flip_reverses transposed23 [3; 2] [0] [0; 1] transposed23_wf eq_refl M).
Defined.

Lemma probe_total (below : View.t) :
  positive_dims (View.shape_strides below) ->
  forall dims new_strides,
    Forall (fun p => 1 <= fst p) dims ->
    exists l, ShapeTracker.probe below dims new_strides = Ok l.
Proof.
  intros Hd. induction dims as [|[s st] r IH]; intros acc Hp.
  - exists acc. reflexivity.
  - inversion Hp as [|? ? Hs Hr]; subst. simpl in Hs.
    cbn [ShapeTracker.probe].
    destruct (var_sound (fun _ => 0) "idx" 0 (s - 1) ltac:(lia)) as [R _].
    destruct (mul_sound (fun _ => 0) _ st R) as [R' _].
    destruct (View_expr_node_sound (fun _ => 0) below _ Hd R') as (e & E & _).
    rewrite E. cbn [bind].
    destruct (ShapeTracker.classify e); [apply IH; exact Hr | eexists; reflexivity].
Qed.

Lemma simplify_step_wf (st : ShapeTracker.t) :
  ShapeTracker_wf st ->
  exists r,
    ShapeTracker.simplify_step st = Ok r
    /\ forall st1, r = Some st1 ->
         ShapeTracker_wf st1
         /\ ShapeTracker.shape st1 = ShapeTracker.shape st
         /\ filter ShapeTracker.is_zeroview (ShapeTracker.views st1)
            = filter ShapeTracker.is_zeroview (ShapeTracker.views st).
Proof.
  intros Hwf.
  destruct (wf_top st Hwf) as (below & v & Hviews & Hv & Hb & _ & Es & _).
  unfold ShapeTracker.simplify_step. rewrite Hviews, unsnoc_snoc.
  destruct (unsnoc below) as [[rest [v2|z]]|] eqn:U2;
    try (eexists; split; [reflexivity | discriminate]).
  apply unsnoc_some in U2. subst below.
  apply Forall_app in Hb as [Hrest Hv2]. inversion Hv2 as [|? ? Hv2' _]; subst.
  simpl in Hv2'. cbn [ShapeTracker.vt_offset ShapeTracker.vt_shape
                      ShapeTracker.vt_strides].
  destruct (View.offset v =? 0);
    [|eexists; split; [reflexivity | discriminate]].
  destruct (probe_total v2 (View_wf_positive_dims v2 Hv2')
              (combine (View.shape v) (View.strides v)) [])
    as (l & P).
  { apply Forall_forall. intros [s z] Hin. apply in_combine_l in Hin.
    pose proof (proj1 Hv) as Hp. unfold positive_shape in Hp.
    rewrite Forall_forall in Hp. exact (Hp s Hin). }
  rewrite P. cbn [bind].
  destruct (Nat.eqb (List.length l) (List.length (View.strides v))) eqn:EL;
    [|eexists; split; [reflexivity | discriminate]].
  apply Nat.eqb_eq in EL.
  destruct (View_init_ok (View.shape v) l 0) as (v' & I & S1 & _ & _ & S4).
  { rewrite EL, (View_wf_lengths v Hv). lia. }
  rewrite I. cbn [bind]. eexists. split; [reflexivity|].
  intros st1 Q. injection Q as <-.
  split.
  { apply wf_with_top; [exact Hrest|]. split; [rewrite S1; exact (proj1 Hv) | exact S4]. }
  split.
  { rewrite Es. unfold ShapeTracker.shape, ShapeTracker.top. simpl.
    rewrite unsnoc_snoc. simpl. rewrite S1. reflexivity. }
  simpl. rewrite !filter_app. simpl. rewrite !app_nil_r. reflexivity.
Qed.

Lemma simplify_wf (depth : nat) :
  forall st,
    (List.length (ShapeTracker.views st) <= depth)%nat ->
    ShapeTracker_wf st ->
    exists st',
      ShapeTracker.simplify depth st = Some (Ok st')
      /\ ShapeTracker_wf st'
      /\ ShapeTracker.shape st' = ShapeTracker.shape st
      /\ filter ShapeTracker.is_zeroview (ShapeTracker.views st')
         = filter ShapeTracker.is_zeroview (ShapeTracker.views st)
      /\ (List.length (ShapeTracker.views st')
          <= List.length (ShapeTracker.views st))%nat.
Proof.
  induction depth as [|depth IH]; intros st Hlen Hwf;
    destruct (simplify_step_wf st Hwf) as ([st1|] & E & F); simpl; rewrite E.
  - apply simplify_step_length in E. lia.
  - exists st. repeat split; try reflexivity; try apply Hwf. 
  - destruct (F st1 eq_refl) as (W1 & S1 & Z1).
    pose proof (simplify_step_length _ _ E) as L1.
    destruct (IH st1 ltac:(lia) W1) as (st' & R & W & S & Zv & Len).
    exists st'. split; [exact R|]. split; [exact W|].
    split; [rewrite S; exact S1|]. split; [rewrite Zv; exact Z1 | lia].
  - exists st. repeat split; try reflexivity; try apply Hwf.
Qed.

Lemma needs_valid_filter (st : ShapeTracker.t) :
  ShapeTracker.needs_valid st
  = negb (Nat.eqb (List.length (filter ShapeTracker.is_zeroview (ShapeTracker.views st))) 0).
Proof.
  unfold ShapeTracker.needs_valid.
  induction (ShapeTracker.views st) as [|v vs IH]; [reflexivity|].
  simpl. destruct (ShapeTracker.is_zeroview v); simpl; [reflexivity | exact IH].
Qed.

(** X22.  On a well-formed ShapeTracker [simplify] never raises: with the
    nesting of its self-calls bounded by the number of views it returns a
    well-formed tracker with the same shape, with no more views, and with
    the same ZeroViews in the same order, so that [needs_valid()] is
    unchanged: it only ever folds a View into the View below it. *)
Theorem simplify_keeps_shape (st : ShapeTracker.t) :
  ShapeTracker_wf st ->
  exists st',
    ShapeTracker.simplify (List.length (ShapeTracker.views st)) st = Some (Ok st')
    /\ ShapeTracker_wf st'
    /\ ShapeTracker.shape st' = ShapeTracker.shape st
    /\ filter ShapeTracker.is_zeroview (ShapeTracker.views st')
       = filter ShapeTracker.is_zeroview (ShapeTracker.views st)
    /\ ShapeTracker.needs_valid st' = ShapeTracker.needs_valid st
    /\ (List.length (ShapeTracker.views st')
        <= List.length (ShapeTracker.views st))%nat.
Proof.
  intros Hwf.
  destruct (simplify_wf _ st (le_n _) Hwf) as (st' & R & W & S & Zv & Len).
  exists st'. split; [exact R|]. split; [exact W|]. split; [exact S|].
  split; [exact Zv|]. split; [|exact Len].
  rewrite !needs_valid_filter, Zv. reflexivity.
Qed.

Lemma simplify_keeps_shape_witness :
  ShapeTracker_wf broadcast_pair
  /\ exists st',
       ShapeTracker.simplify (List.length (ShapeTracker.views broadcast_pair))
                             broadcast_pair = Some (Ok st')
       /\ ShapeTracker_wf st'
       /\ ShapeTracker.shape st' = ShapeTracker.shape broadcast_pair
       /\ filter ShapeTracker.is_zeroview (ShapeTracker.views st')
          = filter ShapeTracker.is_zeroview (ShapeTracker.views broadcast_pair)
       /\ ShapeTracker.needs_valid st' = ShapeTracker.needs_valid broadcast_pair
       /\ (List.length (ShapeTracker.views st')
           <= List.length (ShapeTracker.views broadcast_pair))%nat.
Proof.
  assert (W : ShapeTracker_wf broadcast_pair) by concrete_wf.
  split; [exact W|].
  exact (simplify_keeps_shape broadcast_pair W).
Defined.

(** X23.  [pad] raises the fatal assertion on a negative amount and on a
    number of pairs other than the rank, whereas [shrink] accepts bounds
    beyond the extent; and [stride] with a multiplier 0 on some dimension
    raises the division-by-zero error of the new size. *)
Theorem pad_and_stride_reject (st : ShapeTracker.t) (sh : list Z) :
  ShapeTracker_wf st ->
  ShapeTracker.shape st = Ok sh ->
  (forall arg,
      ~ nonnegative_pads arg \/ List.length arg <> List.length sh ->
      ShapeTracker.pad st arg = Raise AssertionError)
  /\ (forall mul,
         Exists (fun p => snd p = 0) (combine sh mul) ->
         ShapeTracker.stride st mul = Raise ZeroDivisionError).
Proof.
  intros Hwf Es.
  destruct (wf_top st Hwf) as (below & v & _ & _ & _ & _ & Es' & Et & Eo).
  rewrite Es in Es'. injection Es' as ->.
  split.
  - intros arg H. unfold ShapeTracker.pad. rewrite Es. cbn [bind].
    destruct (forallb _ arg) eqn:E1; [|reflexivity].
    destruct (Nat.eqb _ _) eqn:E2; [|reflexivity].
    exfalso. apply Nat.eqb_eq in E2. destruct H as [H|H]; [|contradiction].
    apply H. unfold nonnegative_pads. apply Forall_forall. intros [b e] Hin.
    rewrite forallb_forall in E1. specialize (E1 _ Hin). simpl in E1.
    apply andb_true_iff in E1 as [Hb He]. apply Z.leb_le in Hb, He.
    simpl. lia.
  - intros mul H. unfold ShapeTracker.stride. rewrite Es, Et, Eo. cbn [bind].
    replace (existsb _ _) with true; [reflexivity|].
    symmetry. apply existsb_exists. apply Exists_exists in H as ([s m] & Hin & Hm).
    exists (s, m). split; [exact Hin|]. simpl in Hm. subst m. reflexivity.
Qed.

Lemma pad_and_stride_reject_witness :
  ShapeTracker_wf flat3
  /\ ShapeTracker.pad flat3 [(-1, 0)] = Raise AssertionError
  /\ ShapeTracker.stride flat3 [0] = Raise ZeroDivisionError.
Proof.
  split; [exact flat3_wf|].
  destruct (pad_and_stride_reject flat3 [3] flat3_wf eq_refl) as [P S].
  split.
  - apply P. left. intros H. inversion H as [|? ? [Hb _] _]; subst.
    simpl in Hb. lia.
  - apply S. constructor. reflexivity.
Defined.

Lemma affine_normalize (sh : list Z) :
  forall sts vals,
    multi_index sh vals ->
    affine (normalize sts sh) vals = affine sts vals.
Proof.
  induction sh as [|s sh IH]; intros [|z sts] [|v vals] M;
    try reflexivity; try (destruct M; discriminate).
  apply multi_index_cons in M as [Hv M].
  rewrite normalize_cons, !affine_cons, (IH sts vals M).
  destruct (Z.eqb_spec s 1); [assert (v = 0) by lia; subst v|]; lia.
Qed.

(** X24.  On a well-formed ShapeTracker, [strided] with one (size, stride)
    pair per dimension returns a well-formed tracker of the sizes given:
    the view built from the pairs replaces the top view when that view is
    contiguous, and is added above all the views otherwise.  The element at a multi-index [vals] of the result
    is the element of the old tracker whose row-major linear index is
    [sum(vals[i] * stride_i)], whenever that index is one of the old
    shape: same buffer offset, same validity. *)
Theorem strided_reads_linear_index
        (st : ShapeTracker.t) (sh : list Z) (arg : list (Z * Z))
        (vals vals0 : list Z) :
  ShapeTracker_wf st ->
  ShapeTracker.shape st = Ok sh ->
  multi_index (map fst arg) vals ->
  multi_index sh vals0 ->
  ravel sh vals0 = affine (map snd arg) vals ->
  exists st',
    ShapeTracker.strided st arg = Ok st'
    /\ ShapeTracker_wf st'
    /\ ShapeTracker.shape st' = Ok (map fst arg)
    /\ (exists below v view,
          ShapeTracker.views st = below ++ [IsView v]
          /\ View.init (map fst arg) (map snd arg) 0 = Ok view
          /\ ShapeTracker.views st'
             = if View.contiguous v then below ++ [IsView view]
               else ShapeTracker.views st ++ [IsView view])
    /\ (List.length (ShapeTracker.views st')
        <= S (List.length (ShapeTracker.views st)))%nat
    /\ ShapeTracker.needs_valid st' = ShapeTracker.needs_valid st
    /\ naive_offset st' 0 vals = naive_offset st 0 vals0
    /\ naive_valid st' 0 vals = naive_valid st 0 vals0.
Proof.
  intros Hwf Es M M0 R.
  destruct (wf_top st Hwf) as (below & v & Hviews & Hv & Hb & Etop & Es' & _).
  rewrite Es in Es'. injection Es' as ->.
  pose proof (View_wf_lengths v Hv) as L.
  pose proof (multi_index_positive _ _ M) as Hp.
  destruct (View_init_ok (map fst arg) (map snd arg) 0)
    as (v' & I & S1 & S2 & S3 & S4).
  { rewrite !length_map. lia. }
  assert (Hv' : View_wf v') by (split; [rewrite S1; exact Hp | exact S4]).
  assert (A : View.offset v' + 0 + affine (View.strides v') vals
              = ravel (View.shape v) vals0).
  { rewrite S2, S3, (affine_normalize _ _ vals M), R. lia. }
  pose proof (ravel_bounds _ (proj1 Hv) vals0 M0) as B.
  pose proof (View_at_ravel v vals0 Hv M0) as A0.
  unfold ShapeTracker.strided. rewrite I, Etop. cbn [bind ShapeTracker.vt_contiguous].
  rewrite (naive_offset_top st below v 0 _ Hviews L).
  rewrite (naive_valid_top st below v 0 _ Hviews L).
  replace (View.offset v + 0 + affine (View.strides v) vals0)
    with (View_at v (ravel (View.shape v) vals0)) by lia.
  destruct (View.contiguous v) eqn:C.
  - (* the contiguous top view is replaced *)
    unfold ShapeTracker.set_top. rewrite Hviews, unsnoc_snoc.
    exists (ShapeTracker.mk (below ++ [IsView v'])). split; [reflexivity|].
    split; [apply wf_with_top; assumption|].
    split.
    { unfold ShapeTracker.shape, ShapeTracker.top. simpl.
      rewrite unsnoc_snoc. simpl. rewrite S1. reflexivity. }
    split.
    { exists below, v, v'. split; [reflexivity|]. split; [reflexivity|].
      rewrite C. reflexivity. }
    split; [simpl; rewrite !length_app; simpl; lia|].
    split.
    { destruct st as [vs]. simpl in Hviews. subst vs. apply needs_valid_top. }
    rewrite (naive_offset_top (ShapeTracker.mk (below ++ [IsView v'])) below v'
               0 vals eq_refl (View_wf_lengths v' Hv')).
    rewrite (naive_valid_top (ShapeTracker.mk (below ++ [IsView v'])) below v'
               0 vals eq_refl (View_wf_lengths v' Hv')).
    rewrite A, (contiguous_view_identity v Hv C _ B). split; reflexivity.
  - (* the new view is added above the old ones *)
    rewrite Hviews.
    exists (ShapeTracker.mk ((below ++ [IsView v]) ++ [IsView v'])).
    split; [reflexivity|].
    split.
    { apply wf_with_top; [|exact Hv']. apply Forall_app.
      split; [exact Hb | constructor; [exact Hv | constructor]]. }
    split.
    { unfold ShapeTracker.shape, ShapeTracker.top. simpl.
      rewrite unsnoc_snoc. simpl. rewrite S1. reflexivity. }
    split.
    { exists below, v, v'. split; [reflexivity|]. split; [reflexivity|].
      rewrite C. reflexivity. }
    split; [simpl; rewrite !length_app; simpl; lia|].
    split.
    { unfold ShapeTracker.needs_valid. rewrite Hviews. simpl.
      rewrite !existsb_app. simpl. rewrite !orb_false_r. reflexivity. }
    rewrite (naive_offset_top
               (ShapeTracker.mk ((below ++ [IsView v]) ++ [IsView v']))
               (below ++ [IsView v]) v' 0 vals eq_refl (View_wf_lengths v' Hv')).
    rewrite (naive_valid_top
               (ShapeTracker.mk ((below ++ [IsView v]) ++ [IsView v']))
               (below ++ [IsView v]) v' 0 vals eq_refl (View_wf_lengths v' Hv')).
    rewrite rev_app_distr. cbn [rev app walk walk_valid].
    rewrite A. split; reflexivity.
Qed.

Lemma strided_reads_linear_index_witness :
  ShapeTracker_wf flat234
  /\ multi_index (map fst [(3, 8); (2, 1)]) [2; 1]
  /\ multi_index [2; 3; 4] [1; 1; 1]
  /\ (exists st',
        ShapeTracker.strided flat234 [(3, 8); (2, 1)] = Ok st'
        /\ List.length (ShapeTracker.views st') = 1%nat
        /\ naive_offset st' 0 [2; 1] = naive_offset flat234 0 [1; 1; 1]
        /\ naive_valid st' 0 [2; 1] = naive_valid flat234 0 [1; 1; 1])
  /\ ShapeTracker_wf transposed23
  /\ multi_index (map fst [(2, 2)]) [1]
  /\ multi_index [3; 2] [1; 0]
  /\ (exists st',
        ShapeTracker.strided transposed23 [(2, 2)] = Ok st'
        /\ List.length (ShapeTracker.views st') = 2%nat
        /\ naive_offset st' 0 [1] = naive_offset transposed23 0 [1; 0]
        /\ naive_valid st' 0 [1] = naive_valid transposed23 0 [1; 0]).
Proof.
  assert (M : multi_index (map fst [(3, 8); (2, 1)]) [2; 1]).
  { split; [reflexivity | concrete_forall]. }
  assert (M0 : multi_index [2; 3; 4] [1; 1; 1]).
  { split; [reflexivity | concrete_forall]. }
  assert (N : multi_index (map fst [(2, 2)]) [1]).
  { split; [reflexivity | concrete_forall]. }
  assert (N0 : multi_index [3; 2] [1; 0]).
  { split; [reflexivity | concrete_forall]. }
  split; [exact flat234_wf|]. split; [exact M|]. split; [exact M0|]. split.
  { destruct (strided_reads_linear_index flat234 [2; 3; 4] [(3, 8); (2, 1)]
                [2; 1] [1; 1; 1] flat234_wf eq_refl M M0 eq_refl)
      as (st' & E & _ & _ & _ & _ & _ & O & V).
    exists st'. split; [exact E|]. split; [|split; [exact O | exact V]].
    vm_compute in E. injection E as <-. reflexivity. }
  split; [exact transposed23_wf|]. split; [exact N|]. split; [exact N0|].
  destruct (strided_reads_linear_index transposed23 [3; 2] [(2, 2)]
              [1] [1; 0] transposed23_wf eq_refl N N0 eq_refl)
    as (st' & E & _ & _ & _ & _ & _ & O & V).
  exists st'. split; [exact E|]. split; [|split; [exact O | exact V]].
  vm_compute in E. injection E as <-. reflexivity.
Defined.
